(** * simplegit: a shallow embedding of [simplegit/simplegit.py]

    The program keeps a repository inside the directory [repoPath]: the
    marker directory [.simplegit] holds the files [HEAD] and [TO_COMMIT] and
    one directory per commit.  Every function of the source works on the
    file system below [repoPath], so the state of the embedding is that
    directory tree, the marker directory included, and each source function
    becomes a function from a tree to an outcome: a result or a raised
    exception, with the tree as the call left it.

    Conventions of the embedding:
    - a path is the list of its components below [repoPath]; this is what
      [normpath(join(repoPath, p))] denotes for a relative, normalised [p].
      [render] gives the text of such a path (the string the source handles)
      and [resolve] reads a line of text back as [normpath(join(base, f))];
    - the entries of a directory are kept in the order [os.listdir] gives
      them; a name occurs once in a directory;
    - file contents are strings; text files are read through the
      universal-newline translation of text mode and cut by [splitlines];
    - a character is a code point below 256 and a string is the list of its
      characters: the texts and file names of a run whose encoding has one
      byte per character (ISO-8859-1), where every byte of a file or of a
      name is one character;
    - a commit id is the [uuid4().hex] token, passed to [commit] as an
      argument, and is one path component;
    - the text printed by [add] for a missing path is not kept; the text
      printed by [status] is the value it returns;
    - links are not modelled: an entry is a regular file or a directory;
    - whatever lies outside [repoPath] is not part of this state.  The paths
      handed to [add] are paths below [repoPath], and the functions of this
      part follow the source for the lines of the staging file that name
      paths of the tree ([staged_in_tree]); at a line that leads outside
      [repoPath] they stop with [OSError], which the source does not do.
      Every statement about [commit] in this part therefore carries the
      hypothesis that the staged lines name paths of the tree.  What the
      source does with a line that leads outside is the matter of the
      module [Whole], where the state is the whole file system and
      [repoPath] a directory in it; [commit] and [add] of this part are
      proved equal to those of [Whole] on the lines and paths that stay
      below [repoPath]. *)

From Stdlib Require Import String Ascii List Bool Arith Lia.
Import ListNotations.
Local Open Scope string_scope.
Local Open Scope list_scope.

Set Implicit Arguments.

(** ** Module constants *)

Definition REPO_DIR : string := ".simplegit".
Definition HEAD : string := "HEAD".
Definition TO_COMMIT : string := "TO_COMMIT".
Definition TRACKED_LIST : string := "TRACKED_LIST".
Definition PREV_COMMIT : string := "PREV_COMMIT".
Definition COMMIT_DIR : string := "COMMIT_DIR".

(** ** Text: characters, lines, stripping *)

Definition LF : ascii := "010"%char.
Definition CR : ascii := "013"%char.

Definition is_LF (c : ascii) : bool := Ascii.eqb c LF.
Definition is_CR (c : ascii) : bool := Ascii.eqb c CR.

(** A character is a code point below 256 and a text is the list of its
    code points.  The line boundaries of [str.splitlines] among them: LF, VT,
    FF, CR (10 to 13), FS, GS, RS (28 to 30) and NEL (U+0085, 133).  The two
    other boundaries of [splitlines], U+2028 and U+2029, lie above 255. *)
Definition is_linebreak (c : ascii) : bool :=
  let n := nat_of_ascii c in
  ((10 <=? n)%nat && (n <=? 13)%nat) || ((28 <=? n)%nat && (n <=? 30)%nat)
  || (n =? 133)%nat.

(** The characters removed by [str.strip()] among the code points below 256:
    TAB to CR (9 to 13), FS to the space (28 to 32), NEL (U+0085, 133) and
    the no-break space (U+00A0, 160). *)
Definition is_space (c : ascii) : bool :=
  let n := nat_of_ascii c in
  ((9 <=? n)%nat && (n <=? 13)%nat) || ((28 <=? n)%nat && (n <=? 32)%nat)
  || (n =? 133)%nat || (n =? 160)%nat.

Definition is_slash (c : ascii) : bool := Ascii.eqb c "/"%char.

Fixpoint string_forallb (p : ascii -> bool) (s : string) : bool :=
  match s with
  | EmptyString => true
  | String c s' => p c && string_forallb p s'
  end.

(** A string without line boundary: what one line of a text file can hold. *)
Definition clean (s : string) : bool :=
  string_forallb (fun c => negb (is_linebreak c)) s.

(** Reading in text mode turns CR LF and a lone CR into LF. *)
Fixpoint universal_newlines (s : string) : string :=
  match s with
  | EmptyString => EmptyString
  | String c s' =>
      if is_CR c then
        String LF
          match s' with
          | EmptyString => EmptyString
          | String c2 s'' =>
              if is_LF c2 then universal_newlines s'' else universal_newlines s'
          end
      else String c (universal_newlines s')
  end.

(** [str.splitlines()]: the flag tells that the previous character was a CR,
    so that a following LF belongs to the same boundary. *)
Fixpoint splitlines_from (after_cr : bool) (s : string) : list string :=
  match s with
  | EmptyString => []
  | String c s' =>
      if is_LF c && after_cr then splitlines_from false s'
      else if is_linebreak c then EmptyString :: splitlines_from (is_CR c) s'
      else match splitlines_from false s' with
           | [] => [String c EmptyString]
           | l :: ls => String c l :: ls
           end
  end.

Definition splitlines (s : string) : list string := splitlines_from false s.

(** [file.readline()]: the text up to and including the first LF. *)
Fixpoint readline (s : string) : string :=
  match s with
  | EmptyString => EmptyString
  | String c s' =>
      if is_LF c then String c EmptyString else String c (readline s')
  end.

Fixpoint lstrip (s : string) : string :=
  match s with
  | EmptyString => EmptyString
  | String c s' => if is_space c then lstrip s' else s
  end.

Fixpoint rstrip (s : string) : string :=
  match s with
  | EmptyString => EmptyString
  | String c s' =>
      match rstrip s' with
      | EmptyString => if is_space c then EmptyString else String c EmptyString
      | r => String c r
      end
  end.

Definition strip (s : string) : string := rstrip (lstrip s).

(** Python's truth value of a string. *)
Definition nonempty (s : string) : bool :=
  match s with EmptyString => false | _ => true end.

(** The text that holds the given lines, each closed by LF: what successive
    [write(line + '\n')] calls produce. *)
Fixpoint unlines (ls : list string) : string :=
  match ls with
  | [] => EmptyString
  | l :: ls' => l ++ String LF (unlines ls')
  end.

(** [x in xs] on strings. *)
Definition mem (x : string) (xs : list string) : bool :=
  existsb (String.eqb x) xs.

(** ** Paths *)

Definition path := list string.

(** The text of a normalised relative path: components joined by [/], and
    [.] for the empty path. *)
Definition render (p : path) : string :=
  match p with
  | [] => "."
  | _ => String.concat "/" p
  end.

(** [s.split('/')]. *)
Fixpoint split_slash (s : string) : list string :=
  match s with
  | EmptyString => [EmptyString]
  | String c s' =>
      if is_slash c then EmptyString :: split_slash s'
      else match split_slash s' with
           | [] => [String c EmptyString]
           | l :: ls => String c l :: ls
           end
  end.

(** [normpath]: empty and [.] components vanish, [..] removes the component
    before it.  [acc] holds the components read so far, last one first; going
    above the root of the tree gives [None]. *)
Fixpoint normalize (acc : list string) (comps : list string) : option path :=
  match comps with
  | [] => Some (rev acc)
  | c :: cs =>
      if String.eqb c "" || String.eqb c "." then normalize acc cs
      else if String.eqb c ".." then
        match acc with
        | [] => None
        | _ :: acc' => normalize acc' cs
        end
      else normalize (c :: acc) cs
  end.

Definition is_absolute (s : string) : bool :=
  match s with
  | String c _ => is_slash c
  | EmptyString => false
  end.

(** [normpath(join(base, f))] for a directory [base] of the tree. *)
Definition resolve (base : path) (f : string) : option path :=
  if is_absolute f then None else normalize (rev base) (split_slash f).

(** [dirname] and [basename] of a normalised path. *)
Definition dirname (p : path) : path := removelast p.
Definition basename (p : path) : string := last p EmptyString.

(** ** The directory tree *)

Local Unset Elimination Schemes.

Inductive node : Type :=
| File (data : string)
| Dir (entries : list (string * node)).

Local Set Elimination Schemes.

Definition entries := list (string * node).

Fixpoint assoc (name : string) (ents : entries) : option node :=
  match ents with
  | [] => None
  | (k, v) :: rest => if String.eqb k name then Some v else assoc name rest
  end.

(** Replace the entry called [name], or add it after the others. *)
Fixpoint set_entry (name : string) (v : node) (ents : entries) : entries :=
  match ents with
  | [] => [(name, v)]
  | (k, w) :: rest =>
      if String.eqb k name then (k, v) :: rest
      else (k, w) :: set_entry name v rest
  end.

Fixpoint lookup (p : path) (n : node) : option node :=
  match p with
  | [] => Some n
  | c :: p' =>
      match n with
      | File _ => None
      | Dir ents =>
          match assoc c ents with
          | Some m => lookup p' m
          | None => None
          end
      end
  end.

(** Store [v] at [p]: every directory on the way must exist, the last
    component is replaced or created. *)
Fixpoint put (p : path) (v : node) (n : node) : option node :=
  match p with
  | [] => Some v
  | c :: p' =>
      match n with
      | File _ => None
      | Dir ents =>
          match p' with
          | [] => Some (Dir (set_entry c v ents))
          | _ =>
              match assoc c ents with
              | Some m =>
                  match put p' v m with
                  | Some m' => Some (Dir (set_entry c m' ents))
                  | None => None
                  end
              | None => None
              end
          end
      end
  end.

Definition path_exists (p : path) (st : node) : bool :=
  match lookup p st with Some _ => true | None => false end.

Definition isdir (p : path) (st : node) : bool :=
  match lookup p st with Some (Dir _) => true | _ => false end.

Definition isfile (p : path) (st : node) : bool :=
  match lookup p st with Some (File _) => true | _ => false end.

(** ** Exceptions and outcomes *)

Inductive exn : Type :=
| OSError          (* EnvironmentError and its subclasses *)
| AssertionError
| SystemExit.      (* fatalError: print and [sys.exit()] *)

(** What a call leaves behind: its value or the exception it raised, and in
    both cases the tree as it is at that moment. *)
Inductive outcome (A : Type) : Type :=
| Done (a : A) (st : node)
| Raise (e : exn) (st : node).

Arguments Raise {A} e st.

Definition M (A : Type) : Type := node -> outcome A.

Definition ret {A} (a : A) : M A := fun st => Done a st.

Definition bind {A B} (m : M A) (k : A -> M B) : M B :=
  fun st =>
    match m st with
    | Done a st' => k a st'
    | Raise e st' => Raise e st'
    end.

Definition raise {A} (e : exn) : M A := fun st => Raise e st.

Definition final {A} (o : outcome A) : node :=
  match o with Done _ st => st | Raise _ st => st end.

Declare Scope fs_scope.
Delimit Scope fs_scope with fs.
Notation "x <- m ;; k" := (bind m (fun x => k))
  (at level 61, m at next level, right associativity) : fs_scope.
Notation "m ;;; k" := (bind m (fun _ => k))
  (at level 61, right associativity) : fs_scope.
Local Open Scope fs_scope.

(** Run a change of the tree that fails with [OSError]. *)
Definition change (f : node -> option node) : M unit :=
  fun st =>
    match f st with
    | Some st' => Done tt st'
    | None => Raise OSError st
    end.

(** ** File-system calls *)

(** [os.mkdir(p)]: [p] must be new and its parent a directory. *)
Definition mkdir (p : path) : M unit :=
  fun st =>
    if path_exists p st then Raise OSError st
    else change (put p (Dir [])) st.

(** [os.mknod(p)]: an empty regular file, [p] must be new. *)
Definition mknod (p : path) : M unit :=
  fun st =>
    if path_exists p st then Raise OSError st
    else change (put p (File EmptyString)) st.

(** [open(p, 'r').read()] in text mode. *)
Definition read_text (p : path) : M string :=
  fun st =>
    match lookup p st with
    | Some (File data) => Done (universal_newlines data) st
    | _ => Raise OSError st
    end.

(** [open(p, 'rb').read()]. *)
Definition read_bytes (p : path) : M string :=
  fun st =>
    match lookup p st with
    | Some (File data) => Done data st
    | _ => Raise OSError st
    end.

(** [open(p, 'w')], the writes, and the close: the file is created or
    truncated and then holds [data]. *)
Definition write_file (p : path) (data : string) : M unit :=
  fun st =>
    if isdir p st then Raise OSError st
    else change (put p (File data)) st.

(** [open(p, 'a+')], the writes, and the close. *)
Definition append_file (p : path) (data : string) : M unit :=
  fun st =>
    match lookup p st with
    | Some (Dir _) => Raise OSError st
    | Some (File old) => change (put p (File (old ++ data))) st
    | None => change (put p (File data)) st
    end.

(** [os.listdir(p)]. *)
Definition listdir (p : path) : M (list string) :=
  fun st =>
    match lookup p st with
    | Some (Dir ents) => Done (map fst ents) st
    | _ => Raise OSError st
    end.

(** [os.makedirs(p)]: the missing directories above [p] are made, then [p]
    itself, which must be new.  [above] is the part of [p] already walked. *)
Fixpoint makedirs_from (above rest : path) : M unit :=
  match rest with
  | [] => raise OSError
  | c :: rest' =>
      let cur := above ++ [c] in
      match rest' with
      | [] => mkdir cur
      | _ =>
          fun st =>
            if path_exists cur st then makedirs_from cur rest' st
            else (mkdir cur ;;; makedirs_from cur rest') st
      end
  end.

Definition makedirs (p : path) : M unit := makedirs_from [] p.

(** [shutil.copy2(src, dst)]: into [dst] when it is a directory, under the
    name of the source.  A source outside the tree counts as missing. *)
Definition copy2 (src : option path) (dst : path) : M unit :=
  fun st =>
    match src with
    | None => Raise OSError st
    | Some s =>
        let dst' := if isdir dst st then dst ++ [basename s] else dst in
        if list_eq_dec string_dec s dst' then Raise OSError st
        else (data <- read_bytes s ;; write_file dst' data) st
    end.

(** ** The functions of [simplegit.py] *)

Definition head_path : path := [REPO_DIR; HEAD].
Definition to_commit_path : path := [REPO_DIR; TO_COMMIT].
Definition commit_path (h : string) : path := [REPO_DIR; h].
Definition commit_dir_path (h : string) : path := [REPO_DIR; h; COMMIT_DIR].
Definition tracked_path (h : string) : path := [REPO_DIR; h; TRACKED_LIST].
Definition prev_path (h : string) : path := [REPO_DIR; h; PREV_COMMIT].

(** [f[0] == '.'] on a name of a directory listing. *)
Definition hidden (name : string) : bool :=
  match name with
  | String c _ => Ascii.eqb c "."%char
  | EmptyString => false
  end.

(** [os.walk] from the directory [n] found at [root], top down, with the
    pruning of [allFiles]: the visible files of the directory, then the walk
    of each visible sub-directory. *)
Fixpoint walk (root : path) (n : node) : list path :=
  match n with
  | File _ => []
  | Dir ents =>
      flat_map
        (fun e => match snd e with
                  | File _ => if hidden (fst e) then [] else [root ++ [fst e]]
                  | Dir _ => []
                  end) ents
      ++
      flat_map
        (fun e => match snd e with
                  | File _ => []
                  | Dir _ =>
                      if hidden (fst e) then []
                      else walk (root ++ [fst e]) (snd e)
                  end) ents
  end.

Definition allFiles (p : path) (st : node) : list path :=
  match lookup p st with
  | Some n => walk p n
  | None => []
  end.

(** [changePathsRef('/', repoPath, files)] for files below [repoPath]: their
    text relative to [repoPath]. *)
Definition changePathsRef (files : list path) : list string :=
  map render files.

Definition lastCommitHash : M string :=
  text <- read_text head_path ;;
  ret (strip (readline text)).

Definition init : M unit :=
  fun st =>
    if path_exists [REPO_DIR] st then Raise SystemExit st
    else (mkdir [REPO_DIR] ;;;
          mknod head_path ;;;
          mknod to_commit_path) st.

Definition toCommitList : M (list string) :=
  text <- read_text to_commit_path ;;
  ret (splitlines text).

(** The first loop of [add].  [st] is the tree (the loop only looks at it),
    [toCommitAsList] the list kept in memory, [dirs] the directories met and
    [written] the text handed to the open file so far. *)
Fixpoint add_scan (st : node) (files : list path)
    (toCommitAsList : list string) (dirs : list path) (written : string)
    : list string * list path * string :=
  match files with
  | [] => (toCommitAsList, dirs, written)
  | file :: rest =>
      match lookup file st with
      | None =>
          (* print("ERROR: ... doesn't exist!"); continue *)
          add_scan st rest toCommitAsList dirs written
      | Some (Dir _) =>
          add_scan st rest toCommitAsList (dirs ++ [file]) written
      | Some (File _) =>
          if mem (render file) toCommitAsList
          then add_scan st rest toCommitAsList dirs written
          else add_scan st rest (toCommitAsList ++ [render file]) dirs
                 (written ++ render file ++ String LF EmptyString)
      end
  end.

(** The second loop of [add]: [rec] is the recursive call. *)
Fixpoint add_subdirs (rec : list path -> node -> option (outcome unit))
    (dirs : list path) (st : node) : option (outcome unit) :=
  match dirs with
  | [] => Some (Done tt st)
  | dir :: rest =>
      match listdir dir st with
      | Raise e st' => Some (Raise e st')
      | Done filesInSubdir st' =>
          match rec (map (fun f => dir ++ [f]) filesInSubdir) st' with
          | Some (Done _ st'') => add_subdirs rec rest st''
          | other => other
          end
      end
  end.

(** [add], with a bound on the depth of the recursion; [None] when the bound
    is reached. *)
Fixpoint add_fuel (fuel : nat) (files : list path) (st : node)
    : option (outcome unit) :=
  match fuel with
  | O => None
  | S fuel' =>
      match toCommitList st with
      | Raise e st' => Some (Raise e st')
      | Done toCommitAsList st0 =>
          let '(_, dirs, written) := add_scan st0 files toCommitAsList [] "" in
          match append_file to_commit_path written st0 with
          | Raise e st' => Some (Raise e st')
          | Done _ st1 => add_subdirs (add_fuel fuel') dirs st1
          end
      end
  end.

Fixpoint height (n : node) : nat :=
  match n with
  | File _ => 0
  | Dir ents => S (fold_right (fun e acc => Nat.max (height (snd e)) acc) 0 ents)
  end.

(** [add(repoPath, files)]: the recursion follows the directories of the
    tree, so its depth is bounded by the height of the tree. *)
Definition add (files : list path) : M unit :=
  fun st =>
    match add_fuel (S (height st)) files st with
    | Some o => o
    | None => Raise OSError st
    end.

(** The loop of [generateDirTree]. *)
Fixpoint copy_files (dstPath : path) (files : list string) : M unit :=
  match files with
  | [] => ret tt
  | f :: rest =>
      let srcPath := resolve [] f in
      match resolve dstPath f with
      | None => raise OSError
      | Some newFilePath =>
          (fun st =>
             if negb (isdir (dirname newFilePath) st)
             then makedirs newFilePath st
             else Done tt st) ;;;
          copy2 srcPath newFilePath ;;;
          copy_files dstPath rest
      end
  end.

Definition generateDirTree (files : list string) : M unit :=
  h <- lastCommitHash ;;
  if negb (nonempty h) then raise AssertionError
  else
    h' <- lastCommitHash ;;
    copy_files (commit_dir_path h') files.

Definition commit (newCommitHash : string) : M unit :=
  let newPath := commit_path newCommitHash in
  let commitDir := commit_dir_path newCommitHash in
  let tracked := tracked_path newCommitHash in
  let prev := prev_path newCommitHash in
  fun st =>
    if path_exists newPath st then Raise AssertionError st
    else
      (mkdir newPath ;;;
       mkdir commitDir ;;;
       mknod tracked ;;;
       mknod prev ;;;
       lastCommitName <- lastCommitHash ;;
       (if nonempty lastCommitName then write_file prev lastCommitName
        else ret tt) ;;;
       write_file head_path newCommitHash ;;;
       text <- read_text to_commit_path ;;
       write_file tracked text ;;;
       files <- toCommitList ;;
       generateDirTree files) st.

Definition wasCommited (file : string) : M bool :=
  comm <- lastCommitHash ;;
  if negb (nonempty comm) then ret false
  else
    text <- read_text (tracked_path comm) ;;
    ret (mem file (splitlines text)).

Definition wasAdded (file : string) : M bool :=
  text <- read_text to_commit_path ;;
  ret (mem file (splitlines text)).

(** The three states [status] tells apart. *)
Inductive tracking : Type := untracked | staged | committed.

(** The decision taken in the body of the loop of [status]. *)
Definition classify (f : string) : M tracking :=
  c <- wasCommited f ;;
  if negb c then
    a <- wasAdded f ;;
    if negb a then ret untracked else ret staged
  else ret committed.

(** What [status] prints for a file. *)
Definition report (f : string) (t : tracking) : list string :=
  match t with
  | untracked => [(f ++ " (new file)")%string]
  | staged => [(f ++ " (added and waiting to commit)")%string]
  | committed => []
  end.

Fixpoint status_loop (files : list string) : M (list string) :=
  match files with
  | [] => ret []
  | f :: rest =>
      t <- classify f ;;
      out <- status_loop rest ;;
      ret (report f t ++ out)
  end.

(** [status(repoPath)]: the value is the text printed, line by line. *)
Definition status : M (list string) :=
  fun st => status_loop (changePathsRef (allFiles [] st)) st.


(** ** Vocabulary of the statements *)

(** Induction over a tree: the property of a directory follows from the
    property of each of its entries. *)
Section NodeInduction.
Variable P : node -> Prop.
Hypothesis P_File : forall data, P (File data).
Hypothesis P_Dir :
  forall ents, Forall (fun e => P (snd e)) ents -> P (Dir ents).

Fixpoint node_ind (n : node) : P n :=
  match n with
  | File data => P_File data
  | Dir ents =>
      P_Dir
        ((fix all (l : entries) : Forall (fun e => P (snd e)) l :=
            match l with
            | [] => Forall_nil _
            | (k, m) :: l' =>
                @Forall_cons _ (fun e => P (snd e)) (k, m) l'
                  (node_ind m) (all l')
            end) ents)
  end.
End NodeInduction.

(** Two paths are comparable when one of them leads to the other: a write
    at [p] is seen exactly at the paths comparable with [p]. *)
Fixpoint comparable (p q : path) : bool :=
  match p, q with
  | a :: p', b :: q' => String.eqb a b && comparable p' q'
  | _, _ => true
  end.

(** The tree with the contents of all files forgotten. *)
Fixpoint shape (n : node) : node :=
  match n with
  | File _ => File EmptyString
  | Dir ents => Dir (map (fun e => (fst e, shape (snd e))) ents)
  end.

(** The contents of the regular file at [p]. *)
Definition content (p : path) (st : node) : option string :=
  match lookup p st with
  | Some (File data) => Some data
  | _ => None
  end.

(** The tracked list of the commit [h], read the way [wasCommited] reads
    it. *)
Definition trackedList (h : string) : M (list string) :=
  text <- read_text (tracked_path h) ;;
  ret (splitlines text).

(** Two trees with the same marker directory: they may differ in every file
    and directory of the working tree. *)
Definition same_repository (st st' : node) : Prop :=
  forall q, lookup (REPO_DIR :: q) st' = lookup (REPO_DIR :: q) st.

(** The class [status] gives a file, from the three lists it consults. *)
Definition class_of (h : string) (tracked added : list string) (f : string)
    : tracking :=
  if nonempty h && mem f tracked then committed
  else if mem f added then staged
  else untracked.

Definition visible (p : path) : bool := forallb (fun c => negb (hidden c)) p.

(** ** A small repository, used to run the functions

    The working tree holds [b.txt], [c.txt] and the directory [sub] with
    [a.txt] and the hidden [.hid]. *)
Module Example.

Definition work : node :=
  Dir [("sub", Dir [("a.txt", File "x"); (".hid", File "h")]);
       ("b.txt", File "y");
       ("c.txt", File "z")].

Definition id1 : string := "0123456789abcdef0123456789abcdef".
Definition id2 : string := "fedcba9876543210fedcba9876543210".

(** [simplegit init] *)
Definition initialised : node := final (init work).

(** [simplegit add b.txt] *)
Definition b_added : node := final (add [["b.txt"]] initialised).

(** [simplegit commit] *)
Definition b_committed : node := final (commit id1 b_added).

(** [simplegit add c.txt] after the commit *)
Definition c_added : node := final (add [["c.txt"]] b_committed).

End Example.

(** The same outcome value, carried to another tree. *)
Definition classify_at (st' : node) (o : outcome tracking) : outcome tracking :=
  match o with
  | Done t _ => Done t st'
  | Raise e _ => Raise e st'
  end.

(** [commit] in two parts: the record of the new commit and the move of
    [HEAD] (lines 148 to 166 of the source), then the snapshot (line 169). *)
Definition commit_record (newCommitHash : string) : M unit :=
  let newPath := commit_path newCommitHash in
  let commitDir := commit_dir_path newCommitHash in
  let tracked := tracked_path newCommitHash in
  let prev := prev_path newCommitHash in
  mkdir newPath ;;;
  mkdir commitDir ;;;
  mknod tracked ;;;
  mknod prev ;;;
  lastCommitName <- lastCommitHash ;;
  (if nonempty lastCommitName then write_file prev lastCommitName
   else ret tt) ;;;
  write_file head_path newCommitHash ;;;
  text <- read_text to_commit_path ;;
  write_file tracked text.

Definition commit_snapshot : M unit :=
  files <- toCommitList ;;
  generateDirTree files.

(** An initialised repository: the marker directory with its two files. *)
Definition initialised (st : node) : Prop :=
  (exists hd, content head_path st = Some hd) /\
  (exists tc, content to_commit_path st = Some tc).

(** [uuid.uuid4().hex]: 32 hexadecimal digits, in lower case. *)
Definition is_hex (c : ascii) : bool :=
  let n := nat_of_ascii c in
  ((48 <=? n)%nat && (n <=? 57)%nat) || ((97 <=? n)%nat && (n <=? 102)%nat).

Definition uuid4_hex (s : string) : bool :=
  (String.length s =? 32)%nat && string_forallb is_hex s.

(** A call keeps a file when it leaves its contents as they were, whether it
    returns or raises. *)
Definition keeps {A} (q : path) (m : M A) : Prop :=
  forall st d, content q st = Some d -> content q (final (m st)) = Some d.

(** [q] lies at or below [p]. *)
Definition below (p q : path) : Prop := exists r, q = p ++ r.

Module Example2.
(** [Example.b_added] after the user deleted [b.txt]. *)
Definition b_lost : node :=
  Dir [("sub", Dir [("a.txt", File "x"); (".hid", File "h")]);
       ("c.txt", File "z");
       (".simplegit",
         Dir [("HEAD", File ""); ("TO_COMMIT", File (unlines ["b.txt"]))])].

(** A second commit, after [Example.c_added]. *)
Definition second : node := final (commit Example.id2 Example.c_added).
End Example2.

Definition shape_entry (e : string * node) : string * node :=
  (fst e, shape (snd e)).

(** No name of the tree holds a line boundary. *)
Fixpoint clean_tree (n : node) : bool :=
  match n with
  | File _ => true
  | Dir ents => forallb (fun e => clean (fst e) && clean_tree (snd e)) ents
  end.

(** The staging file holds the lines [ls], each closed by LF. *)
Definition staging (st : node) (ls : list string) : Prop :=
  content to_commit_path st = Some (unlines ls) /\ forallb clean ls = true.

(** The outcome [o] of staging [files] in a tree of the shape of [st0], where
    the staging list was [ls]: the call returned, the tree changed in the
    contents of files only, and the staging list now holds the lines it held
    and the text of every regular file found at or below one of [files]. *)
Definition staged_by (st0 : node) (ls : list string) (files : list path)
    (o : option (outcome unit)) : Prop :=
  exists st' ls',
    o = Some (Done tt st') /\
    staging st' ls' /\
    shape st' = shape st0 /\
    (forall line,
        In line ls' <->
        In line ls \/
        exists f rel, In f files /\ isfile (f ++ rel) st0 = true /\
                      line = render (f ++ rel)).

Module Example3.
(** A directory [d] with a visible file, a hidden file and a hidden
    directory. *)
Definition work : node :=
  Dir [("d", Dir [("x.txt", File "1");
                  (".env", File "2");
                  (".cache", Dir [("obj", File "3")])])].

Definition initialised : node := final (init work).
End Example3.

(** A line that names a path of the tree: [normpath(join(repoPath, line))]
    lies at or below [repoPath]. *)
Definition in_tree (line : string) : Prop :=
  exists s, resolve [] line = Some s.

(** Every line of the staging file names a path of the tree.  This is the
    case when the file was written by [add] on paths below [repoPath] whose
    names hold no line boundary. *)
Definition staged_in_tree (st : node) : Prop :=
  forall tc line,
    content to_commit_path st = Some tc ->
    In line (splitlines (universal_newlines tc)) ->
    in_tree line.

(** ** The history of a repository *)

(** Following the [PREV_COMMIT] links from the identifier [id]: every commit
    met has its record in the marker directory, and [n] commits are met
    before the empty predecessor. *)
Inductive chain (st : node) : string -> nat -> Prop :=
| chain_end : chain st EmptyString 0
| chain_link (id prev : string) (n : nat) :
    nonempty id = true ->
    content (prev_path id) st = Some prev ->
    chain st prev n ->
    chain st id (S n).

(** The same walk as a function; [None] when a record is missing or the
    walk is longer than [fuel]. *)
Fixpoint follow (fuel : nat) (st : node) (id : string) : option nat :=
  if nonempty id then
    match fuel with
    | O => None
    | S fuel' =>
        match content (prev_path id) st with
        | Some prev => option_map S (follow fuel' st prev)
        | None => None
        end
    end
  else Some 0.

(** The trees a repository goes through while the staged lines name paths
    of the tree, with the number of commits created so far.  A repository
    starts with [init]; then come calls of [add] on paths below [repoPath],
    calls of [commit], each with a new [uuid4().hex] and run when every line
    of the staging file names a path of the tree, and changes of the working
    tree by the user, which leave the marker directory alone.  A call of
    [commit] creates a commit when it passes the assertion that the
    identifier is new, whether or not its snapshot step returns; a call
    refused by the assertion creates none.  The runs in which a path outside
    [repoPath] is staged are not among these. *)
Inductive reachable : node -> nat -> Prop :=
| reach_init (work st : node) :
    init work = Done tt st -> reachable st 0
| reach_add (st : node) (n : nat) (files : list path) :
    reachable st n -> reachable (final (add files st)) n
| reach_commit (st : node) (n : nat) (h : string) :
    reachable st n -> uuid4_hex h = true ->
    path_exists (commit_path h) st = false ->
    staged_in_tree st ->
    reachable (final (commit h st)) (S n)
| reach_commit_refused (st : node) (n : nat) (h : string) :
    reachable st n -> uuid4_hex h = true ->
    path_exists (commit_path h) st = true ->
    reachable (final (commit h st)) n
| reach_edit (st st' : node) (n : nat) :
    reachable st n -> same_repository st st' -> reachable st' n.

(** The records of the commits [ids], newest first, each naming the next. *)
Fixpoint linked (st : node) (ids : list string) : Prop :=
  match ids with
  | [] => True
  | id :: rest =>
      content (prev_path id) st = Some (hd EmptyString rest) /\ linked st rest
  end.

(** What holds of every reachable tree: [HEAD] names the newest of the
    commits created, and their records are linked. *)
Definition history (st : node) (ids : list string) : Prop :=
  content head_path st = Some (hd EmptyString ids) /\
  (exists tc, content to_commit_path st = Some tc) /\
  forallb uuid4_hex ids = true /\
  linked st ids.

(** ** The path functions of [simplegit.py]

    [nearestRepo] and [changePathsRef] work on absolute paths.  An absolute,
    normalised path is the list of its components from the root [/] of the
    file system; where these functions are used, the tree is the whole file
    system and the repository is the directory at [repoPath] in it. *)

(** A string without [/]. *)
Definition slashless (s : string) : bool :=
  string_forallb (fun c => negb (is_slash c)) s.

(** A name an entry of a directory can bear: not empty, not [.] or [..],
    without [/]. *)
Definition valid_name (s : string) : bool :=
  nonempty s && negb (String.eqb s ".") && negb (String.eqb s "..")
  && string_forallb (fun c => negb (is_slash c)) s.

(** Every entry of the tree bears a valid name. *)
Fixpoint valid_tree (n : node) : bool :=
  match n with
  | File _ => true
  | Dir ents => forallb (fun e => valid_name (fst e) && valid_tree (snd e)) ents
  end.

(** [normpath] of an absolute path: as [normalize], but [..] at the root
    stays at the root. *)
Fixpoint normalize_root (acc : list string) (comps : list string) : path :=
  match comps with
  | [] => rev acc
  | c :: cs =>
      if String.eqb c "" || String.eqb c "." then normalize_root acc cs
      else if String.eqb c ".." then normalize_root (tl acc) cs
      else normalize_root (c :: acc) cs
  end.

(** The components of [normpath(join(base, f))] for an absolute [base]:
    [join] forgets [base] when [f] is absolute. *)
Definition abs_join (base : path) (f : string) : path :=
  if is_absolute f then normalize_root [] (split_slash f)
  else normalize_root (rev base) (split_slash f).

(** [os.path.relpath(p, start)] on the components of two absolute paths: one
    [..] for each component of [start] after the common prefix, then what is
    left of [p]. *)
Fixpoint relpath (p start : path) : path :=
  match p, start with
  | a :: p', b :: start' =>
      if String.eqb a b then relpath p' start'
      else repeat ".." (length start) ++ p
  | _, _ => repeat ".." (length start) ++ p
  end.

(** The text of an absolute path. *)
Definition render_abs (p : path) : string :=
  ("/" ++ String.concat "/" p)%string.

(** [changePathsRef(initAbsolutePath, destAbsolutePath, files)]. *)
Definition changePathsRef_abs (initAbsolutePath destAbsolutePath : path)
    (files : list string) : list string :=
  let fileAbsolutePaths := map (abs_join initAbsolutePath) files in
  map (fun f => render (relpath f destAbsolutePath)) fileAbsolutePaths.

(** The loop of [nearestRepo]; [up] holds the components of [tmpPath], the
    last one first. *)
Fixpoint nearest_up (up : list string) (fs : node) : option path :=
  if isdir (rev up ++ [REPO_DIR]) fs then Some (rev up)
  else match up with
       | [] => None
       | _ :: up' => nearest_up up' fs
       end.

(** [nearestRepo(absolutePath)] in the file system [fs]. *)
Definition nearestRepo (absolutePath : path) (fs : node) : option path :=
  nearest_up (rev absolutePath) fs.

(** [p] is [q] followed by more components. *)
Definition prefix_of (q p : path) : Prop := exists rest, p = q ++ rest.

(** No directory of the tree holds a name twice. *)
Fixpoint unique_names (n : node) : Prop :=
  match n with
  | File _ => True
  | Dir ents =>
      NoDup (map fst ents) /\
      (fix all (l : entries) : Prop :=
         match l with
         | [] => True
         | e :: l' => unique_names (snd e) /\ all l'
         end) ents
  end.

(** ** The places a call writes to *)

(** [q] is comparable with none of [roots]: it lies neither below nor above
    any of them. *)
Definition outside (roots : list path) (q : path) : bool :=
  forallb (fun r => negb (comparable r q)) roots.

(** [p] lies below or above one of [roots]. *)
Definition near (roots : list path) (p : path) : Prop :=
  exists R, In R roots /\ comparable R p = true.

(** A call is confined to [roots] when, whether it returns or raises, the
    tree is as it was at every path outside [roots]: the same file with the
    same contents, the same directory with the same entries, or nothing. *)
Definition confined {A} (roots : list path) (m : M A) : Prop :=
  forall st q, outside roots q = true -> lookup q (final (m st)) = lookup q st.

(** [n'] is [n] with the marker directory replaced: the top directory has
    the same entries in the same order, but for the contents of the entry
    [.simplegit], which is added after the others when it was missing. *)
Definition marker_step (n n' : node) : Prop :=
  n' = n \/
  exists ents x, n = Dir ents /\ n' = Dir (set_entry REPO_DIR x ents).

(** A call that writes in the marker directory only. *)
Definition marker_only {A} (m : M A) : Prop :=
  forall st, marker_step st (final (m st)).

(** ** The functions of [simplegit.py] on the whole file system

    In this module the tree is the file system from its root [/], and
    [repoPath] is the absolute, normalised path of a directory in it.  A
    path handed to [add] and a line of the staging file are texts, joined to
    [repoPath] by [normpath(join(repoPath, text))] as the source joins them,
    so a text that leads outside [repoPath] names the file it names on the
    disk. *)
Module Whole.

(** [normpath] on the components of a relative path: a [..] that has
    nothing to remove stays. *)
Fixpoint normalize_rel (acc : list string) (comps : list string)
    : list string :=
  match comps with
  | [] => rev acc
  | c :: cs =>
      if String.eqb c "" || String.eqb c "." then normalize_rel acc cs
      else if String.eqb c ".." then
        match acc with
        | [] => normalize_rel [c] cs
        | a :: acc' =>
            if String.eqb a ".." then normalize_rel (c :: acc) cs
            else normalize_rel acc' cs
        end
      else normalize_rel (c :: acc) cs
  end.

(** The slashes [normpath] puts in front of an absolute path: two when the
    text starts with exactly two, else one. *)
Definition initial_slashes (s : string) : string :=
  match s with
  | String a (String b rest) =>
      if is_slash a && is_slash b && negb (is_absolute rest) then "//"
      else "/"
  | _ => "/"
  end.

(** [os.path.normpath] as a function on texts. *)
Definition normpath (s : string) : string :=
  if is_absolute s
  then (initial_slashes s
        ++ String.concat "/" (normalize_root [] (split_slash s)))%string
  else render (normalize_rel [] (split_slash s)).

Fixpoint ends_with_slash (s : string) : bool :=
  match s with
  | EmptyString => false
  | String c EmptyString => is_slash c
  | String _ s' => ends_with_slash s'
  end.

(** [os.path.join(a, b)]. *)
Definition join (a b : string) : string :=
  if is_absolute b then b
  else if negb (nonempty a) || ends_with_slash a then (a ++ b)%string
  else (a ++ "/" ++ b)%string.

Definition marker (repoPath : path) : path := repoPath ++ [REPO_DIR].

Definition lastCommitHash (repoPath : path) : M string :=
  text <- read_text (marker repoPath ++ [HEAD]) ;;
  ret (strip (readline text)).

Definition init (path : path) : M unit :=
  fun st =>
    if path_exists (marker path) st then Raise SystemExit st
    else (mkdir (marker path) ;;;
          mknod (marker path ++ [HEAD]) ;;;
          mknod (marker path ++ [TO_COMMIT])) st.

Definition toCommitList (repoPath : path) : M (list string) :=
  text <- read_text (marker repoPath ++ [TO_COMMIT]) ;;
  ret (splitlines text).

(** The first loop of [add]; [files], [dirs] and the lines written are the
    texts the source handles. *)
Fixpoint add_scan (repoPath : path) (st : node) (files : list string)
    (toCommitAsList : list string) (dirs : list string) (written : string)
    : list string * list string * string :=
  match files with
  | [] => (toCommitAsList, dirs, written)
  | file :: rest =>
      let filePath := abs_join repoPath file in
      match lookup filePath st with
      | None => add_scan repoPath st rest toCommitAsList dirs written
      | Some (Dir _) =>
          add_scan repoPath st rest toCommitAsList (dirs ++ [file]) written
      | Some (File _) =>
          if mem file toCommitAsList
          then add_scan repoPath st rest toCommitAsList dirs written
          else add_scan repoPath st rest (toCommitAsList ++ [file]) dirs
                 (written ++ file ++ String LF EmptyString)
      end
  end.

(** The second loop of [add]: [rec] is the recursive call. *)
Fixpoint add_subdirs (repoPath : path)
    (rec : list string -> node -> option (outcome unit))
    (dirs : list string) (st : node) : option (outcome unit) :=
  match dirs with
  | [] => Some (Done tt st)
  | dir :: rest =>
      match listdir (abs_join repoPath dir) st with
      | Raise e st' => Some (Raise e st')
      | Done filesInSubdir st' =>
          match rec (map (fun f => normpath (join dir f)) filesInSubdir) st'
          with
          | Some (Done _ st'') => add_subdirs repoPath rec rest st''
          | other => other
          end
      end
  end.

(** [add(repoPath, files)] with a bound on the depth of the recursion;
    [None] when the bound is reached. *)
Fixpoint add_fuel (fuel : nat) (repoPath : path) (files : list string)
    (st : node) : option (outcome unit) :=
  match fuel with
  | O => None
  | S fuel' =>
      match toCommitList repoPath st with
      | Raise e st' => Some (Raise e st')
      | Done toCommitAsList st0 =>
          let '(_, dirs, written) :=
            add_scan repoPath st0 files toCommitAsList [] "" in
          match append_file (marker repoPath ++ [TO_COMMIT]) written st0 with
          | Raise e st' => Some (Raise e st')
          | Done _ st1 =>
              add_subdirs repoPath (add_fuel fuel' repoPath) dirs st1
          end
      end
  end.

(** [add(repoPath, files)]: the recursion follows the directories of the
    file system, so the height of the tree bounds its depth. *)
Definition add (repoPath : path) (files : list string) (st : node)
    : option (outcome unit) :=
  add_fuel (S (height st)) repoPath files st.

(** The loop of [generateDirTree]: both paths are computed from the line as
    the source computes them. *)
Fixpoint copy_files (repoPath dstPath : path) (files : list string)
    : M unit :=
  match files with
  | [] => ret tt
  | f :: rest =>
      let srcPath := abs_join repoPath f in
      let newFilePath := abs_join dstPath f in
      (fun st =>
         if negb (isdir (dirname newFilePath) st)
         then makedirs newFilePath st
         else Done tt st) ;;;
      copy2 (Some srcPath) newFilePath ;;;
      copy_files repoPath dstPath rest
  end.

Definition generateDirTree (repoPath : path) (files : list string)
    : M unit :=
  h <- lastCommitHash repoPath ;;
  if negb (nonempty h) then raise AssertionError
  else
    h' <- lastCommitHash repoPath ;;
    copy_files repoPath (abs_join (abs_join (marker repoPath) h') COMMIT_DIR)
      files.

Definition commit (repoPath : path) (newCommitHash : string) : M unit :=
  let newPath := marker repoPath ++ [newCommitHash] in
  let toCommit := marker repoPath ++ [TO_COMMIT] in
  let commitDir := newPath ++ [COMMIT_DIR] in
  let tracked := newPath ++ [TRACKED_LIST] in
  let prev := newPath ++ [PREV_COMMIT] in
  fun st =>
    if path_exists newPath st then Raise AssertionError st
    else
      (mkdir newPath ;;;
       mkdir commitDir ;;;
       mknod tracked ;;;
       mknod prev ;;;
       lastCommitName <- lastCommitHash repoPath ;;
       (if nonempty lastCommitName then write_file prev lastCommitName
        else ret tt) ;;;
       write_file (marker repoPath ++ [HEAD]) newCommitHash ;;;
       text <- read_text toCommit ;;
       write_file tracked text ;;;
       files <- toCommitList repoPath ;;
       generateDirTree repoPath files) st.

(** [commit] in two parts, as [commit_record] and [commit_snapshot] above:
    lines 148 to 166 of the source, then line 169. *)
Definition commit_record (repoPath : path) (newCommitHash : string)
    : M unit :=
  let newPath := marker repoPath ++ [newCommitHash] in
  let commitDir := newPath ++ [COMMIT_DIR] in
  let tracked := newPath ++ [TRACKED_LIST] in
  let prev := newPath ++ [PREV_COMMIT] in
  mkdir newPath ;;;
  mkdir commitDir ;;;
  mknod tracked ;;;
  mknod prev ;;;
  lastCommitName <- lastCommitHash repoPath ;;
  (if nonempty lastCommitName then write_file prev lastCommitName
   else ret tt) ;;;
  write_file (marker repoPath ++ [HEAD]) newCommitHash ;;;
  text <- read_text (marker repoPath ++ [TO_COMMIT]) ;;
  write_file tracked text.

Definition commit_snapshot (repoPath : path) : M unit :=
  files <- toCommitList repoPath ;;
  generateDirTree repoPath files.

(** The file system [fs] with the directory at [repoPath] replaced by the
    tree [st]. *)
Definition graft (repoPath : path) (st fs : node) : node :=
  match put repoPath st fs with
  | Some fs' => fs'
  | None => fs
  end.

(** The outcome of a call on the tree at [repoPath], seen on the file
    system [fs] around it. *)
Definition lift {A} (repoPath : path) (fs : node) (o : outcome A)
    : outcome A :=
  match o with
  | Done a st => Done a (graft repoPath st fs)
  | Raise e st => Raise e (graft repoPath st fs)
  end.

(** A call on the file system does what a call on the tree at [repoPath]
    does, and leaves the rest of the file system as it is. *)
Definition refines {A} (repoPath : path) (onDisk inTree : M A) : Prop :=
  forall fs st,
    lookup repoPath fs = Some st ->
    onDisk fs = lift repoPath fs (inTree st).

(** A disk with the repository directory [/home/u/proj] and, outside it,
    three files of the user. *)
Definition disk : node :=
  Dir [("home",
        Dir [("HEAD", File "stale");
             ("TO_COMMIT", File (unlines ["x"]));
             ("u", Dir [("PREV_COMMIT", File "0000");
                        ("proj", Dir [("b.txt", File "y")])])])].

Definition proj : path := ["home"; "u"; "proj"].

(** A disk whose directory [/home/u/proj] is the repository of [Example]
    with [b.txt] staged. *)
Definition staged_disk : node :=
  Dir [("home", Dir [("u", Dir [("proj", Example.b_added)])])].

(** An initialised repository with a file and a directory, and the disk
    that holds it at [/home/u/proj]. *)
Definition nested : node :=
  Dir [("b.txt", File "y");
       ("sub", Dir [("a.txt", File "x"); (".env", File "k")]);
       (REPO_DIR, Dir [(HEAD, File ""); (TO_COMMIT, File "")])].

Definition nested_disk : node :=
  Dir [("home", Dir [("u", Dir [("proj", nested)])])].

End Whole.

(** * Properties of the text functions *)

Unset Implicit Arguments.

Section Text.

Lemma sapp_nil_r (s : string) : (s ++ "")%string = s.
Proof. induction s as [|c s IH]; simpl; [reflexivity | now rewrite IH]. Qed.

Lemma sapp_assoc (a b c : string) :
  ((a ++ b) ++ c)%string = (a ++ (b ++ c))%string.
Proof. induction a as [|x a IH]; simpl; [reflexivity | now rewrite IH]. Qed.

Lemma forallb_sapp p (a b : string) :
  string_forallb p (a ++ b) = string_forallb p a && string_forallb p b.
Proof.
  induction a as [|x a IH]; simpl; [reflexivity|].
  now rewrite IH, andb_assoc.
Qed.

Lemma forallb_weaken (p q : ascii -> bool) (s : string) :
  (forall c, p c = true -> q c = true) ->
  string_forallb p s = true -> string_forallb q s = true.
Proof.
  intros Hpq. induction s as [|c s IH]; simpl; [reflexivity|].
  intros H. apply andb_true_iff in H as [Hc Hs].
  now rewrite (Hpq c Hc), (IH Hs).
Qed.

Lemma linebreak_not_LF c : is_linebreak c = false -> is_LF c = false.
Proof.
  unfold is_LF. destruct (Ascii.eqb_spec c LF) as [->|]; [|reflexivity].
  vm_compute. intros H; exact H.
Qed.

Lemma linebreak_not_CR c : is_linebreak c = false -> is_CR c = false.
Proof.
  unfold is_CR. destruct (Ascii.eqb_spec c CR) as [->|]; [|reflexivity].
  vm_compute. intros H; exact H.
Qed.

Lemma space_not_linebreak c : is_space c = false -> is_linebreak c = false.
Proof.
  unfold is_space, is_linebreak. cbv zeta.
  generalize (nat_of_ascii c). intros n.
  rewrite !orb_false_iff, !andb_false_iff, !Nat.leb_gt, !Nat.eqb_neq. lia.
Qed.

(** One clean line in front of a text is the first line [splitlines] cuts. *)
Lemma splitlines_line (l rest : string) :
  clean l = true ->
  splitlines (l ++ String LF rest) = l :: splitlines rest.
Proof.
  unfold splitlines, clean. induction l as [|c l IH]; simpl; intros H.
  - reflexivity.
  - apply andb_true_iff in H as [Hc Hl]. apply negb_true_iff in Hc.
    rewrite (linebreak_not_LF _ Hc), Hc. simpl.
    now rewrite (IH Hl).
Qed.

Lemma splitlines_unlines (ls : list string) :
  forallb clean ls = true -> splitlines (unlines ls) = ls.
Proof.
  induction ls as [|l ls IH]; simpl; intros H; [reflexivity|].
  apply andb_true_iff in H as [Hl Hls].
  now rewrite (splitlines_line _ _ Hl), (IH Hls).
Qed.

Lemma universal_newlines_line (l rest : string) :
  clean l = true ->
  universal_newlines (l ++ String LF rest)
  = (l ++ String LF (universal_newlines rest))%string.
Proof.
  unfold clean. induction l as [|c l IH]; simpl; intros H.
  - reflexivity.
  - apply andb_true_iff in H as [Hc Hl]. apply negb_true_iff in Hc.
    now rewrite (linebreak_not_CR _ Hc), (IH Hl).
Qed.

Lemma universal_newlines_unlines (ls : list string) :
  forallb clean ls = true -> universal_newlines (unlines ls) = unlines ls.
Proof.
  induction ls as [|l ls IH]; simpl; intros H; [reflexivity|].
  apply andb_true_iff in H as [Hl Hls].
  now rewrite (universal_newlines_line _ _ Hl), (IH Hls).
Qed.

Lemma universal_newlines_clean (s : string) :
  clean s = true -> universal_newlines s = s.
Proof.
  unfold clean. induction s as [|c s IH]; simpl; intros H; [reflexivity|].
  apply andb_true_iff in H as [Hc Hs]. apply negb_true_iff in Hc.
  now rewrite (linebreak_not_CR _ Hc), (IH Hs).
Qed.

(** Text read in text mode holds no CR, and reading it again changes
    nothing. *)
Lemma universal_newlines_no_CR (s : string) :
  string_forallb (fun c => negb (is_CR c)) (universal_newlines s) = true /\
  forall c,
    string_forallb (fun c => negb (is_CR c))
      (universal_newlines (String c s)) = true.
Proof.
  induction s as [|c2 s IH].
  - split; [reflexivity|]. intros c. simpl.
    destruct (is_CR c) eqn:E; simpl; [reflexivity | now rewrite E].
  - destruct IH as [IH1 IH2]. split; [exact (IH2 c2)|].
    intros c. cbn [universal_newlines].
    destruct (is_CR c) eqn:E.
    + cbn [string_forallb]. change (negb (is_CR LF)) with true. simpl andb.
      destruct (is_LF c2); [exact IH1 | exact (IH2 c2)].
    + cbn [string_forallb]. rewrite E. simpl andb. exact (IH2 c2).
Qed.

Lemma universal_newlines_fixed (s : string) :
  string_forallb (fun c => negb (is_CR c)) s = true ->
  universal_newlines s = s.
Proof.
  induction s as [|c s IH]; simpl; intros H; [reflexivity|].
  apply andb_true_iff in H as [Hc Hs]. apply negb_true_iff in Hc.
  now rewrite Hc, (IH Hs).
Qed.

Lemma universal_newlines_twice (s : string) :
  universal_newlines (universal_newlines s) = universal_newlines s.
Proof.
  apply universal_newlines_fixed. exact (proj1 (universal_newlines_no_CR s)).
Qed.

Lemma unlines_app (a b : list string) :
  unlines (a ++ b) = (unlines a ++ unlines b)%string.
Proof.
  induction a as [|l a IH]; simpl; [reflexivity|].
  rewrite IH, sapp_assoc. reflexivity.
Qed.


Lemma readline_clean (s : string) : clean s = true -> readline s = s.
Proof.
  unfold clean. induction s as [|c s IH]; simpl; intros H; [reflexivity|].
  apply andb_true_iff in H as [Hc Hs]. apply negb_true_iff in Hc.
  now rewrite (linebreak_not_LF _ Hc), (IH Hs).
Qed.

Lemma rstrip_spaceless (s : string) :
  string_forallb (fun c => negb (is_space c)) s = true -> rstrip s = s.
Proof.
  induction s as [|c s IH]; simpl; intros H; [reflexivity|].
  apply andb_true_iff in H as [Hc Hs]. apply negb_true_iff in Hc.
  rewrite (IH Hs). destruct s; [now rewrite Hc | reflexivity].
Qed.

Lemma strip_spaceless (s : string) :
  string_forallb (fun c => negb (is_space c)) s = true -> strip s = s.
Proof.
  intros H. unfold strip.
  assert (lstrip s = s) as ->.
  { destruct s as [|c s]; [reflexivity|]. simpl in *.
    apply andb_true_iff in H as [Hc _]. apply negb_true_iff in Hc.
    now rewrite Hc. }
  now apply rstrip_spaceless.
Qed.

Lemma spaceless_clean (s : string) :
  string_forallb (fun c => negb (is_space c)) s = true -> clean s = true.
Proof.
  apply forallb_weaken. intros c Hc.
  apply negb_true_iff in Hc. apply negb_true_iff.
  now apply space_not_linebreak.
Qed.

(** A token without white space is read back from a file as it was
    written: [open(...).readline().strip()] returns it. *)
Lemma read_token (s : string) :
  string_forallb (fun c => negb (is_space c)) s = true ->
  strip (readline (universal_newlines s)) = s.
Proof.
  intros H. pose proof (spaceless_clean _ H) as Hc.
  rewrite (universal_newlines_clean _ Hc), (readline_clean _ Hc).
  now apply strip_spaceless.
Qed.

Lemma mem_In (x : string) (xs : list string) : mem x xs = true <-> In x xs.
Proof.
  unfold mem. rewrite existsb_exists. split.
  - intros [y [Hy E]]. apply String.eqb_eq in E. now subst.
  - intros H. exists x. split; [assumption | apply String.eqb_refl].
Qed.

Lemma mem_false (x : string) (xs : list string) :
  mem x xs = false <-> ~ In x xs.
Proof.
  rewrite <- mem_In. destruct (mem x xs); split; intros; congruence.
Qed.

End Text.

(** * Properties of the directory tree *)

Section Tree.

Lemma assoc_set_eq c v ents : assoc c (set_entry c v ents) = Some v.
Proof.
  induction ents as [|[k w] ents IH]; simpl.
  - now rewrite String.eqb_refl.
  - destruct (String.eqb k c) eqn:E; simpl; rewrite E; [reflexivity | exact IH].
Qed.

Lemma assoc_set_ne c d v ents :
  String.eqb c d = false -> assoc d (set_entry c v ents) = assoc d ents.
Proof.
  intros Hcd. induction ents as [|[k w] ents IH]; simpl.
  - now rewrite Hcd.
  - destruct (String.eqb k c) eqn:E; simpl.
    + apply String.eqb_eq in E. subst k. now rewrite Hcd.
    + now rewrite IH.
Qed.

Lemma set_entry_same c v ents :
  assoc c ents = Some v -> set_entry c v ents = ents.
Proof.
  induction ents as [|[k w] ents IH]; simpl; [discriminate|].
  destruct (String.eqb k c) eqn:E; intros H.
  - now inversion H.
  - now rewrite (IH H).
Qed.

Lemma put_cons c p v ents :
  put (c :: p) v (Dir ents) =
  match p with
  | [] => Some (Dir (set_entry c v ents))
  | _ => match assoc c ents with
         | Some m => match put p v m with
                     | Some m' => Some (Dir (set_entry c m' ents))
                     | None => None
                     end
         | None => None
         end
  end.
Proof. reflexivity. Qed.

(** After a write at [p], the tree holds [v] there ... *)
Lemma lookup_put_under p : forall v n n' r,
  put p v n = Some n' -> lookup (p ++ r) n' = lookup r v.
Proof.
  induction p as [|c p IH]; intros v n n' r H.
  - simpl in H. now inversion H.
  - destruct n as [|ents]; [discriminate|]. rewrite put_cons in H.
    destruct p as [|c' p].
    + inversion H; subst. simpl. now rewrite assoc_set_eq.
    + destruct (assoc c ents) as [m|]; [|discriminate].
      destruct (put (c' :: p) v m) as [m'|] eqn:Hm; [|discriminate].
      inversion H; subst. change ((c :: c' :: p) ++ r) with (c :: (c' :: p) ++ r).
      cbn [lookup]. rewrite assoc_set_eq. now apply IH with (n := m).
Qed.

Lemma lookup_put_here p v n n' :
  put p v n = Some n' -> lookup p n' = Some v.
Proof.
  intros H. rewrite <- (app_nil_r p). now rewrite (lookup_put_under p v n n' [] H).
Qed.

(** ... and is unchanged at every path not comparable with [p]. *)
Lemma lookup_put_frame p : forall v n n' q,
  put p v n = Some n' -> comparable p q = false ->
  lookup q n' = lookup q n.
Proof.
  induction p as [|c p IH]; intros v n n' q H Hq; [discriminate|].
  destruct q as [|d q]; [discriminate|].
  destruct n as [|ents]; [discriminate|]. rewrite put_cons in H.
  simpl in Hq.
  destruct p as [|c' p].
  - inversion H; subst. simpl.
    destruct (String.eqb c d) eqn:E.
    + destruct q; discriminate.
    + now rewrite (assoc_set_ne _ _ _ _ E).
  - destruct (assoc c ents) as [m|] eqn:Hc; [|discriminate].
    destruct (put (c' :: p) v m) as [m'|] eqn:Hm; [|discriminate].
    inversion H; subst. cbn [lookup].
    destruct (String.eqb c d) eqn:E.
    + apply String.eqb_eq in E. subst d. rewrite assoc_set_eq, Hc.
      now apply IH with (v := v).
    + now rewrite (assoc_set_ne _ _ _ _ E).
Qed.

(** The directories above the place of a write were directories before and
    are directories after. *)
Lemma lookup_put_above q : forall c r v n n',
  put (q ++ c :: r) v n = Some n' ->
  isdir q n = true /\ isdir q n' = true.
Proof.
  unfold isdir.
  induction q as [|d q IH]; intros c r v n n' H.
  - simpl in H. destruct n as [|ents]; [discriminate|].
    destruct r.
    + inversion H. now split.
    + destruct (assoc c ents); [|discriminate].
      destruct (put _ _ _); [|discriminate]. inversion H. now split.
  - destruct n as [|ents]; [discriminate|].
    change ((d :: q) ++ c :: r) with (d :: (q ++ c :: r)) in H.
    rewrite put_cons in H.
    destruct (q ++ c :: r) as [|x l] eqn:El.
    { destruct q; discriminate. }
    destruct (assoc d ents) as [m|] eqn:Hd; [|discriminate].
    destruct (put (x :: l) v m) as [m'|] eqn:Hm; [|discriminate].
    inversion H; subst. cbn [lookup]. rewrite assoc_set_eq, Hd.
    rewrite <- El in Hm. exact (IH _ _ _ _ _ Hm).
Qed.


Lemma put_succeeds p : forall v n,
  p <> [] -> isdir (dirname p) n = true -> exists n', put p v n = Some n'.
Proof.
  unfold isdir, dirname.
  induction p as [|c p IH]; intros v n Hp H; [congruence|].
  destruct p as [|c' p].
  - simpl in H. destruct n as [|ents]; [discriminate|]. simpl. eauto.
  - change (removelast (c :: c' :: p)) with (c :: removelast (c' :: p)) in H.
    cbn [lookup] in H. destruct n as [|ents]; [discriminate|].
    rewrite put_cons. destruct (assoc c ents) as [m|]; [|discriminate].
    destruct (IH v m) as [m' Hm']; [discriminate | exact H |].
    rewrite Hm'. eauto.
Qed.

Lemma put_same p : forall v n, lookup p n = Some v -> put p v n = Some n.
Proof.
  induction p as [|c p IH]; intros v n H.
  - simpl in *. now inversion H.
  - destruct n as [|ents]; [discriminate|]. rewrite put_cons.
    simpl in H. destruct (assoc c ents) as [m|] eqn:Hc; [|discriminate].
    destruct p.
    + simpl in H. inversion H; subst. now rewrite (set_entry_same _ _ _ Hc).
    + rewrite (IH _ _ H). now rewrite (set_entry_same _ _ _ Hc).
Qed.

End Tree.

(** * Reading the repository: [wasCommited], [wasAdded], [status] *)

Section Status.

Lemma read_text_inv p st t st' :
  read_text p st = Done t st' ->
  st' = st /\ exists d, lookup p st = Some (File d) /\ t = universal_newlines d.
Proof.
  unfold read_text. destruct (lookup p st) as [[d|ents]|]; try discriminate.
  intros H. inversion H; subst. eauto.
Qed.

Lemma read_text_content p st d :
  content p st = Some d -> read_text p st = Done (universal_newlines d) st.
Proof.
  unfold content, read_text.
  destruct (lookup p st) as [[d'|ents]|]; try discriminate.
  now intros [= ->].
Qed.

Lemma lastCommitHash_inv st h st' :
  lastCommitHash st = Done h st' ->
  st' = st /\
  exists d, content head_path st = Some d /\
            h = strip (readline (universal_newlines d)).
Proof.
  unfold lastCommitHash, bind, ret, content.
  destruct (read_text head_path st) as [t s|e s] eqn:R; [|discriminate].
  apply read_text_inv in R as [-> [d [L ->]]]. rewrite L.
  intros H. inversion H; subst. eauto.
Qed.

Lemma lastCommitHash_content st d :
  content head_path st = Some d ->
  lastCommitHash st = Done (strip (readline (universal_newlines d))) st.
Proof.
  intros H. unfold lastCommitHash, bind, ret.
  now rewrite (read_text_content _ _ _ H).
Qed.

Lemma toCommitList_inv st ls st' :
  toCommitList st = Done ls st' ->
  st' = st /\
  exists d, content to_commit_path st = Some d /\
            ls = splitlines (universal_newlines d).
Proof.
  unfold toCommitList, bind, ret, content.
  destruct (read_text to_commit_path st) as [t s|e s] eqn:R; [|discriminate].
  apply read_text_inv in R as [-> [d [L ->]]]. rewrite L.
  intros H. inversion H; subst. eauto.
Qed.

Lemma toCommitList_content st d :
  content to_commit_path st = Some d ->
  toCommitList st = Done (splitlines (universal_newlines d)) st.
Proof.
  intros H. unfold toCommitList, bind, ret.
  now rewrite (read_text_content _ _ _ H).
Qed.

Lemma trackedList_inv h st ls st' :
  trackedList h st = Done ls st' ->
  st' = st /\
  exists d, content (tracked_path h) st = Some d /\
            ls = splitlines (universal_newlines d).
Proof.
  unfold trackedList, bind, ret, content.
  destruct (read_text (tracked_path h) st) as [t s|e s] eqn:R; [|discriminate].
  apply read_text_inv in R as [-> [d [L ->]]]. rewrite L.
  intros H. inversion H; subst. eauto.
Qed.

Lemma wasAdded_spec st added f :
  toCommitList st = Done added st ->
  wasAdded f st = Done (mem f added) st.
Proof.
  intros H. apply toCommitList_inv in H as [_ [d [Hd ->]]].
  unfold wasAdded, bind, ret. now rewrite (read_text_content _ _ _ Hd).
Qed.

Lemma wasCommited_empty_head st f :
  lastCommitHash st = Done EmptyString st ->
  wasCommited f st = Done false st.
Proof.
  intros H. unfold wasCommited, bind. now rewrite H.
Qed.

Lemma wasCommited_spec st h tracked f :
  lastCommitHash st = Done h st ->
  (nonempty h = true -> trackedList h st = Done tracked st) ->
  wasCommited f st = Done (nonempty h && mem f tracked) st.
Proof.
  intros H T. unfold wasCommited, bind. rewrite H.
  destruct (nonempty h) eqn:E; simpl; [|reflexivity].
  destruct (trackedList_inv _ _ _ _ (T eq_refl)) as [_ [d [Hd ->]]].
  now rewrite (read_text_content _ _ _ Hd).
Qed.

Lemma classify_spec st h tracked added f :
  lastCommitHash st = Done h st ->
  (nonempty h = true -> trackedList h st = Done tracked st) ->
  toCommitList st = Done added st ->
  classify f st = Done (class_of h tracked added f) st.
Proof.
  intros H T A. unfold classify, bind, class_of.
  rewrite (wasCommited_spec _ _ _ _ H T).
  destruct (nonempty h && mem f tracked); simpl; [reflexivity|].
  rewrite (wasAdded_spec _ _ _ A).
  now destruct (mem f added).
Qed.

Lemma status_loop_spec st h tracked added files :
  lastCommitHash st = Done h st ->
  (nonempty h = true -> trackedList h st = Done tracked st) ->
  toCommitList st = Done added st ->
  status_loop files st
  = Done (flat_map (fun f => report f (class_of h tracked added f)) files) st.
Proof.
  intros H T A. induction files as [|f files IH]; [reflexivity|].
  cbn [status_loop flat_map]. unfold bind at 1.
  rewrite (classify_spec _ _ _ _ _ H T A).
  unfold bind at 1. now rewrite IH.
Qed.

(** The reads depend on the marker directory only. *)
Lemma same_repository_content st st' q :
  same_repository st st' ->
  content (REPO_DIR :: q) st' = content (REPO_DIR :: q) st.
Proof. intros S. unfold content. now rewrite (S q). Qed.

Lemma same_repository_head st st' h :
  same_repository st st' ->
  lastCommitHash st = Done h st -> lastCommitHash st' = Done h st'.
Proof.
  intros S H. apply lastCommitHash_inv in H as [_ [d [Hd ->]]].
  apply lastCommitHash_content.
  unfold head_path. now rewrite (same_repository_content _ _ _ S).
Qed.

Lemma same_repository_added st st' ls :
  same_repository st st' ->
  toCommitList st = Done ls st -> toCommitList st' = Done ls st'.
Proof.
  intros S H. apply toCommitList_inv in H as [_ [d [Hd ->]]].
  apply toCommitList_content.
  unfold to_commit_path. now rewrite (same_repository_content _ _ _ S).
Qed.

Lemma same_repository_tracked st st' h ls :
  same_repository st st' ->
  trackedList h st = Done ls st -> trackedList h st' = Done ls st'.
Proof.
  intros S H. apply trackedList_inv in H as [_ [d [Hd ->]]].
  unfold trackedList, bind, ret.
  rewrite (read_text_content (tracked_path h) st' d); [reflexivity|].
  unfold tracked_path. now rewrite (same_repository_content _ _ _ S).
Qed.

(** [allFiles] meets every regular file reached through visible names. *)
Lemma assoc_In c ents m : assoc c ents = Some m -> In (c, m) ents.
Proof.
  induction ents as [|[k w] ents IH]; simpl; [discriminate|].
  destruct (String.eqb_spec k c) as [->|_].
  - intros [= ->]. now left.
  - intros H. right. exact (IH H).
Qed.

Lemma walk_complete p : forall root n,
  p <> [] -> isfile p n = true -> visible p = true ->
  In (root ++ p) (walk root n).
Proof.
  unfold isfile.
  induction p as [|c p IH]; intros root n Hp Hf Hv; [congruence|].
  destruct n as [|ents]; [discriminate|].
  cbn [lookup] in Hf. destruct (assoc c ents) as [m|] eqn:Hc; [|discriminate].
  apply assoc_In in Hc.
  cbn [visible forallb] in Hv. apply andb_true_iff in Hv as [Hh Hv].
  apply negb_true_iff in Hh.
  cbn [walk]. apply in_or_app.
  destruct p as [|c' p].
  - left. apply in_flat_map. exists (c, m). split; [exact Hc|].
    simpl in Hf. destruct m; [|discriminate]. simpl. rewrite Hh. now left.
  - right. apply in_flat_map. exists (c, m). split; [exact Hc|].
    destruct m as [|ents']; [discriminate|]. simpl fst. simpl snd. rewrite Hh.
    replace (root ++ c :: c' :: p) with ((root ++ [c]) ++ c' :: p)
      by now rewrite <- app_assoc.
    apply IH; [discriminate | exact Hf | exact Hv].
Qed.

Lemma allFiles_complete st p :
  p <> [] -> isfile p st = true -> visible p = true ->
  In (render p) (changePathsRef (allFiles [] st)).
Proof.
  intros Hp Hf Hv. unfold changePathsRef, allFiles. cbn [lookup].
  apply in_map. exact (walk_complete p [] st Hp Hf Hv).
Qed.

Lemma class_of_cases h tracked added f :
  let t := class_of h tracked added f in
  (t = committed <-> nonempty h = true /\ In f tracked) /\
  (t = staged <-> ~ (nonempty h = true /\ In f tracked) /\ In f added) /\
  (t = untracked <-> ~ (nonempty h = true /\ In f tracked) /\ ~ In f added).
Proof.
  unfold class_of.
  destruct (mem f tracked) eqn:Et;
    [apply mem_In in Et | apply mem_false in Et];
    (destruct (mem f added) eqn:Ea;
     [apply mem_In in Ea | apply mem_false in Ea]);
    destruct (nonempty h) eqn:Eh; simpl;
    intuition (try discriminate; try congruence).
Qed.

Lemma write_file_inv p data st st' :
  write_file p data st = Done tt st' -> put p (File data) st = Some st'.
Proof.
  unfold write_file, change. destruct (isdir p st); [discriminate|].
  destruct (put p (File data) st); [|discriminate]. now intros [= ->].
Qed.

Lemma put_same_repository c p v st st' :
  String.eqb c REPO_DIR = false ->
  put (c :: p) v st = Some st' -> same_repository st st'.
Proof.
  intros Hc H q. apply (lookup_put_frame (c :: p) v st st' (REPO_DIR :: q) H).
  cbn [comparable]. now rewrite Hc.
Qed.

End Status.

(** C6. [status] gives every non-hidden file of the working tree exactly one
    of the classes untracked, staged and committed: committed when the path
    is in the tracked list of the latest commit, else staged when it is in
    the staging list, else untracked.  The class is a function of these
    memberships alone: any tree with the same marker directory gives the same
    class, so a file of the latest tracked list stays committed when its
    contents are overwritten on disk. *)
Theorem status_classification (st : node) (h : string)
    (tracked added : list string) :
  lastCommitHash st = Done h st ->
  (nonempty h = true -> trackedList h st = Done tracked st) ->
  toCommitList st = Done added st ->
  (forall f, exists t,
      classify f st = Done t st /\
      (t = committed <-> nonempty h = true /\ In f tracked) /\
      (t = staged <-> ~ (nonempty h = true /\ In f tracked) /\ In f added) /\
      (t = untracked <->
         ~ (nonempty h = true /\ In f tracked) /\ ~ In f added)) /\
  status st
  = Done (flat_map (fun f => report f (class_of h tracked added f))
            (changePathsRef (allFiles [] st))) st /\
  (forall p, p <> [] -> isfile p st = true -> visible p = true ->
             In (render p) (changePathsRef (allFiles [] st))) /\
  (forall st' f, same_repository st st' ->
                 classify f st' = classify_at st' (classify f st)) /\
  (forall c p data st' f,
      String.eqb c REPO_DIR = false ->
      write_file (c :: p) data st = Done tt st' ->
      nonempty h = true -> In f tracked ->
      classify f st' = Done committed st').
Proof.
  intros H T A. split; [|split; [|split; [|split]]].
  - intros f. exists (class_of h tracked added f). split.
    + exact (classify_spec st h tracked added f H T A).
    + exact (class_of_cases h tracked added f).
  - exact (status_loop_spec st h tracked added _ H T A).
  - exact (fun p => allFiles_complete st p).
  - intros st' f S.
    rewrite (classify_spec st h tracked added f H T A). simpl.
    apply classify_spec.
    + exact (same_repository_head st st' h S H).
    + intros E. exact (same_repository_tracked st st' h tracked S (T E)).
    + exact (same_repository_added st st' added S A).
  - intros c p data st' f Hc W E I.
    assert (S : same_repository st st').
    { exact (put_same_repository c p _ st st' Hc (write_file_inv _ _ _ _ W)). }
    rewrite (classify_spec st' h tracked added f).
    + unfold class_of. rewrite E. simpl.
      now rewrite (proj2 (mem_In f tracked) I).
    + exact (same_repository_head st st' h S H).
    + intros E'. exact (same_repository_tracked st st' h tracked S (T E')).
    + exact (same_repository_added st st' added S A).
Qed.

Lemma status_classification_witness :
  lastCommitHash Example.c_added = Done Example.id1 Example.c_added /\
  trackedList Example.id1 Example.c_added
  = Done ["b.txt"] Example.c_added /\
  toCommitList Example.c_added = Done ["b.txt"; "c.txt"] Example.c_added /\
  status Example.c_added
  = Done ["c.txt (added and waiting to commit)"; "sub/a.txt (new file)"]
      Example.c_added.
Proof.
  assert (H : lastCommitHash Example.c_added
              = Done Example.id1 Example.c_added) by (vm_compute; reflexivity).
  assert (T : trackedList Example.id1 Example.c_added
              = Done ["b.txt"] Example.c_added) by (vm_compute; reflexivity).
  assert (A : toCommitList Example.c_added
              = Done ["b.txt"; "c.txt"] Example.c_added)
    by (vm_compute; reflexivity).
  split; [exact H | split; [exact T | split; [exact A |]]].
  rewrite (proj1 (proj2 (status_classification Example.c_added Example.id1
                           ["b.txt"] ["b.txt"; "c.txt"] H (fun _ => T) A))).
  vm_compute. reflexivity.
Defined.

(** C9. While no commit has been made ([HEAD] is empty), [wasCommited] is
    [False] for every path, and [status] reports every file it meets, as
    staged or as untracked: none is classified committed. *)
Theorem no_commit_nothing_committed (st : node) (added : list string) :
  lastCommitHash st = Done EmptyString st ->
  toCommitList st = Done added st ->
  (forall f, wasCommited f st = Done false st) /\
  (forall f, classify f st
             = Done (if mem f added then staged else untracked) st) /\
  status st
  = Done (map (fun f => if mem f added
                        then (f ++ " (added and waiting to commit)")%string
                        else (f ++ " (new file)")%string)
            (changePathsRef (allFiles [] st))) st.
Proof.
  intros H A. split; [|split].
  - intros f. exact (wasCommited_empty_head st f H).
  - intros f.
    rewrite (classify_spec st EmptyString [] added f H
               (fun E => False_ind _ (Bool.diff_false_true E)) A).
    reflexivity.
  - unfold status.
    rewrite (status_loop_spec st EmptyString [] added _ H
               (fun E => False_ind _ (Bool.diff_false_true E)) A).
    f_equal. induction (changePathsRef (allFiles [] st)) as [|f fs IH];
      [reflexivity|].
    cbn [flat_map map]. rewrite IH. unfold class_of. simpl.
    now destruct (mem f added).
Qed.

Lemma no_commit_nothing_committed_witness :
  lastCommitHash Example.b_added = Done EmptyString Example.b_added /\
  wasCommited "b.txt" Example.b_added = Done false Example.b_added /\
  status Example.b_added
  = Done ["b.txt (added and waiting to commit)"; "c.txt (new file)";
          "sub/a.txt (new file)"] Example.b_added.
Proof.
  assert (H : lastCommitHash Example.b_added
              = Done EmptyString Example.b_added) by (vm_compute; reflexivity).
  assert (A : toCommitList Example.b_added = Done ["b.txt"] Example.b_added)
    by (vm_compute; reflexivity).
  pose proof (no_commit_nothing_committed Example.b_added ["b.txt"] H A)
    as [W [_ S]].
  split; [exact H | split; [exact (W "b.txt") |]].
  rewrite S. vm_compute. reflexivity.
Defined.

(** * The steps of [commit] *)

Section Steps.

Lemma content_lookup p st d :
  content p st = Some d <-> lookup p st = Some (File d).
Proof.
  unfold content. destruct (lookup p st) as [[d'|ents]|]; split;
    intros H; inversion H; reflexivity.
Qed.

Lemma lookup_app p : forall q n,
  lookup (p ++ q) n =
  match lookup p n with Some m => lookup q m | None => None end.
Proof.
  induction p as [|c p IH]; intros q n; [reflexivity|].
  simpl. destruct n as [|ents]; [reflexivity|].
  destruct (assoc c ents); [apply IH | reflexivity].
Qed.

(** What exists lies in a directory. *)
Lemma lookup_parent_dir p c r st m :
  lookup (p ++ c :: r) st = Some m -> isdir p st = true.
Proof.
  unfold isdir. rewrite lookup_app.
  destruct (lookup p st) as [[d|ents]|]; simpl; try discriminate. reflexivity.
Qed.

Lemma mkdir_run p st :
  lookup p st = None -> p <> [] -> isdir (dirname p) st = true ->
  exists st', mkdir p st = Done tt st' /\ put p (Dir []) st = Some st'.
Proof.
  intros Hn Hp Hd. unfold mkdir, path_exists, change. rewrite Hn.
  destruct (put_succeeds p (Dir []) st Hp Hd) as [st' H].
  rewrite H. eauto.
Qed.

Lemma mknod_run p st :
  lookup p st = None -> p <> [] -> isdir (dirname p) st = true ->
  exists st', mknod p st = Done tt st' /\ put p (File "") st = Some st'.
Proof.
  intros Hn Hp Hd. unfold mknod, path_exists, change. rewrite Hn.
  destruct (put_succeeds p (File "") st Hp Hd) as [st' H].
  rewrite H. eauto.
Qed.

Lemma write_file_run p data st :
  isdir p st = false -> p <> [] -> isdir (dirname p) st = true ->
  exists st', write_file p data st = Done tt st' /\
              put p (File data) st = Some st'.
Proof.
  intros Hn Hp Hd. unfold write_file, change. rewrite Hn.
  destruct (put_succeeds p (File data) st Hp Hd) as [st' H].
  rewrite H. eauto.
Qed.

Lemma isdir_put_above q c r v n n' :
  put (q ++ c :: r) v n = Some n' -> isdir q n' = true.
Proof. intros H. exact (proj2 (lookup_put_above q c r v n n' H)). Qed.

End Steps.

(** The side condition of [lookup_put_frame] for the paths of the marker
    directory: the comparison is decided by the names that differ. *)
Ltac side_comparable :=
  unfold head_path, to_commit_path, commit_path, commit_dir_path,
    tracked_path, prev_path, REPO_DIR, HEAD, TO_COMMIT, TRACKED_LIST,
    PREV_COMMIT, COMMIT_DIR;
  cbn -[String.eqb]; rewrite ?String.eqb_refl;
  repeat match goal with
         | H : (_ =? _)%string = false |- _ => rewrite H
         end;
  cbn; rewrite ?andb_false_r; reflexivity.

Section Record.

Variable h : string.
Variable st : node.
Variables hd tc : string.
Hypothesis Hhead : content head_path st = Some hd.
Hypothesis Hstaged : content to_commit_path st = Some tc.
Hypothesis Hfresh : lookup (commit_path h) st = None.

Let h_not_HEAD : (h =? "HEAD")%string = false.
Proof.
  destruct (String.eqb_spec h "HEAD") as [E|]; [|reflexivity].
  apply content_lookup in Hhead. subst h.
  unfold commit_path, head_path, HEAD in *. congruence.
Qed.

Let h_not_TO_COMMIT : (h =? "TO_COMMIT")%string = false.
Proof.
  destruct (String.eqb_spec h "TO_COMMIT") as [E|]; [|reflexivity].
  apply content_lookup in Hstaged. subst h.
  unfold commit_path, to_commit_path, TO_COMMIT in *. congruence.
Qed.

Let repo_dir : isdir [REPO_DIR] st = true.
Proof.
  apply content_lookup in Hhead.
  exact (lookup_parent_dir [REPO_DIR] HEAD [] st _ Hhead).
Qed.

(** The record of the new commit is written in full, [HEAD] names it, and
    its snapshot directory is still empty. *)
Lemma commit_record_run :
  exists st1,
    commit_record h st = Done tt st1 /\
    content head_path st1 = Some h /\
    content (prev_path h) st1 = Some (strip (readline (universal_newlines hd))) /\
    content (tracked_path h) st1 = Some (universal_newlines tc) /\
    content to_commit_path st1 = Some tc /\
    lookup (commit_dir_path h) st1 = Some (Dir []) /\
    (forall q, comparable [REPO_DIR] q = false -> lookup q st1 = lookup q st).
Proof.
  pose proof h_not_HEAD as Hh1. pose proof h_not_TO_COMMIT as Hh2.
  pose proof Hh1 as Hh3. rewrite String.eqb_sym in Hh3.
  pose proof Hh2 as Hh4. rewrite String.eqb_sym in Hh4.
  apply content_lookup in Hhead. apply content_lookup in Hstaged.
  unfold commit_record.
  (* os.mkdir(newPath) *)
  destruct (mkdir_run (commit_path h) st Hfresh) as [s1 [R1 P1]];
    [discriminate | exact repo_dir |].
  unfold bind at 1. rewrite R1.
  (* os.mkdir(commitDir) *)
  destruct (mkdir_run (commit_dir_path h) s1) as [s2 [R2 P2]].
  { change (commit_dir_path h) with (commit_path h ++ [COMMIT_DIR]).
    now rewrite (lookup_put_under _ _ _ _ _ P1). }
  { discriminate. }
  { unfold isdir. change (dirname (commit_dir_path h)) with (commit_path h).
    now rewrite (lookup_put_here _ _ _ _ P1). }
  unfold bind at 1. rewrite R2.
  (* os.mknod(tracked) *)
  destruct (mknod_run (tracked_path h) s2) as [s3 [R3 P3]].
  { rewrite (lookup_put_frame _ _ _ _ _ P2) by side_comparable.
    change (tracked_path h) with (commit_path h ++ [TRACKED_LIST]).
    now rewrite (lookup_put_under _ _ _ _ _ P1). }
  { discriminate. }
  { exact (isdir_put_above (commit_path h) COMMIT_DIR [] _ _ _ P2). }
  unfold bind at 1. rewrite R3.
  (* os.mknod(prev) *)
  destruct (mknod_run (prev_path h) s3) as [s4 [R4 P4]].
  { rewrite (lookup_put_frame _ _ _ _ _ P3) by side_comparable.
    rewrite (lookup_put_frame _ _ _ _ _ P2) by side_comparable.
    change (prev_path h) with (commit_path h ++ [PREV_COMMIT]).
    now rewrite (lookup_put_under _ _ _ _ _ P1). }
  { discriminate. }
  { exact (isdir_put_above (commit_path h) TRACKED_LIST [] _ _ _ P3). }
  unfold bind at 1. rewrite R4.
  (* lastCommitName = lastCommitHash(repoPath) *)
  assert (L4 : lookup head_path s4 = Some (File hd)).
  { rewrite (lookup_put_frame _ _ _ _ _ P4) by side_comparable.
    rewrite (lookup_put_frame _ _ _ _ _ P3) by side_comparable.
    rewrite (lookup_put_frame _ _ _ _ _ P2) by side_comparable.
    rewrite (lookup_put_frame _ _ _ _ _ P1) by side_comparable.
    exact Hhead. }
  unfold bind at 1.
  rewrite (lastCommitHash_content s4 hd (proj2 (content_lookup _ _ _) L4)).
  set (last := strip (readline (universal_newlines hd))).
  (* with open(prev, 'w') as prev: prev.write(lastCommitName) *)
  assert (exists s5,
             (if nonempty last then write_file (prev_path h) last
              else ret tt) s4 = Done tt s5 /\
             lookup (prev_path h) s5 = Some (File last) /\
             isdir (commit_path h) s5 = true /\
             (forall q, comparable (prev_path h) q = false ->
                        lookup q s5 = lookup q s4)) as [s5 [R5 [L5 [D5 F5]]]].
  { destruct (nonempty last) eqn:E.
    - destruct (write_file_run (prev_path h) last s4) as [s5 [R5 P5]].
      + unfold isdir. now rewrite (lookup_put_here _ _ _ _ P4).
      + discriminate.
      + exact (isdir_put_above (commit_path h) PREV_COMMIT [] _ _ _ P4).
      + exists s5. split; [exact R5 | split; [|split]].
        * exact (lookup_put_here _ _ _ _ P5).
        * exact (isdir_put_above (commit_path h) PREV_COMMIT [] _ _ _ P5).
        * intros q Hq. exact (lookup_put_frame _ _ _ _ q P5 Hq).
    - exists s4. split; [reflexivity | split; [|split]].
      + destruct last; [|discriminate]. exact (lookup_put_here _ _ _ _ P4).
      + exact (isdir_put_above (commit_path h) PREV_COMMIT [] _ _ _ P4).
      + reflexivity. }
  unfold bind at 1. rewrite R5.
  (* with open(HEAD, 'w') as head: head.write(newCommitHash) *)
  assert (L5h : lookup head_path s5 = Some (File hd)).
  { rewrite F5 by side_comparable. exact L4. }
  destruct (write_file_run head_path h s5) as [s6 [R6 P6]].
  { unfold isdir. now rewrite L5h. }
  { discriminate. }
  { exact (lookup_parent_dir [REPO_DIR] HEAD [] s5 _ L5h). }
  unfold bind at 1. rewrite R6.
  (* tracked.writelines(l for l in toCommit) *)
  assert (L6 : lookup to_commit_path s6 = Some (File tc)).
  { rewrite (lookup_put_frame _ _ _ _ _ P6) by side_comparable.
    rewrite F5 by side_comparable.
    rewrite (lookup_put_frame _ _ _ _ _ P4) by side_comparable.
    rewrite (lookup_put_frame _ _ _ _ _ P3) by side_comparable.
    rewrite (lookup_put_frame _ _ _ _ _ P2) by side_comparable.
    rewrite (lookup_put_frame _ _ _ _ _ P1) by side_comparable.
    exact Hstaged. }
  unfold bind at 1.
  rewrite (read_text_content _ _ _ (proj2 (content_lookup _ _ _) L6)).
  destruct (write_file_run (tracked_path h) (universal_newlines tc) s6)
    as [s7 [R7 P7]].
  { unfold isdir.
    rewrite (lookup_put_frame _ _ _ _ _ P6) by side_comparable.
    rewrite F5 by side_comparable.
    rewrite (lookup_put_frame _ _ _ _ _ P4) by side_comparable.
    now rewrite (lookup_put_here _ _ _ _ P3). }
  { discriminate. }
  { unfold isdir. change (dirname (tracked_path h)) with (commit_path h).
    rewrite (lookup_put_frame _ _ _ _ _ P6) by side_comparable.
    exact D5. }
  exists s7. rewrite R7. split; [reflexivity|].
  assert (Out : forall p q, comparable [REPO_DIR] q = false ->
                            comparable (REPO_DIR :: p) q = false).
  { intros p [|b q] Hq; [discriminate|]. cbn [comparable] in *.
    destruct (String.eqb REPO_DIR b); [discriminate | reflexivity]. }
  split; [|split; [|split; [|split; [|split]]]]; try apply content_lookup.
  - rewrite (lookup_put_frame _ _ _ _ _ P7) by side_comparable.
    exact (lookup_put_here _ _ _ _ P6).
  - rewrite (lookup_put_frame _ _ _ _ _ P7) by side_comparable.
    rewrite (lookup_put_frame _ _ _ _ _ P6) by side_comparable.
    exact L5.
  - exact (lookup_put_here _ _ _ _ P7).
  - rewrite (lookup_put_frame _ _ _ _ _ P7) by side_comparable.
    exact L6.
  - rewrite (lookup_put_frame _ _ _ _ _ P7) by side_comparable.
    rewrite (lookup_put_frame _ _ _ _ _ P6) by side_comparable.
    rewrite F5 by side_comparable.
    rewrite (lookup_put_frame _ _ _ _ _ P4) by side_comparable.
    rewrite (lookup_put_frame _ _ _ _ _ P3) by side_comparable.
    exact (lookup_put_here _ _ _ _ P2).
  - intros q Hq.
    rewrite (lookup_put_frame _ _ _ _ q P7) by (apply Out; exact Hq).
    rewrite (lookup_put_frame _ _ _ _ q P6) by (apply Out; exact Hq).
    rewrite (F5 q) by (apply Out; exact Hq).
    rewrite (lookup_put_frame _ _ _ _ q P4) by (apply Out; exact Hq).
    rewrite (lookup_put_frame _ _ _ _ q P3) by (apply Out; exact Hq).
    rewrite (lookup_put_frame _ _ _ _ q P2) by (apply Out; exact Hq).
    exact (lookup_put_frame _ _ _ _ q P1 (Out _ q Hq)).
Qed.

End Record.

(** * The files a call leaves alone *)

Section Keeps.

Lemma comparable_true p : forall q,
  comparable p q = true -> below p q \/ below q p.
Proof.
  unfold below.
  induction p as [|a p IH]; intros q H.
  - left. now exists q.
  - destruct q as [|b q].
    + right. now exists (a :: p).
    + simpl in H. apply andb_true_iff in H as [E H].
      apply String.eqb_eq in E. subst b.
      destruct (IH q H) as [[r ->]|[r ->]]; [left|right]; now exists r.
Qed.


(** A write at [p], where no directory stood, changes no other file. *)
Lemma put_keeps p v st st' q d :
  put p v st = Some st' -> isdir p st = false ->
  content q st = Some d -> q <> p ->
  content q st' = Some d.
Proof.
  intros P Hp Hq Hne.
  destruct (comparable p q) eqn:C.
  - exfalso. apply content_lookup in Hq.
    destruct (comparable_true p q C) as [[r ->]|[r ->]].
    + destruct r as [|c r]; [now rewrite app_nil_r in Hne|].
      rewrite lookup_app in Hq. unfold isdir in Hp.
      destruct (lookup p st) as [[x|ents]|]; simpl in Hq; congruence.
    + destruct r as [|c r]; [now rewrite app_nil_r in Hne|].
      pose proof (proj1 (lookup_put_above q c r v st st' P)) as D.
      unfold isdir in D. rewrite Hq in D. discriminate.
  - unfold content in *. now rewrite (lookup_put_frame p v st st' q P C).
Qed.


Lemma keeps_ret {A} q (a : A) : keeps q (ret a).
Proof. intros st d H. exact H. Qed.

Lemma keeps_raise {A} q e : keeps q (@raise A e).
Proof. intros st d H. exact H. Qed.

Lemma keeps_bind {A B} q (m : M A) (k : A -> M B) :
  keeps q m -> (forall a, keeps q (k a)) -> keeps q (bind m k).
Proof.
  intros Hm Hk st d H. unfold bind.
  specialize (Hm st d H). destruct (m st) as [a s|e s]; simpl in *.
  - exact (Hk a s d Hm).
  - exact Hm.
Qed.

Lemma keeps_if {A} q (b : node -> bool) (m1 m2 : M A) :
  keeps q m1 -> keeps q m2 ->
  keeps q (fun st => if b st then m1 st else m2 st).
Proof.
  intros H1 H2 st d H. destruct (b st); [exact (H1 st d H) | exact (H2 st d H)].
Qed.

Lemma keeps_change q p v (guard : node -> bool) :
  (forall st, guard st = false -> isdir p st = false) ->
  (forall st d, guard st = false -> content q st = Some d -> q <> p) ->
  keeps q (fun st => if guard st then Raise OSError st
                     else change (put p v) st).
Proof.
  intros Hg Hne st d H. destruct (guard st) eqn:G; [exact H|].
  unfold change. destruct (put p v st) as [st'|] eqn:P; [|exact H].
  simpl. exact (put_keeps p v st st' q d P (Hg st G) H (Hne st d G H)).
Qed.

Lemma keeps_mkdir q p : keeps q (mkdir p).
Proof.
  apply keeps_change.
  - intros st G. unfold path_exists, isdir in *.
    now destruct (lookup p st) as [[x|ents]|].
  - intros st d G H ->. unfold path_exists, content in *.
    now destruct (lookup p st) as [[x|ents]|].
Qed.

Lemma keeps_mknod q p : keeps q (mknod p).
Proof.
  apply keeps_change.
  - intros st G. unfold path_exists, isdir in *.
    now destruct (lookup p st) as [[x|ents]|].
  - intros st d G H ->. unfold path_exists, content in *.
    now destruct (lookup p st) as [[x|ents]|].
Qed.

Lemma keeps_write_file q p data : q <> p -> keeps q (write_file p data).
Proof.
  intros Hne. apply keeps_change.
  - intros st G. exact G.
  - intros st d _ _. exact Hne.
Qed.

Lemma keeps_append_file q p data : q <> p -> keeps q (append_file p data).
Proof.
  intros Hne st d H. unfold append_file.
  destruct (lookup p st) as [[old|ents]|] eqn:L; [| exact H |].
  - unfold change. destruct (put p _ st) as [st'|] eqn:P; [|exact H].
    simpl. apply (put_keeps p _ st st' q d P); try assumption.
    unfold isdir. now rewrite L.
  - unfold change. destruct (put p _ st) as [st'|] eqn:P; [|exact H].
    simpl. apply (put_keeps p _ st st' q d P); try assumption.
    unfold isdir. now rewrite L.
Qed.

Lemma keeps_read_text q p : keeps q (read_text p).
Proof.
  intros st d H. unfold read_text.
  now destruct (lookup p st) as [[x|ents]|].
Qed.

Lemma keeps_read_bytes q p : keeps q (read_bytes p).
Proof.
  intros st d H. unfold read_bytes.
  now destruct (lookup p st) as [[x|ents]|].
Qed.

Lemma keeps_lastCommitHash q : keeps q lastCommitHash.
Proof.
  apply keeps_bind; [apply keeps_read_text | intros; apply keeps_ret].
Qed.

Lemma keeps_toCommitList q : keeps q toCommitList.
Proof.
  apply keeps_bind; [apply keeps_read_text | intros; apply keeps_ret].
Qed.

Lemma keeps_makedirs_from q rest : forall above,
  keeps q (makedirs_from above rest).
Proof.
  induction rest as [|c rest IH]; intros above; [apply keeps_raise|].
  cbn [makedirs_from]. destruct rest as [|c' rest]; [apply keeps_mkdir|].
  apply (keeps_if q (path_exists (above ++ [c]))).
  - apply IH.
  - apply keeps_bind; [apply keeps_mkdir | intros; apply IH].
Qed.

Lemma keeps_copy2 q src dst :
  (src <> None -> ~ below dst q) -> keeps q (copy2 src dst).
Proof.
  intros Hq st d H. unfold copy2.
  destruct src as [s|]; [|exact H].
  set (dst' := if isdir dst st then dst ++ [basename s] else dst).
  destruct (list_eq_dec string_dec s dst'); [exact H|].
  assert (Hne : q <> dst').
  { intros ->. apply Hq; [discriminate|]. unfold dst', below.
    destruct (isdir dst st); [now exists [basename s]|].
    exists []. now rewrite app_nil_r. }
  exact (keeps_bind q (read_bytes s) (fun data => write_file dst' data)
           (keeps_read_bytes q s)
           (fun data => keeps_write_file q dst' data Hne) st d H).
Qed.

End Keeps.

Section KeepsCommit.

Lemma normalize_extend comps : forall acc extra s,
  normalize acc comps = Some s ->
  normalize (acc ++ extra) comps = Some (rev extra ++ s).
Proof.
  induction comps as [|c cs IH]; intros acc extra s H; simpl in *.
  - inversion H; subst. now rewrite rev_app_distr.
  - destruct (String.eqb c "" || String.eqb c "."); [now apply IH|].
    destruct (String.eqb c "..").
    + destruct acc as [|a acc]; [discriminate|]. simpl. now apply IH.
    + exact (IH (c :: acc) extra s H).
Qed.

(** A line that names a path of the tree names the same path below the
    snapshot directory. *)
Lemma resolve_extend D f s :
  resolve [] f = Some s -> resolve D f = Some (D ++ s).
Proof.
  unfold resolve. destruct (is_absolute f); [discriminate|].
  intros H. simpl in H.
  rewrite <- (rev_involutive D) at 2.
  exact (normalize_extend (split_slash f) [] (rev D) s H).
Qed.

Lemma below_app D s q : below (D ++ s) q -> below D q.
Proof. intros [r ->]. exists (s ++ r). now rewrite app_assoc. Qed.

Lemma keeps_copy_files q D files :
  ~ below D q -> keeps q (copy_files D files).
Proof.
  intros HD. induction files as [|f files IH]; [apply keeps_ret|].
  cbn [copy_files].
  destruct (resolve D f) as [newFilePath|] eqn:R; [|apply keeps_raise].
  apply keeps_bind.
  - apply (keeps_if q (fun st => negb (isdir (dirname newFilePath) st))
             (makedirs newFilePath) (ret tt)).
    + apply keeps_makedirs_from.
    + apply keeps_ret.
  - intros _. apply keeps_bind; [|intros _; exact IH].
    apply keeps_copy2. intros Hsrc Hb.
    destruct (resolve [] f) as [s|] eqn:S; [|congruence].
    rewrite (resolve_extend D f s S) in R. inversion R; subst.
    exact (HD (below_app D s q Hb)).
Qed.

Lemma keeps_generateDirTree q files :
  (forall h, ~ below (commit_dir_path h) q) ->
  keeps q (generateDirTree files).
Proof.
  intros Hq. unfold generateDirTree.
  apply keeps_bind; [apply keeps_lastCommitHash|]. intros h.
  destruct (negb (nonempty h)); [apply keeps_raise|].
  apply keeps_bind; [apply keeps_lastCommitHash|]. intros h'.
  apply keeps_copy_files. apply Hq.
Qed.

Lemma keeps_commit_snapshot q :
  (forall h, ~ below (commit_dir_path h) q) -> keeps q commit_snapshot.
Proof.
  intros Hq. unfold commit_snapshot.
  apply keeps_bind; [apply keeps_toCommitList|]. intros files.
  now apply keeps_generateDirTree.
Qed.

Lemma keeps_commit_record q h :
  q <> head_path -> q <> prev_path h -> q <> tracked_path h ->
  keeps q (commit_record h).
Proof.
  intros H1 H2 H3. unfold commit_record.
  apply keeps_bind; [apply keeps_mkdir|]. intros _.
  apply keeps_bind; [apply keeps_mkdir|]. intros _.
  apply keeps_bind; [apply keeps_mknod|]. intros _.
  apply keeps_bind; [apply keeps_mknod|]. intros _.
  apply keeps_bind; [apply keeps_lastCommitHash|]. intros last.
  apply keeps_bind.
  { destruct (nonempty last); [now apply keeps_write_file | apply keeps_ret]. }
  intros _.
  apply keeps_bind; [now apply keeps_write_file|]. intros _.
  apply keeps_bind; [apply keeps_read_text|]. intros text.
  now apply keeps_write_file.
Qed.

(** [commit] is the record followed by the snapshot. *)
Lemma commit_split h st :
  commit h st =
  if path_exists (commit_path h) st then Raise AssertionError st
  else (commit_record h ;;; commit_snapshot) st.
Proof.
  unfold commit. destruct (path_exists (commit_path h) st); [reflexivity|].
  unfold commit_record, commit_snapshot, bind.
  repeat match goal with
         | |- context [match ?m ?s with Done _ _ => _ | Raise _ _ => _ end] =>
             destruct (m s)
         end; reflexivity.
Qed.

Lemma keeps_commit q h :
  q <> head_path -> q <> prev_path h -> q <> tracked_path h ->
  (forall h', ~ below (commit_dir_path h') q) ->
  keeps q (commit h).
Proof.
  intros H1 H2 H3 H4 st d H. rewrite commit_split.
  destruct (path_exists (commit_path h) st); [exact H|].
  revert st d H. apply keeps_bind.
  - now apply keeps_commit_record.
  - intros _. now apply keeps_commit_snapshot.
Qed.

End KeepsCommit.

(** * What a run of [commit] tells about the tree it started from *)

Section CommitDone.

Lemma mkdir_inv p st st' :
  mkdir p st = Done tt st' ->
  lookup p st = None /\ put p (Dir []) st = Some st'.
Proof.
  unfold mkdir, path_exists, change.
  destruct (lookup p st); [discriminate|].
  destruct (put p (Dir []) st); [|discriminate]. intros [= ->]. now split.
Qed.

Lemma mknod_inv p st st' :
  mknod p st = Done tt st' ->
  lookup p st = None /\ put p (File "") st = Some st'.
Proof.
  unfold mknod, path_exists, change.
  destruct (lookup p st); [discriminate|].
  destruct (put p (File "") st); [|discriminate]. intros [= ->]. now split.
Qed.

(** A file found after a write that did not bring it was there before. *)
Lemma put_before p v st st' q d :
  put p v st = Some st' ->
  (forall r, q = p ++ r -> content r v = None) ->
  content q st' = Some d -> content q st = Some d.
Proof.
  intros P Hv Hq.
  destruct (comparable p q) eqn:C.
  - exfalso. destruct (comparable_true p q C) as [[r ->]|[r ->]].
    + unfold content in Hq. rewrite (lookup_put_under p v st st' r P) in Hq.
      specialize (Hv r eq_refl). unfold content in Hv. congruence.
    + destruct r as [|c r].
      * rewrite app_nil_r in *.
        unfold content in Hq. rewrite (lookup_put_here q v st st' P) in Hq.
        specialize (Hv [] (eq_sym (app_nil_r q))). simpl in Hv.
        unfold content in Hv. simpl in Hv. congruence.
      * pose proof (proj2 (lookup_put_above q c r v st st' P)) as D.
        apply content_lookup in Hq. unfold isdir in D. rewrite Hq in D.
        discriminate.
  - unfold content in *. now rewrite <- (lookup_put_frame p v st st' q P C).
Qed.

Lemma content_empty_dir r : content r (Dir []) = None.
Proof. destruct r; reflexivity. Qed.

Lemma content_in_file r x : r <> [] -> content r (File x) = None.
Proof. destruct r; [congruence | reflexivity]. Qed.

Lemma mkdir_before p st st' q d :
  mkdir p st = Done tt st' -> content q st' = Some d -> content q st = Some d.
Proof.
  intros H. apply mkdir_inv in H as [_ P].
  apply (put_before p (Dir []) st st' q d P).
  intros r _. apply content_empty_dir.
Qed.

Lemma put_file_before p x st st' q d :
  put p (File x) st = Some st' -> q <> p ->
  content q st' = Some d -> content q st = Some d.
Proof.
  intros P Hne. apply (put_before p (File x) st st' q d P).
  intros r ->. apply content_in_file. intros ->.
  now rewrite app_nil_r in Hne.
Qed.

(** A run of [commit] that returns started in an initialised repository,
    with an identifier that named nothing in the marker directory. *)
Lemma commit_done_initialised h st st' :
  commit h st = Done tt st' ->
  initialised st /\ lookup (commit_path h) st = None.
Proof.
  unfold commit, path_exists.
  destruct (lookup (commit_path h) st) eqn:Hfresh; [discriminate|].
  unfold bind.
  destruct (mkdir (commit_path h) st) as [[] s1|] eqn:R1; [|discriminate].
  destruct (mkdir (commit_dir_path h) s1) as [[] s2|] eqn:R2; [|discriminate].
  destruct (mknod (tracked_path h) s2) as [[] s3|] eqn:R3; [|discriminate].
  destruct (mknod (prev_path h) s3) as [[] s4|] eqn:R4; [|discriminate].
  destruct (lastCommitHash s4) as [last s4'|] eqn:R5; [|discriminate].
  apply lastCommitHash_inv in R5 as [-> [hd [Hhd _]]].
  destruct ((if nonempty last then write_file (prev_path h) last else ret tt) s4)
    as [[] s5|] eqn:R6; [|discriminate].
  destruct (write_file head_path h s5) as [[] s6|] eqn:R7; [|discriminate].
  destruct (read_text to_commit_path s6) as [text s6'|] eqn:R8; [|discriminate].
  apply read_text_inv in R8 as [-> [tc [Htc _]]].
  intros _. split; [split|reflexivity].
  - exists hd.
    apply (mkdir_before _ _ _ _ _ R1), (mkdir_before _ _ _ _ _ R2).
    apply mknod_inv in R3 as [_ P3]. apply mknod_inv in R4 as [_ P4].
    apply (put_file_before _ _ _ _ _ _ P3); [discriminate|].
    apply (put_file_before _ _ _ _ _ _ P4); [discriminate|].
    exact Hhd.
  - exists tc.
    apply (mkdir_before _ _ _ _ _ R1), (mkdir_before _ _ _ _ _ R2).
    apply mknod_inv in R3 as [_ P3]. apply mknod_inv in R4 as [_ P4].
    apply (put_file_before _ _ _ _ _ _ P3); [discriminate|].
    apply (put_file_before _ _ _ _ _ _ P4); [discriminate|].
    assert (H5 : content to_commit_path s5 = Some tc).
    { apply write_file_inv in R7.
      apply (put_file_before _ _ _ _ _ _ R7); [discriminate|].
      now apply content_lookup. }
    destruct (nonempty last).
    + apply write_file_inv in R6.
      apply (put_file_before _ _ _ _ _ _ R6); [discriminate|]. exact H5.
    + inversion R6; subst. exact H5.
Qed.

End CommitDone.

(** * The claims about [commit] *)

Section CommitFinal.

Lemma not_below_head h : ~ below (commit_dir_path h) head_path.
Proof. intros [r E]. discriminate E. Qed.

Lemma not_below_to_commit h : ~ below (commit_dir_path h) to_commit_path.
Proof. intros [r E]. discriminate E. Qed.

Lemma not_below_prev h h' : ~ below (commit_dir_path h) (prev_path h').
Proof. intros [r E]. discriminate E. Qed.

Lemma not_below_tracked h h' : ~ below (commit_dir_path h) (tracked_path h').
Proof. intros [r E]. discriminate E. Qed.

Lemma hex_not_space c : is_hex c = true -> negb (is_space c) = true.
Proof.
  unfold is_hex, is_space. cbv zeta. generalize (nat_of_ascii c). intros n.
  rewrite negb_true_iff.
  rewrite orb_true_iff, !andb_true_iff, !Nat.leb_le.
  rewrite !orb_false_iff, !andb_false_iff, !Nat.leb_gt, !Nat.eqb_neq. lia.
Qed.

(** An identifier made by [uuid4().hex] is read back from [HEAD] as it was
    written, and is not empty. *)
Lemma uuid4_hex_token h :
  uuid4_hex h = true ->
  strip (readline (universal_newlines h)) = h /\ nonempty h = true.
Proof.
  unfold uuid4_hex. intros H. apply andb_true_iff in H as [Hl Hx]. split.
  - apply read_token. revert Hx. apply forallb_weaken. exact hex_not_space.
  - destruct h; [discriminate | reflexivity].
Qed.

Lemma commit_final h st hd tc :
  content head_path st = Some hd ->
  content to_commit_path st = Some tc ->
  lookup (commit_path h) st = None ->
  exists st1,
    commit_record h st = Done tt st1 /\
    content head_path st1 = Some h /\
    lookup (commit_dir_path h) st1 = Some (Dir []) /\
    commit h st = commit_snapshot st1 /\
    content head_path (final (commit h st)) = Some h /\
    content (prev_path h) (final (commit h st))
    = Some (strip (readline (universal_newlines hd))) /\
    content (tracked_path h) (final (commit h st))
    = Some (universal_newlines tc) /\
    content to_commit_path (final (commit h st)) = Some tc.
Proof.
  intros Hhd Htc Hfresh.
  destruct (commit_record_run h st hd tc Hhd Htc Hfresh)
    as [st1 [R [H1 [H2 [H3 [H4 [H5 _]]]]]]].
  exists st1.
  assert (E : commit h st = commit_snapshot st1).
  { rewrite commit_split. unfold path_exists. rewrite Hfresh.
    unfold bind. now rewrite R. }
  rewrite E. repeat split; try assumption.
  - apply keeps_commit_snapshot; [apply not_below_head | exact H1].
  - apply keeps_commit_snapshot; [intros h'; apply not_below_prev | exact H2].
  - apply keeps_commit_snapshot; [intros h'; apply not_below_tracked | exact H3].
  - apply keeps_commit_snapshot; [apply not_below_to_commit | exact H4].
Qed.

End CommitFinal.

(** [commit] moves [HEAD] when the staged lines name paths of the tree.
    After a run of [commit] that returns, the file [HEAD] holds the new
    identifier and nothing else, and the [PREV_COMMIT] file of the new commit
    holds the value [lastCommitHash] gave before the run: the empty text when
    [HEAD] was empty. *)
Theorem commit_moves_head (h : string) (st st' : node) :
  staged_in_tree st ->
  commit h st = Done tt st' ->
  exists prev,
    lastCommitHash st = Done prev st /\
    content head_path st' = Some h /\
    content (prev_path h) st' = Some prev /\
    (content head_path st = Some EmptyString -> prev = EmptyString).
Proof.
  intros _ H.
  destruct (commit_done_initialised h st st' H) as [[[hd Hhd] [tc Htc]] Hfresh].
  destruct (commit_final h st hd tc Hhd Htc Hfresh)
    as [st1 [_ [_ [_ [_ [F1 [F2 _]]]]]]].
  rewrite H in F1, F2. simpl in F1, F2.
  exists (strip (readline (universal_newlines hd))).
  split; [exact (lastCommitHash_content st hd Hhd) | split; [exact F1 | split]].
  - exact F2.
  - intros E. rewrite Hhd in E. inversion E; subst. reflexivity.
Qed.

Lemma commit_moves_head_witness :
  commit Example.id2 Example.c_added = Done tt Example2.second /\
  exists prev,
    lastCommitHash Example.c_added = Done prev Example.c_added /\
    content head_path Example2.second = Some Example.id2 /\
    content (prev_path Example.id2) Example2.second = Some prev /\
    (content head_path Example.c_added = Some EmptyString ->
     prev = EmptyString).
Proof.
  assert (H : commit Example.id2 Example.c_added = Done tt Example2.second)
    by (vm_compute; reflexivity).
  split; [exact H|].
  apply (commit_moves_head Example.id2 Example.c_added Example2.second);
    [|exact H].
  intros tc line Htc Hl. vm_compute in Htc. inversion Htc; subst tc.
  vm_compute in Hl. destruct Hl as [<-|[<-|[]]]; eexists; reflexivity.
Defined.

(** [commit] keeps the staging list when the staged lines name paths of
    the tree.  A run of [commit] that returns leaves [TO_COMMIT] with the
    contents it had: the staging list is neither cleared nor rewritten.  The
    new commit tracks that list, and so does the commit that follows it. *)
Theorem commit_keeps_staging_list (h : string) (st st' : node) :
  staged_in_tree st ->
  commit h st = Done tt st' ->
  exists tc,
    content to_commit_path st = Some tc /\
    content to_commit_path st' = Some tc /\
    toCommitList st' = Done (splitlines (universal_newlines tc)) st' /\
    toCommitList st = Done (splitlines (universal_newlines tc)) st /\
    content (tracked_path h) st' = Some (universal_newlines tc) /\
    (forall h2 st2, commit h2 st' = Done tt st2 ->
                    content to_commit_path st2 = Some tc /\
                    content (tracked_path h2) st2
                    = Some (universal_newlines tc)).
Proof.
  intros _ H.
  destruct (commit_done_initialised h st st' H) as [[[hd Hhd] [tc Htc]] Hfresh].
  destruct (commit_final h st hd tc Hhd Htc Hfresh)
    as [st1 [_ [_ [_ [_ [F1 [_ [F3 F4]]]]]]]].
  rewrite H in F1, F3, F4. simpl in F1, F3, F4.
  exists tc. repeat split; try assumption.
  - exact (toCommitList_content st' tc F4).
  - exact (toCommitList_content st tc Htc).
  - destruct (commit_done_initialised h2 st' st2 H0) as [_ Hfresh2].
    destruct (commit_final h2 st' h tc F1 F4 Hfresh2)
      as [_ [_ [_ [_ [_ [_ [_ [_ G4]]]]]]]].
    rewrite H0 in G4. exact G4.
  - destruct (commit_done_initialised h2 st' st2 H0) as [_ Hfresh2].
    destruct (commit_final h2 st' h tc F1 F4 Hfresh2)
      as [_ [_ [_ [_ [_ [_ [_ [G3 _]]]]]]]].
    rewrite H0 in G3. exact G3.
Qed.

Lemma commit_keeps_staging_list_witness :
  commit Example.id1 Example.b_added = Done tt Example.b_committed /\
  exists tc,
    content to_commit_path Example.b_added = Some tc /\
    content to_commit_path Example.b_committed = Some tc /\
    toCommitList Example.b_committed
    = Done (splitlines (universal_newlines tc)) Example.b_committed /\
    toCommitList Example.b_added
    = Done (splitlines (universal_newlines tc)) Example.b_added /\
    content (tracked_path Example.id1) Example.b_committed
    = Some (universal_newlines tc) /\
    (forall h2 st2, commit h2 Example.b_committed = Done tt st2 ->
                    content to_commit_path st2 = Some tc /\
                    content (tracked_path h2) st2
                    = Some (universal_newlines tc)).
Proof.
  assert (H : commit Example.id1 Example.b_added = Done tt Example.b_committed)
    by (vm_compute; reflexivity).
  split; [exact H|].
  apply (commit_keeps_staging_list Example.id1 Example.b_added
           Example.b_committed); [|exact H].
  intros tc line Htc Hl. vm_compute in Htc. inversion Htc; subst tc.
  vm_compute in Hl. destruct Hl as [<-|[]]; eexists; reflexivity.
Defined.



(** C10. With an empty staging list [commit] returns: the new commit has an
    empty tracked list and an empty snapshot directory, its [PREV_COMMIT]
    holds the former value of [HEAD], and [HEAD] holds the new identifier. *)
Theorem commit_with_empty_staging_list (h : string) (st : node) (hd : string) :
  uuid4_hex h = true ->
  content head_path st = Some hd ->
  content to_commit_path st = Some EmptyString ->
  lookup (commit_path h) st = None ->
  exists st',
    commit h st = Done tt st' /\
    content (tracked_path h) st' = Some EmptyString /\
    trackedList h st' = Done [] st' /\
    lookup (commit_dir_path h) st' = Some (Dir []) /\
    content (prev_path h) st'
    = Some (strip (readline (universal_newlines hd))) /\
    content head_path st' = Some h.
Proof.
  intros Hu Hhd Htc Hfresh.
  destruct (uuid4_hex_token h Hu) as [Hread Hne].
  destruct (commit_record_run h st hd EmptyString Hhd Htc Hfresh)
    as [st1 [R [H1 [H2 [H3 [H4 [H5 _]]]]]]].
  exists st1.
  assert (S : commit_snapshot st1 = Done tt st1).
  { unfold commit_snapshot, bind.
    rewrite (toCommitList_content st1 EmptyString H4). simpl.
    unfold generateDirTree, bind.
    rewrite (lastCommitHash_content st1 h H1), Hread, Hne. simpl.
    rewrite (lastCommitHash_content st1 h H1). reflexivity. }
  split; [|split; [exact H3 | split; [|split; [exact H5 | split; assumption]]]].
  - rewrite commit_split. unfold path_exists. rewrite Hfresh.
    unfold bind. rewrite R. exact S.
  - unfold trackedList, bind.
    now rewrite (read_text_content (tracked_path h) st1 EmptyString H3).
Qed.

Lemma commit_with_empty_staging_list_witness :
  exists st',
    commit Example.id1 Example.initialised = Done tt st' /\
    content (tracked_path Example.id1) st' = Some EmptyString /\
    trackedList Example.id1 st' = Done [] st' /\
    lookup (commit_dir_path Example.id1) st' = Some (Dir []) /\
    content (prev_path Example.id1) st'
    = Some (strip (readline (universal_newlines EmptyString))) /\
    content head_path st' = Some Example.id1.
Proof.
  apply (commit_with_empty_staging_list Example.id1 Example.initialised
           EmptyString); reflexivity.
Defined.

(** * [add] on regular files *)

Section AddFiles.

Lemma append_file_run p old data st :
  content p st = Some old ->
  exists st', append_file p data st = Done tt st' /\
              put p (File (old ++ data)) st = Some st' /\
              content p st' = Some (old ++ data)%string.
Proof.
  intros H. apply content_lookup in H. unfold append_file, change. rewrite H.
  destruct p as [|c p].
  - simpl. eexists. split; [reflexivity | split; reflexivity].
  - destruct (exists_last (l := c :: p)) as [q [x E]]; [discriminate|].
    rewrite E in H.
    pose proof (lookup_parent_dir q x [] st _ H) as D.
    destruct (put_succeeds (c :: p) (File (old ++ data)) st) as [st' P].
    + discriminate.
    + unfold dirname. rewrite E, removelast_last. exact D.
    + rewrite P. exists st'. split; [reflexivity | split; [reflexivity|]].
      apply content_lookup. exact (lookup_put_here _ _ _ _ P).
Qed.

Lemma append_nothing p old st :
  content p st = Some old -> append_file p EmptyString st = Done tt st.
Proof.
  intros H. apply content_lookup in H. unfold append_file, change. rewrite H.
  rewrite sapp_nil_r. now rewrite (put_same p (File old) st H).
Qed.

(** One round of [add] without directories: no recursive call is made. *)
Lemma add_fuel_flat n files st ls ls' written o :
  toCommitList st = Done ls st ->
  add_scan st files ls [] "" = (ls', [], written) ->
  append_file to_commit_path written st = o ->
  add_fuel (S n) files st
  = Some match o with Done _ st' => Done tt st' | Raise e st' => Raise e st' end.
Proof.
  intros T S A. cbn [add_fuel]. rewrite T, S, A.
  destruct o as [[] st'|e st']; reflexivity.
Qed.

Lemma add_flat files st ls ls' written st' :
  toCommitList st = Done ls st ->
  add_scan st files ls [] "" = (ls', [], written) ->
  append_file to_commit_path written st = Done tt st' ->
  add files st = Done tt st'.
Proof.
  intros T S A. unfold add.
  now rewrite (add_fuel_flat (height st) files st ls ls' written _ T S A).
Qed.

End AddFiles.

(** C7. Staging is idempotent.  When a regular file is in the staging list,
    [add] on it, once or twice in the same call, returns and leaves the tree
    as it is, so the list keeps its one entry for the file.  When the file is
    not yet in the list, [add] on it twice in the same call stages it once:
    the list grows by that one entry, and a later [add], once or twice,
    changes nothing. *)
Theorem add_idempotent (st : node) (ls : list string) (file : path) :
  toCommitList st = Done ls st ->
  isfile file st = true ->
  (In (render file) ls ->
     add [file] st = Done tt st /\ add [file; file] st = Done tt st) /\
  (~ In (render file) ls -> staging st ls -> clean (render file) = true ->
     exists st',
       add [file; file] st = Done tt st' /\
       add [file] st = Done tt st' /\
       toCommitList st' = Done (ls ++ [render file]) st' /\
       count_occ string_dec (ls ++ [render file]) (render file) = 1 /\
       add [file] st' = Done tt st' /\
       add [file; file] st' = Done tt st').
Proof.
  intros T Hfile.
  assert (Staged : forall s l, toCommitList s = Done l s ->
            isfile file s = true -> In (render file) l ->
            add [file] s = Done tt s /\ add [file; file] s = Done tt s).
  { intros s l Tl Hf Hin.
    destruct (toCommitList_inv s l s Tl) as [_ [d [Hd _]]].
    unfold isfile in Hf.
    destruct (lookup file s) as [[x|ents]|] eqn:L; try discriminate.
    apply mem_In in Hin. split.
    - apply (add_flat [file] s l l EmptyString s Tl).
      + cbn [add_scan]. now rewrite L, Hin.
      + exact (append_nothing to_commit_path d s Hd).
    - apply (add_flat [file; file] s l l EmptyString s Tl).
      + cbn [add_scan]. now rewrite L, Hin.
      + exact (append_nothing to_commit_path d s Hd). }
  split; [exact (Staged st ls T Hfile)|].
  intros Hnot [Htc Hcl] Hcf.
  pose proof (proj2 (mem_false (render file) ls) Hnot) as Hm.
  destruct (append_file_run to_commit_path (unlines ls)
              (render file ++ String LF "") st Htc) as [st' [A [P C]]].
  exists st'.
  assert (Hcl' : forallb clean (ls ++ [render file]) = true).
  { rewrite forallb_app, Hcl. simpl. now rewrite Hcf. }
  assert (C' : content to_commit_path st' = Some (unlines (ls ++ [render file]))).
  { rewrite C. f_equal. now rewrite unlines_app. }
  assert (T' : toCommitList st' = Done (ls ++ [render file]) st').
  { rewrite (toCommitList_content st' _ C').
    now rewrite (universal_newlines_unlines _ Hcl'), (splitlines_unlines _ Hcl'). }
  assert (Hfile' : isfile file st' = true).
  { unfold isfile in *.
    destruct (lookup file st) as [[x|ents]|] eqn:L; try discriminate.
    destruct (list_eq_dec string_dec file to_commit_path) as [->|Hne].
    - apply content_lookup in C'. now rewrite C'.
    - assert (K : content file st' = Some x).
      { apply (put_keeps to_commit_path _ st st' file x P).
        - unfold isdir. apply content_lookup in Htc. now rewrite Htc.
        - now apply content_lookup.
        - exact Hne. }
      apply content_lookup in K. now rewrite K. }
  assert (Hin' : In (render file) (ls ++ [render file])).
  { apply in_or_app. right. now left. }
  unfold isfile in Hfile.
  destruct (lookup file st) as [[x|ents]|] eqn:L; try discriminate.
  split; [|split; [|split; [exact T' | split]]].
  - apply (add_flat [file; file] st ls (ls ++ [render file])
             (render file ++ String LF "")%string st' T).
    + cbn [add_scan]. rewrite L, Hm.
      rewrite (proj2 (mem_In (render file) (ls ++ [render file])) Hin').
      reflexivity.
    + exact A.
  - apply (add_flat [file] st ls (ls ++ [render file])
             (render file ++ String LF "")%string st' T).
    + cbn [add_scan]. now rewrite L, Hm.
    + exact A.
  - rewrite count_occ_app. simpl.
    rewrite (proj1 (count_occ_not_In string_dec ls (render file)) Hnot).
    destruct (string_dec (render file) (render file)); [reflexivity|congruence].
  - exact (Staged st' _ T' Hfile' Hin').
Qed.

Lemma add_idempotent_witness :
  (add [["b.txt"]] Example.b_added = Done tt Example.b_added /\
   add [["b.txt"]; ["b.txt"]] Example.b_added = Done tt Example.b_added) /\
  (exists st',
     add [["c.txt"]; ["c.txt"]] Example.b_added = Done tt st' /\
     add [["c.txt"]] Example.b_added = Done tt st' /\
     toCommitList st' = Done ["b.txt"; "c.txt"] st' /\
     count_occ string_dec ["b.txt"; "c.txt"] "c.txt" = 1 /\
     add [["c.txt"]] st' = Done tt st' /\
     add [["c.txt"]; ["c.txt"]] st' = Done tt st').
Proof.
  assert (T : toCommitList Example.b_added = Done ["b.txt"] Example.b_added)
    by reflexivity.
  split.
  - apply (proj1 (add_idempotent Example.b_added ["b.txt"] ["b.txt"]
                    T eq_refl)).
    now left.
  - apply (proj2 (add_idempotent Example.b_added ["b.txt"] ["c.txt"]
                    T eq_refl)).
    + intros [H|[]]. discriminate H.
    + split; reflexivity.
    + reflexivity.
Defined.

(** * The shape of the tree: what [add] leaves unchanged *)

Section Shape.

Lemma shape_Dir ents : shape (Dir ents) = Dir (map shape_entry ents).
Proof. reflexivity. Qed.

Lemma assoc_shape c ents :
  assoc c (map shape_entry ents) = option_map shape (assoc c ents).
Proof.
  induction ents as [|[k w] ents IH]; [reflexivity|].
  simpl. destruct (String.eqb k c); [reflexivity | exact IH].
Qed.

Lemma lookup_shape p : forall n,
  lookup p (shape n) = option_map shape (lookup p n).
Proof.
  induction p as [|c p IH]; intros n; [reflexivity|].
  destruct n as [d|ents]; [reflexivity|].
  rewrite shape_Dir. cbn [lookup]. rewrite assoc_shape.
  destruct (assoc c ents) as [m|]; simpl; [apply IH | reflexivity].
Qed.

Lemma same_shape_lookup st st' p :
  shape st' = shape st ->
  option_map shape (lookup p st') = option_map shape (lookup p st).
Proof. intros E. now rewrite <- !lookup_shape, E. Qed.

Lemma same_shape_isfile st st' p :
  shape st' = shape st -> isfile p st' = isfile p st.
Proof.
  intros E. pose proof (same_shape_lookup st st' p E) as H. unfold isfile.
  destruct (lookup p st') as [[x|ents]|], (lookup p st) as [[y|ents']|];
    simpl in H; congruence.
Qed.

Lemma same_shape_dir st st' p ents :
  shape st' = shape st -> lookup p st = Some (Dir ents) ->
  exists ents', lookup p st' = Some (Dir ents') /\
                map shape_entry ents' = map shape_entry ents.
Proof.
  intros E L. pose proof (same_shape_lookup st st' p E) as H.
  rewrite L in H. simpl in H.
  destruct (lookup p st') as [[x|ents']|]; simpl in H; try discriminate.
  exists ents'. split; [reflexivity|]. now inversion H.
Qed.

Lemma shape_entries_names ents ents' :
  map shape_entry ents' = map shape_entry ents -> map fst ents' = map fst ents.
Proof.
  intros H. apply (f_equal (map fst)) in H.
  rewrite !map_map in H. exact H.
Qed.

Lemma set_entry_shape c v w ents :
  assoc c ents = Some w -> shape v = shape w ->
  map shape_entry (set_entry c v ents) = map shape_entry ents.
Proof.
  intros H E. induction ents as [|[k x] ents IH]; [discriminate|].
  simpl in *. destruct (String.eqb k c) eqn:K.
  - inversion H; subst. simpl. unfold shape_entry at 1 3. simpl. now rewrite E.
  - simpl. now rewrite (IH H).
Qed.

(** Replacing a node by one of the same shape keeps the shape of the
    tree. *)
Lemma put_shape p : forall v w st st',
  put p v st = Some st' -> lookup p st = Some w -> shape v = shape w ->
  shape st' = shape st.
Proof.
  induction p as [|c p IH]; intros v w st st' P L E.
  - simpl in *. inversion P; inversion L; subst. exact E.
  - destruct st as [|ents]; [discriminate|].
    rewrite put_cons in P. cbn [lookup] in L.
    destruct (assoc c ents) as [m|] eqn:A; [|discriminate].
    destruct p as [|c' p].
    + simpl in L. inversion L; subst. inversion P; subst.
      rewrite !shape_Dir. f_equal. exact (set_entry_shape c v w ents A E).
    + destruct (put (c' :: p) v m) as [m'|] eqn:Pm; [|discriminate].
      inversion P; subst. rewrite !shape_Dir. f_equal.
      apply (set_entry_shape c m' m ents A).
      exact (IH v w m m' Pm L E).
Qed.

Lemma height_shape n : height (shape n) = height n.
Proof.
  induction n as [d|ents IH] using node_ind; [reflexivity|].
  rewrite shape_Dir. cbn [height]. f_equal.
  induction IH as [|e ents He _ IHents]; [reflexivity|].
  cbn [map fold_right]. unfold shape_entry at 1. cbn [snd].
  now rewrite He, IHents.
Qed.


Lemma clean_tree_shape n : clean_tree (shape n) = clean_tree n.
Proof.
  induction n as [d|ents IH] using node_ind; [reflexivity|].
  rewrite shape_Dir. cbn [clean_tree].
  induction IH as [|e ents He _ IHents]; [reflexivity|].
  cbn [map forallb]. unfold shape_entry at 1 2. cbn [fst snd].
  now rewrite He, IHents.
Qed.

Lemma height_child c ents m :
  assoc c ents = Some m -> height m < height (Dir ents).
Proof.
  intros H. cbn [height]. apply Nat.lt_succ_r.
  induction ents as [|[k x] ents IH]; [discriminate|].
  simpl in *. destruct (String.eqb k c).
  - inversion H; subst. apply Nat.le_max_l.
  - etransitivity; [exact (IH H) | apply Nat.le_max_r].
Qed.

Lemma height_lookup p : forall n m,
  lookup p n = Some m -> height m <= height n.
Proof.
  induction p as [|c p IH]; intros n m H.
  - simpl in H. inversion H. reflexivity.
  - destruct n as [|ents]; [discriminate|]. cbn [lookup] in H.
    destruct (assoc c ents) as [x|] eqn:A; [|discriminate].
    pose proof (height_child c ents x A). pose proof (IH x m H). lia.
Qed.

Lemma assoc_names c ents m : assoc c ents = Some m -> In c (map fst ents).
Proof.
  intros H. apply assoc_In in H. apply (in_map fst) in H. exact H.
Qed.


Lemma clean_tree_assoc c ents m :
  clean_tree (Dir ents) = true -> assoc c ents = Some m ->
  clean c = true /\ clean_tree m = true.
Proof.
  cbn [clean_tree]. intros H A. apply assoc_In in A.
  rewrite forallb_forall in H. specialize (H (c, m) A).
  now apply andb_true_iff in H.
Qed.

Lemma clean_tree_lookup p : forall n m,
  clean_tree n = true -> lookup p n = Some m ->
  forallb clean p = true /\ clean_tree m = true.
Proof.
  induction p as [|c p IH]; intros n m Hc H.
  - simpl in H. inversion H; subst. now split.
  - destruct n as [|ents]; [discriminate|]. cbn [lookup] in H.
    destruct (assoc c ents) as [x|] eqn:A; [|discriminate].
    destruct (clean_tree_assoc c ents x Hc A) as [H1 H2].
    destruct (IH x m H2 H) as [H3 H4]. cbn [forallb]. now rewrite H1, H3.
Qed.

Lemma clean_concat p :
  forallb clean p = true -> clean (String.concat "/" p) = true.
Proof.
  induction p as [|c p IH]; [reflexivity|].
  cbn [forallb]. intros H. apply andb_true_iff in H as [Hc Hp].
  destruct p as [|c' p]; [exact Hc|].
  change (String.concat "/" (c :: c' :: p))
    with (c ++ "/" ++ String.concat "/" (c' :: p))%string.
  unfold clean in *. rewrite !forallb_sapp, Hc, (IH Hp). reflexivity.
Qed.

Lemma clean_render p : forallb clean p = true -> clean (render p) = true.
Proof.
  destruct p as [|c p]; [reflexivity|]. exact (clean_concat (c :: p)).
Qed.

End Shape.

(** * [add] on directories *)

Section AddScan.

Variable st : node.

(** The first loop of [add]: the directories are set aside in order, and the
    regular files not yet in the list are appended to it and written. *)
Lemma add_scan_spec files : forall acc dirs0 w,
  exists new,
    add_scan st files acc dirs0 w
    = (acc ++ new, dirs0 ++ filter (fun f => isdir f st) files,
       (w ++ unlines new)%string) /\
    (forall line, In line new ->
       exists f, In f files /\ isfile f st = true /\ line = render f) /\
    (forall f, In f files -> isfile f st = true -> In (render f) (acc ++ new)).
Proof.
  induction files as [|file files IH]; intros acc dirs0 w.
  - exists []. cbn [add_scan filter unlines].
    rewrite !app_nil_r, sapp_nil_r. split; [reflexivity|].
    split; [intros line [] | intros f []].
  - cbn [add_scan filter]. unfold isdir at 1.
    destruct (lookup file st) as [[x|ents]|] eqn:L.
    + destruct (mem (render file) acc) eqn:Hm.
      * destruct (IH acc dirs0 w) as [new [E [H1 H2]]].
        exists new. split; [exact E | split].
        -- intros line Hl. destruct (H1 line Hl) as [f [Hf Hr]].
           exists f. split; [now right | exact Hr].
        -- intros f [<-|Hf] Hfile.
           ++ apply in_or_app. left. now apply mem_In.
           ++ exact (H2 f Hf Hfile).
      * destruct (IH (acc ++ [render file]) dirs0
                    (w ++ render file ++ String LF "")%string)
          as [new [E [H1 H2]]].
        exists (render file :: new). split; [|split].
        -- rewrite E. cbn [unlines].
           rewrite <- app_assoc. cbn [app].
           rewrite !sapp_assoc. reflexivity.
        -- intros line [<-|Hl].
           ++ exists file. split; [now left|]. split; [|reflexivity].
              unfold isfile. now rewrite L.
           ++ destruct (H1 line Hl) as [f [Hf Hr]].
              exists f. split; [now right | exact Hr].
        -- intros f [<-|Hf] Hfile.
           ++ apply in_or_app. right. now left.
           ++ specialize (H2 f Hf Hfile).
              rewrite <- app_assoc in H2. exact H2.
    + destruct (IH acc (dirs0 ++ [file]) w) as [new [E [H1 H2]]].
      exists new. split; [|split].
      * rewrite E, <- app_assoc. reflexivity.
      * intros line Hl. destruct (H1 line Hl) as [f [Hf Hr]].
        exists f. split; [now right | exact Hr].
      * intros f [<-|Hf] Hfile.
        -- unfold isfile in Hfile. rewrite L in Hfile. discriminate.
        -- exact (H2 f Hf Hfile).
    + destruct (IH acc dirs0 w) as [new [E [H1 H2]]].
      exists new. split; [exact E | split].
      * intros line Hl. destruct (H1 line Hl) as [f [Hf Hr]].
        exists f. split; [now right | exact Hr].
      * intros f [<-|Hf] Hfile.
        -- unfold isfile in Hfile. rewrite L in Hfile. discriminate.
        -- exact (H2 f Hf Hfile).
Qed.

End AddScan.

Section AddSubdirs.

Variable st0 : node.
Variable rec : list path -> node -> option (outcome unit).
Variable bound : nat.

Hypothesis Hrec : forall files st ls,
  staging st ls -> shape st = shape st0 ->
  (forall f m, In f files -> lookup f st0 = Some m -> height m <= bound) ->
  staged_by st0 ls files (rec files st).

(** The second loop of [add], given what the recursive call does. *)
Lemma add_subdirs_spec dirs : forall st ls,
  staging st ls -> shape st = shape st0 ->
  (forall dir, In dir dirs ->
     exists ents, lookup dir st0 = Some (Dir ents) /\
                  height (Dir ents) <= S bound) ->
  staged_by st0 ls dirs (add_subdirs rec dirs st).
Proof.
  induction dirs as [|dir rest IH]; intros st ls Hst Hsh Hdirs.
  - exists st, ls. split; [reflexivity | split; [exact Hst | split; [exact Hsh|]]].
    intros line. split; [now left|].
    intros [H|[f [rel [[] _]]]]. exact H.
  - destruct (Hdirs dir (or_introl eq_refl)) as [ents [L0 Hh]].
    destruct (same_shape_dir st0 st dir ents Hsh L0) as [ents' [L Hents]].
    pose proof (shape_entries_names ents ents' Hents) as Hnames.
    cbn [add_subdirs]. unfold listdir. rewrite L.
    destruct (Hrec (map (fun f => dir ++ [f]) (map fst ents')) st ls Hst Hsh)
      as [sta [lsa [Ra [Hsta [Hsha Hla]]]]].
    { intros f m Hf Hm. apply in_map_iff in Hf as [name [<- Hname]].
      rewrite lookup_app, L0 in Hm. cbn [lookup] in Hm.
      destruct (assoc name ents) as [x|] eqn:A; [|discriminate].
      inversion Hm; subst x.
      pose proof (height_child name ents m A). lia. }
    rewrite Ra.
    destruct (IH sta lsa Hsta Hsha) as [st' [ls' [R [Hst' [Hsh' Hl']]]]].
    { intros d Hd. apply Hdirs. now right. }
    exists st', ls'. split; [exact R | split; [exact Hst' | split; [exact Hsh'|]]].
    intros line. rewrite Hl', Hla. split.
    + intros [[H|[f [rel [Hf [Hfile ->]]]]]|[d [rel [Hd [Hfile ->]]]]].
      * now left.
      * right. apply in_map_iff in Hf as [name [<- Hname]].
        exists dir, (name :: rel). rewrite <- app_assoc in *. cbn [app] in *.
        split; [now left | split; [exact Hfile | reflexivity]].
      * right. exists d, rel. split; [now right | split; [exact Hfile | reflexivity]].
    + intros [H|[d [rel [[<-|Hd] [Hfile ->]]]]].
      * left. now left.
      * left. right. destruct rel as [|c rel].
        { rewrite app_nil_r in Hfile. unfold isfile in Hfile.
          rewrite L0 in Hfile. discriminate. }
        exists (dir ++ [c]), rel. rewrite <- app_assoc. cbn [app].
        split; [|split; [exact Hfile | reflexivity]].
        apply (in_map (fun f => dir ++ [f])). rewrite Hnames.
        unfold isfile in Hfile. rewrite lookup_app, L0 in Hfile.
        cbn [lookup] in Hfile.
        destruct (assoc c ents) as [x|] eqn:A; [|discriminate].
        exact (assoc_names c ents x A).
      * right. exists d, rel. split; [exact Hd | split; [exact Hfile | reflexivity]].
Qed.

End AddSubdirs.

Section AddFuel.

Variable st0 : node.
Hypothesis Hclean : clean_tree st0 = true.

Lemma same_shape_isdir st p :
  shape st = shape st0 -> isdir p st = isdir p st0.
Proof.
  intros E. pose proof (same_shape_lookup st0 st p E) as H. unfold isdir.
  destruct (lookup p st) as [[x|ents]|], (lookup p st0) as [[y|ents']|];
    simpl in H; congruence.
Qed.

(** One call of [add], given what its second loop does. *)
Lemma add_round n files st ls :
  staging st ls -> shape st = shape st0 ->
  (forall st1 ls1,
     staging st1 ls1 -> shape st1 = shape st0 ->
     staged_by st0 ls1 (filter (fun f => isdir f st0) files)
       (add_subdirs (add_fuel n) (filter (fun f => isdir f st0) files) st1)) ->
  staged_by st0 ls files (add_fuel (S n) files st).
Proof.
  intros [Hc Hcl] Hsh Hsub.
  assert (T : toCommitList st = Done ls st).
  { rewrite (toCommitList_content st _ Hc).
    now rewrite (universal_newlines_unlines ls Hcl), (splitlines_unlines ls Hcl). }
  destruct (add_scan_spec st files ls [] "") as [new [E [N1 N2]]].
  cbn [app] in E.
  rewrite (filter_ext _ (fun f => isdir f st0)
             (fun f => same_shape_isdir st f Hsh)) in E.
  destruct (append_file_run to_commit_path (unlines ls)
              ("" ++ unlines new) st Hc) as [st1 [A [P C]]].
  assert (Hnew : forallb clean new = true).
  { apply forallb_forall. intros line Hl.
    destruct (N1 line Hl) as [f [_ [Hf ->]]].
    apply clean_render. unfold isfile in Hf.
    destruct (lookup f st) as [m|] eqn:Lf; [|discriminate].
    refine (proj1 (clean_tree_lookup f st m _ Lf)).
    now rewrite <- clean_tree_shape, Hsh, clean_tree_shape. }
  assert (Hst1 : staging st1 (ls ++ new)).
  { split; [|now rewrite forallb_app, Hcl, Hnew].
    rewrite C. f_equal. now rewrite unlines_app. }
  assert (Hsh1 : shape st1 = shape st0).
  { rewrite <- Hsh.
    exact (put_shape to_commit_path _ _ st st1 P
             (proj1 (content_lookup _ _ _) Hc) eq_refl). }
  cbn [add_fuel]. rewrite T, E, A.
  destruct (Hsub st1 (ls ++ new) Hst1 Hsh1) as [st' [ls' [R [Hst' [Hsh' Hl']]]]].
  exists st', ls'. split; [exact R | split; [exact Hst' | split; [exact Hsh'|]]].
  intros line. rewrite Hl', in_app_iff. split.
  - intros [[H|H]|[d [rel [Hd [Hfile ->]]]]].
    + now left.
    + right. destruct (N1 line H) as [f [Hf [Hfile ->]]].
      exists f, []. rewrite app_nil_r.
      rewrite (same_shape_isfile st0 st f Hsh) in Hfile.
      split; [exact Hf | split; [exact Hfile | reflexivity]].
    + right. apply filter_In in Hd as [Hd _].
      exists d, rel. split; [exact Hd | split; [exact Hfile | reflexivity]].
  - intros [H|[f [rel [Hf [Hfile ->]]]]]; [left; now left|].
    destruct rel as [|c rel].
    + left. rewrite app_nil_r in *. apply in_app_iff. apply N2; [exact Hf|].
      now rewrite (same_shape_isfile st0 st f Hsh).
    + right. exists f, (c :: rel).
      split; [|split; [exact Hfile | reflexivity]].
      apply filter_In. split; [exact Hf|].
      unfold isfile in Hfile.
      destruct (lookup (f ++ c :: rel) st0) as [m|] eqn:L; [|discriminate].
      exact (lookup_parent_dir f c rel st0 m L).
Qed.

(** One call of [add] with enough fuel for the directories below [files]. *)
Lemma add_fuel_spec n : forall files st ls,
  staging st ls -> shape st = shape st0 ->
  (forall f m, In f files -> lookup f st0 = Some m -> height m <= n) ->
  staged_by st0 ls files (add_fuel (S n) files st).
Proof.
  induction n as [|n IHn]; intros files st ls Hst Hsh Hbound;
    apply add_round; try assumption; intros st1 ls1 Hst1 Hsh1.
  - (* no fuel for a recursive call: there is no directory to enter *)
    assert (D : filter (fun f => isdir f st0) files = []).
    { destruct (filter (fun f => isdir f st0) files) as [|d ds] eqn:F;
        [reflexivity|].
      assert (Hd : In d (filter (fun f => isdir f st0) files))
        by (rewrite F; now left).
      apply filter_In in Hd as [Hd Hdir]. unfold isdir in Hdir.
      destruct (lookup d st0) as [[x|ents]|] eqn:L; try discriminate.
      specialize (Hbound d (Dir ents) Hd L). cbn [height] in Hbound. lia. }
    rewrite D. exists st1, ls1.
    split; [reflexivity | split; [exact Hst1 | split; [exact Hsh1|]]].
    intros line. split; [now left|].
    intros [H|[f [rel [[] _]]]]. exact H.
  - apply (add_subdirs_spec st0 (add_fuel (S n)) n IHn); try assumption.
    intros dir Hd. apply filter_In in Hd as [Hd Hdir]. unfold isdir in Hdir.
    destruct (lookup dir st0) as [[x|ents]|] eqn:L; try discriminate.
    exists ents. split; [reflexivity|]. exact (Hbound dir (Dir ents) Hd L).
Qed.

End AddFuel.

(** * The recursion of [add] ends

    The bound [S (height st)] given to [add_fuel] in [add] is never reached:
    whatever the tree and the arguments, the call ends, with a result or an
    exception, and changes the contents of files only. *)

Section AddTotal.

Variable st0 : node.

Lemma add_subdirs_total rec bound :
  (forall files st,
     shape st = shape st0 ->
     (forall f m, In f files -> lookup f st0 = Some m -> height m <= bound) ->
     exists o, rec files st = Some o /\ shape (final o) = shape st0) ->
  forall dirs st,
    shape st = shape st0 ->
    (forall dir, In dir dirs ->
       exists ents, lookup dir st0 = Some (Dir ents) /\
                    height (Dir ents) <= S bound) ->
    exists o, add_subdirs rec dirs st = Some o /\ shape (final o) = shape st0.
Proof.
  intros Hrec. induction dirs as [|dir rest IH]; intros st Hsh Hdirs.
  - exists (Done tt st). now split.
  - destruct (Hdirs dir (or_introl eq_refl)) as [ents [L0 Hh]].
    destruct (same_shape_dir st0 st dir ents Hsh L0) as [ents' [L _]].
    cbn [add_subdirs]. unfold listdir. rewrite L.
    destruct (Hrec (map (fun f => dir ++ [f]) (map fst ents')) st Hsh)
      as [o [R Ho]].
    { intros f m Hf Hm. apply in_map_iff in Hf as [name [<- Hname]].
      rewrite lookup_app, L0 in Hm. cbn [lookup] in Hm.
      destruct (assoc name ents) as [x|] eqn:A; [|discriminate].
      inversion Hm; subst x.
      pose proof (height_child name ents m A). lia. }
    rewrite R. destruct o as [[] s|e s].
    + apply (IH s Ho). intros d Hd. apply Hdirs. now right.
    + exists (Raise e s). now split.
Qed.

Lemma add_fuel_total n : forall files st,
  shape st = shape st0 ->
  (forall f m, In f files -> lookup f st0 = Some m -> height m <= n) ->
  exists o, add_fuel (S n) files st = Some o /\ shape (final o) = shape st0.
Proof.
  induction n as [|n IHn]; intros files st Hsh Hbound.
  all: cbn [add_fuel].
  all: destruct (toCommitList st) as [ls s|e s] eqn:T;
    [apply toCommitList_inv in T as [Es [tc [Htc _]]]; subst s
    | unfold toCommitList, bind in T;
      destruct (read_text to_commit_path st) as [t s'|e' s'] eqn:R;
      [discriminate|];
      exists (Raise e s); split; [reflexivity|];
      assert (Es : s' = st)
        by (unfold read_text in R;
            destruct (lookup to_commit_path st) as [[x|y]|];
            inversion R; reflexivity);
      inversion T; subst s; simpl; now rewrite Es].
  all: destruct (add_scan_spec st files ls [] "") as [new [E _]].
  all: cbn [app] in E; rewrite E.
  all: destruct (append_file_run to_commit_path tc ("" ++ unlines new) st Htc)
    as [st1 [A [P _]]].
  all: rewrite A.
  all: assert (Hsh1 : shape st1 = shape st0)
    by (rewrite <- Hsh;
        exact (put_shape to_commit_path _ _ st st1 P
                 (proj1 (content_lookup _ _ _) Htc) eq_refl)).
  all: rewrite (filter_ext _ (fun f => isdir f st0)
                  (fun f => same_shape_isdir st0 st f Hsh)).
  - destruct (filter (fun f => isdir f st0) files) as [|d ds] eqn:F.
    + exists (Done tt st1). now split.
    + exfalso.
      assert (Hd : In d (filter (fun f => isdir f st0) files))
        by (rewrite F; now left).
      apply filter_In in Hd as [Hd Hdir]. unfold isdir in Hdir.
      destruct (lookup d st0) as [[x|ents]|] eqn:L; try discriminate.
      specialize (Hbound d (Dir ents) Hd L). cbn [height] in Hbound. lia.
  - apply (add_subdirs_total (add_fuel (S n)) n IHn); [exact Hsh1|].
    intros dir Hd. apply filter_In in Hd as [Hd Hdir]. unfold isdir in Hdir.
    destruct (lookup dir st0) as [[x|ents]|] eqn:L; try discriminate.
    exists ents. split; [reflexivity|]. exact (Hbound dir (Dir ents) Hd L).
Qed.

End AddTotal.

(** [add] always ends within its bound. *)
Lemma add_total (files : list path) (st : node) :
  exists o, add_fuel (S (height st)) files st = Some o /\
            add files st = o /\
            shape (final o) = shape st.
Proof.
  destruct (add_fuel_total st (height st) files st eq_refl) as [o [R Ho]].
  { intros f m _ L. exact (height_lookup f st m L). }
  exists o. unfold add. rewrite R. now repeat split.
Qed.

(** C2 fails on the code.  [add] lists a directory with [os.listdir] and has
    no test on the first character of a name, where [allFiles] skips the
    names that begin with a dot: [add] on the directory [d] stages the
    hidden file [d/.env] and the file [d/.cache/obj] of a hidden
    directory. *)
Lemma add_stages_hidden_entries :
  exists st',
    add [["d"]] Example3.initialised = Done tt st' /\
    toCommitList st' = Done ["d/x.txt"; "d/.env"; "d/.cache/obj"] st' /\
    hidden ".env" = true /\
    hidden ".cache" = true /\
    isfile ["d"; ".env"] Example3.initialised = true /\
    isfile ["d"; ".cache"; "obj"] Example3.initialised = true.
Proof.
  eexists. split; [vm_compute; reflexivity|].
  repeat split; vm_compute; reflexivity.
Qed.

(** What [add] does on a directory: it stages the regular files below it,
    at every depth and whatever their names.  After the call the staging
    list holds the lines it held and the path of every regular file below
    the directory, the names that begin with a dot included, and no other
    line. *)
Theorem add_directory_stages_every_file (st : node) (ls : list string)
    (d : path) :
  staging st ls ->
  clean_tree st = true ->
  isdir d st = true ->
  exists st' ls',
    add [d] st = Done tt st' /\
    toCommitList st' = Done ls' st' /\
    (forall line,
        In line ls' <->
        In line ls \/
        exists rel, isfile (d ++ rel) st = true /\ line = render (d ++ rel)) /\
    (forall p, isfile p st' = isfile p st) /\
    (forall p, isdir p st' = isdir p st).
Proof.
  intros Hst Hclean Hd.
  destruct (add_fuel_spec st Hclean (height st) [d] st ls Hst eq_refl)
    as [st' [ls' [R [[Hc Hcl] [Hsh Hl]]]]].
  { intros f m _ L. exact (height_lookup f st m L). }
  exists st', ls'. unfold add. rewrite R.
  split; [reflexivity | split; [|split; [|split]]].
  - rewrite (toCommitList_content st' _ Hc).
    now rewrite (universal_newlines_unlines ls' Hcl), (splitlines_unlines ls' Hcl).
  - intros line. rewrite Hl. split.
    + intros [H|[f [rel [[<-|[]] [Hfile ->]]]]]; [now left|].
      right. now exists rel.
    + intros [H|[rel [Hfile ->]]]; [now left|].
      right. exists d, rel. split; [now left | now split].
  - intros p. exact (same_shape_isfile st st' p Hsh).
  - intros p. exact (same_shape_isdir st st' p Hsh).
Qed.

Lemma add_directory_stages_every_file_witness :
  exists st' ls',
    add [["d"]] Example3.initialised = Done tt st' /\
    toCommitList st' = Done ls' st' /\
    (forall line,
        In line ls' <->
        In line [] \/
        exists rel, isfile (["d"] ++ rel) Example3.initialised = true /\
                    line = render (["d"] ++ rel)) /\
    (forall p, isfile p st' = isfile p Example3.initialised) /\
    (forall p, isdir p st' = isdir p Example3.initialised).
Proof.
  apply (add_directory_stages_every_file Example3.initialised [] ["d"]).
  - split; reflexivity.
  - reflexivity.
  - reflexivity.
Defined.

(** C1 fails on the code.  [generateDirTree] calls [os.makedirs] on the path
    of the new file itself, so the first file copied into a directory the
    snapshot does not have yet lands one level too deep: with [sub/a.txt]
    staged, the snapshot has a directory at [sub/a.txt], holding the copy as
    [sub/a.txt/a.txt], and no regular file at [sub/a.txt]. *)
Theorem snapshot_of_nested_path_is_a_directory :
  exists staged st',
    add [["sub"; "a.txt"]] Example.initialised = Done tt staged /\
    commit Example.id1 staged = Done tt st' /\
    trackedList Example.id1 st' = Done ["sub/a.txt"] st' /\
    content ["sub"; "a.txt"] st' = Some "x" /\
    lookup (commit_dir_path Example.id1 ++ ["sub"; "a.txt"]) st'
    = Some (Dir [("a.txt", File "x")]) /\
    content (commit_dir_path Example.id1 ++ ["sub"; "a.txt"]) st' = None.
Proof.
  eexists. eexists. split; [vm_compute; reflexivity|].
  split; [vm_compute; reflexivity|].
  repeat split; vm_compute; reflexivity.
Qed.

(** * The snapshot of files at the top of the working tree *)

Section TopLevel.

Variable h : string.
Let D : path := commit_dir_path h.

Lemma comparable_app_same (p a b : path) :
  comparable (p ++ a) (p ++ b) = comparable a b.
Proof.
  induction p as [|c p IH]; [reflexivity|].
  cbn [app comparable]. now rewrite String.eqb_refl, IH.
Qed.

Lemma top_not_snapshot (n name : string) : [n] <> D ++ [name].
Proof. discriminate. Qed.

(** The loop of [generateDirTree] on lines that name files at the top of the
    working tree: no directory is made, each file is copied to the same name
    in the snapshot, and a copy once made stays the copy of its file. *)
Lemma copy_files_top files : forall s s',
  isdir D s = true ->
  (forall name, isdir (D ++ [name]) s = false) ->
  (forall f, In f files -> exists name, resolve [] f = Some [name]) ->
  copy_files D files s = Done tt s' ->
  (forall n data, content [n] s = Some data -> content [n] s' = Some data) /\
  (forall n data,
      content [n] s = Some data -> content (D ++ [n]) s = Some data ->
      content (D ++ [n]) s' = Some data) /\
  (forall f name,
      In f files -> resolve [] f = Some [name] ->
      exists data, content [name] s = Some data /\
                   content (D ++ [name]) s' = Some data).
Proof.
  induction files as [|f rest IH]; intros s s' HD Hnd Hflat H.
  - simpl in H. inversion H; subst.
    split; [auto | split; [auto|]]. intros f name [].
  - destruct (Hflat f (or_introl eq_refl)) as [name Rf].
    cbn [copy_files] in H. rewrite (resolve_extend D f [name] Rf) in H.
    unfold bind in H at 1.
    unfold dirname in H. rewrite removelast_last, HD in H. simpl negb in H.
    cbv iota in H. unfold bind in H at 1. unfold copy2 in H.
    rewrite Rf, (Hnd name) in H.
    destruct (list_eq_dec string_dec [name] (D ++ [name])) as [E|_];
      [discriminate E|].
    unfold bind in H at 1. unfold read_bytes in H.
    destruct (lookup [name] s) as [[data|ents]|] eqn:L; try discriminate.
    destruct (write_file (D ++ [name]) data s) as [[] s1|] eqn:W;
      [|discriminate].
    apply write_file_inv in W.
    assert (HD1 : isdir D s1 = true)
      by exact (isdir_put_above D name [] _ _ _ W).
    assert (Hnd1 : forall n, isdir (D ++ [n]) s1 = false).
    { intros n. unfold isdir.
      destruct (String.eqb_spec name n) as [<-|Hne].
      - now rewrite (lookup_put_here _ _ _ _ W).
      - rewrite (lookup_put_frame _ _ _ _ (D ++ [n]) W).
        + exact (Hnd n).
        + rewrite comparable_app_same. cbn [comparable].
          destruct (String.eqb_spec name n); [contradiction | reflexivity]. }
    assert (Work : forall n d, content [n] s = Some d -> content [n] s1 = Some d).
    { intros n d Hn.
      apply (put_keeps (D ++ [name]) _ s s1 [n] d W (Hnd name) Hn).
      apply top_not_snapshot. }
    assert (Lname : content (D ++ [name]) s1 = Some data).
    { apply content_lookup. exact (lookup_put_here _ _ _ _ W). }
    destruct (IH s1 s' HD1 Hnd1) as [I1 [I2 I3]].
    { intros g Hg. apply Hflat. now right. }
    { exact H. }
    split; [|split].
    + intros n d Hn. exact (I1 n d (Work n d Hn)).
    + intros n d Hn Hc. apply (I2 n d (Work n d Hn)).
      destruct (String.eqb_spec name n) as [<-|Hne].
      * apply content_lookup in Hn. rewrite L in Hn. inversion Hn; subst.
        exact Lname.
      * apply (put_keeps (D ++ [name]) _ s s1 (D ++ [n]) d W (Hnd name) Hc).
        intros E. apply app_inv_head in E. inversion E. congruence.
    + intros g gname [<-|Hg] Rg.
      * rewrite Rf in Rg. inversion Rg; subst gname.
        exists data. split; [now apply content_lookup|].
        apply (I2 name data); [|exact Lname].
        apply Work. now apply content_lookup.
      * destruct (I3 g gname Hg Rg) as [d [Hd1 Hd']].
        exists d. split; [|exact Hd'].
        apply (put_file_before (D ++ [name]) data s s1 [gname] d W);
          [apply top_not_snapshot | exact Hd1].
Qed.

End TopLevel.

(** Snapshot fidelity for files at the top of the working tree.  When every
    line of the staging list names a file of the top directory, a run of
    [commit] that returns leaves, for each of them, a regular file of the same
    name in the snapshot directory, with the bytes the working file had when
    the commit began (and still has). *)
Theorem snapshot_of_top_level_files (h : string) (st st' : node)
    (ls : list string) :
  uuid4_hex h = true ->
  toCommitList st = Done ls st ->
  (forall l, In l ls -> exists name, resolve [] l = Some [name]) ->
  commit h st = Done tt st' ->
  trackedList h st' = Done ls st' /\
  forall l name,
    In l ls -> resolve [] l = Some [name] ->
    exists data,
      content [name] st = Some data /\
      content [name] st' = Some data /\
      content (commit_dir_path h ++ [name]) st' = Some data.
Proof.
  intros Hu T Hflat H.
  destruct (uuid4_hex_token h Hu) as [Hread Hne].
  destruct (commit_done_initialised h st st' H) as [[[hd Hhd] [tc Htc]] Hfresh].
  destruct (commit_record_run h st hd tc Hhd Htc Hfresh)
    as [st1 [R [H1 [H2 [H3 [H4 [H5 Out]]]]]]].
  assert (E : commit h st = commit_snapshot st1).
  { rewrite commit_split. unfold path_exists. rewrite Hfresh.
    unfold bind. now rewrite R. }
  rewrite E in H.
  rewrite (toCommitList_content st tc Htc) in T.
  assert (Els : splitlines (universal_newlines tc) = ls) by congruence.
  clear T.
  unfold commit_snapshot, bind in H.
  rewrite (toCommitList_content st1 tc H4), Els in H.
  unfold generateDirTree, bind in H.
  rewrite (lastCommitHash_content st1 h H1), Hread, Hne in H. simpl in H.
  rewrite (lastCommitHash_content st1 h H1), Hread in H.
  destruct (copy_files_top h ls st1 st') as [I1 [_ I3]]; try assumption.
  { unfold isdir. now rewrite H5. }
  { intros name. unfold isdir. rewrite lookup_app, H5. reflexivity. }
  split.
  - unfold trackedList, bind.
    rewrite (read_text_content (tracked_path h) st' (universal_newlines tc)).
    + unfold ret. now rewrite universal_newlines_twice, Els.
    + pose proof (keeps_copy_files (tracked_path h) (commit_dir_path h) ls
                    (not_below_tracked h h) st1 _ H3) as K.
      rewrite H in K. exact K.
  - intros l name Hl Rl.
    destruct (I3 l name Hl Rl) as [data [Hd1 Hd']].
    exists data. split; [|split; [exact (I1 name data Hd1) | exact Hd']].
    unfold content in *. rewrite <- (Out [name]); [exact Hd1|].
    cbn [comparable].
    destruct (String.eqb_spec REPO_DIR name) as [<-|]; [|reflexivity].
    exfalso. apply content_lookup in H1.
    pose proof (lookup_parent_dir [REPO_DIR] HEAD [] st1 _ H1) as Dr.
    unfold isdir in Dr. destruct (lookup [REPO_DIR] st1) as [[x|y]|];
      discriminate.
Qed.

Lemma snapshot_of_top_level_files_witness :
  commit Example.id1 Example.b_added = Done tt Example.b_committed /\
  trackedList Example.id1 Example.b_committed
  = Done ["b.txt"] Example.b_committed /\
  forall l name,
    In l ["b.txt"] -> resolve [] l = Some [name] ->
    exists data,
      content [name] Example.b_added = Some data /\
      content [name] Example.b_committed = Some data /\
      content (commit_dir_path Example.id1 ++ [name]) Example.b_committed
      = Some data.
Proof.
  assert (H : commit Example.id1 Example.b_added = Done tt Example.b_committed)
    by (vm_compute; reflexivity).
  split; [exact H|].
  apply (snapshot_of_top_level_files Example.id1 Example.b_added
           Example.b_committed ["b.txt"]).
  - reflexivity.
  - reflexivity.
  - intros l [<-|[]]. exists "b.txt". reflexivity.
  - exact H.
Defined.

(** * The chain of commits *)

Section Chain.

Lemma chain_unique st id n :
  chain st id n -> forall m, chain st id m -> m = n.
Proof.
  induction 1 as [|id prev n Hne Hprev _ IH]; intros m Hm.
  - inversion Hm; subst; [reflexivity | discriminate].
  - inversion Hm; subst; [discriminate|].
    f_equal. apply IH. congruence.
Qed.

Lemma follow_chain fuel : forall st id n,
  follow fuel st id = Some n -> chain st id n.
Proof.
  induction fuel as [|fuel IH]; intros st id n H; simpl in H.
  - destruct (nonempty id) eqn:E; [discriminate|].
    inversion H; subst. destruct id; [constructor | discriminate].
  - destruct (nonempty id) eqn:E.
    + destruct (content (prev_path id) st) as [prev|] eqn:P; [|discriminate].
      destruct (follow fuel st prev) as [k|] eqn:F; [|discriminate].
      inversion H; subst. exact (@chain_link st id prev k E P (IH st prev k F)).
    + inversion H; subst. destruct id; [constructor | discriminate].
Qed.

Lemma linked_chain st ids :
  forallb uuid4_hex ids = true -> linked st ids ->
  chain st (hd EmptyString ids) (length ids).
Proof.
  induction ids as [|id rest IH]; intros Hu Hl; [constructor|].
  cbn [forallb] in Hu. apply andb_true_iff in Hu as [Hid Hrest].
  destruct Hl as [Hp Hl]. cbn [hd length].
  apply (@chain_link st id (hd EmptyString rest) (length rest)
           (proj2 (uuid4_hex_token id Hid)) Hp).
  exact (IH Hrest Hl).
Qed.

Lemma history_head st ids :
  history st ids -> lastCommitHash st = Done (hd EmptyString ids) st.
Proof.
  intros [Hh [_ [Hu _]]]. rewrite (lastCommitHash_content st _ Hh).
  destruct ids as [|id rest]; [reflexivity|].
  cbn [forallb] in Hu. apply andb_true_iff in Hu as [Hid _].
  cbn [hd]. now rewrite (proj1 (uuid4_hex_token id Hid)).
Qed.

(** [init] *)
Lemma init_history work st : init work = Done tt st -> history st [].
Proof.
  unfold init. destruct (path_exists [REPO_DIR] work); [discriminate|].
  unfold bind.
  destruct (mkdir [REPO_DIR] work) as [[] s1|] eqn:R1; [|discriminate].
  destruct (mknod head_path s1) as [[] s2|] eqn:R2; [|discriminate].
  intros R3. apply mknod_inv in R2 as [_ P2]. apply mknod_inv in R3 as [_ P3].
  assert (H3 : content to_commit_path st = Some EmptyString).
  { apply content_lookup. exact (lookup_put_here _ _ _ _ P3). }
  assert (H2 : content head_path st = Some EmptyString).
  { apply content_lookup.
    rewrite (lookup_put_frame _ _ _ _ head_path P3) by reflexivity.
    exact (lookup_put_here _ _ _ _ P2). }
  split; [exact H2 | split; [now exists EmptyString | split; reflexivity]].
Qed.

(** [add] writes to [TO_COMMIT] only. *)
Lemma add_subdirs_keeps q rec :
  (forall files st o, rec files st = Some o ->
     forall d, content q st = Some d -> content q (final o) = Some d) ->
  forall dirs st o, add_subdirs rec dirs st = Some o ->
    forall d, content q st = Some d -> content q (final o) = Some d.
Proof.
  intros Hrec. induction dirs as [|dir rest IH]; intros st o H d Hq.
  - simpl in H. inversion H; subst. exact Hq.
  - cbn [add_subdirs] in H. unfold listdir in H.
    destruct (lookup dir st) as [[x|ents]|];
      try (inversion H; subst; exact Hq).
    destruct (rec (map (fun f => dir ++ [f]) (map fst ents)) st)
      as [[[] s|e s]|] eqn:R; [| |discriminate].
    + apply (IH s o H d). exact (Hrec _ _ _ R d Hq).
    + inversion H; subst. exact (Hrec _ _ _ R d Hq).
Qed.

Lemma add_fuel_keeps q n : forall files st o,
  q <> to_commit_path ->
  add_fuel n files st = Some o ->
  forall d, content q st = Some d -> content q (final o) = Some d.
Proof.
  induction n as [|n IH]; intros files st o Hne H d Hq; [discriminate|].
  cbn [add_fuel] in H. unfold toCommitList, bind, ret in H.
  destruct (read_text to_commit_path st) as [text s|e s] eqn:R.
  - apply read_text_inv in R as [-> _].
    destruct (add_scan st files (splitlines text) [] "") as [[ls dirs] written].
    pose proof (keeps_append_file q to_commit_path written Hne st d Hq) as K.
    destruct (append_file to_commit_path written st) as [[] s1|e s1].
    + apply (add_subdirs_keeps q (add_fuel n)) with (dirs := dirs) (st := s1);
        [|exact H | exact K].
      intros fs s o' Ho d' Hd'. exact (IH fs s o' Hne Ho d' Hd').
    + inversion H; subst. exact K.
  - pose proof (keeps_read_text q to_commit_path st d Hq) as K.
    rewrite R in K. inversion H; subst. exact K.
Qed.

Lemma add_subdirs_file rec :
  (forall files st o tc, rec files st = Some o ->
     content to_commit_path st = Some tc ->
     exists more, content to_commit_path (final o) = Some (tc ++ more)%string) ->
  forall dirs st o tc, add_subdirs rec dirs st = Some o ->
    content to_commit_path st = Some tc ->
    exists more, content to_commit_path (final o) = Some (tc ++ more)%string.
Proof.
  intros Hrec. induction dirs as [|dir rest IH]; intros st o tc H Hq.
  - simpl in H. inversion H; subst. exists EmptyString.
    now rewrite sapp_nil_r.
  - cbn [add_subdirs] in H. unfold listdir in H.
    destruct (lookup dir st) as [[x|ents]|];
      try (inversion H; subst; exists EmptyString; now rewrite sapp_nil_r).
    destruct (rec (map (fun f => dir ++ [f]) (map fst ents)) st)
      as [[[] s|e s]|] eqn:R; [| |discriminate].
    + destruct (Hrec _ _ _ tc R Hq) as [m1 H1]. simpl in H1.
      destruct (IH s o _ H H1) as [m2 H2].
      exists (m1 ++ m2)%string. now rewrite <- sapp_assoc.
    + inversion H; subst. exact (Hrec _ _ _ tc R Hq).
Qed.

(** [add] only appends to the staging file. *)
Lemma add_fuel_file n : forall files st o tc,
  add_fuel n files st = Some o ->
  content to_commit_path st = Some tc ->
  exists more, content to_commit_path (final o) = Some (tc ++ more)%string.
Proof.
  induction n as [|n IH]; intros files st o tc H Hq; [discriminate|].
  cbn [add_fuel] in H.
  rewrite (toCommitList_content st tc Hq) in H.
  destruct (add_scan st files _ [] "") as [[ls dirs] written].
  destruct (append_file_run to_commit_path tc written st Hq) as [s1 [A [_ C]]].
  rewrite A in H.
  destruct (add_subdirs_file (add_fuel n) IH dirs s1 o _ H C) as [more Hm].
  exists (written ++ more)%string. now rewrite <- sapp_assoc.
Qed.

Lemma linked_keeps st st' ids :
  (forall id d, In id ids -> content (prev_path id) st = Some d ->
                content (prev_path id) st' = Some d) ->
  linked st ids -> linked st' ids.
Proof.
  induction ids as [|id rest IH]; intros K H; [exact I|].
  destruct H as [Hp Hl]. split.
  - exact (K id _ (or_introl eq_refl) Hp).
  - apply IH; [|exact Hl]. intros x d Hx. apply K. now right.
Qed.

Lemma add_history files st ids :
  history st ids -> history (final (add files st)) ids.
Proof.
  intros [Hh [Htc [Hu Hl]]]. unfold add.
  destruct (add_fuel (S (height st)) files st) as [o|] eqn:R.
  - split; [|split; [|split; [exact Hu|]]].
    + apply (add_fuel_keeps head_path (S (height st)) files st o);
        [discriminate | exact R | exact Hh].
    + destruct Htc as [tc Htc].
      destruct (add_fuel_file (S (height st)) files st o tc R Htc) as [more Hm].
      eauto.
    + apply (linked_keeps st); [|exact Hl]. intros id d _ Hd.
      apply (add_fuel_keeps (prev_path id) (S (height st)) files st o);
        [discriminate | exact R | exact Hd].
  - simpl. now repeat split.
Qed.

Lemma linked_exists st ids id :
  linked st ids -> In id ids -> lookup (commit_path id) st <> None.
Proof.
  induction ids as [|x rest IH]; intros H Hin; [destruct Hin|].
  destruct H as [Hp Hl]. destruct Hin as [->|Hin]; [|exact (IH Hl Hin)].
  apply content_lookup in Hp.
  change (prev_path id) with (commit_path id ++ [PREV_COMMIT]) in Hp.
  rewrite lookup_app in Hp. destruct (lookup (commit_path id) st); congruence.
Qed.

Lemma commit_history h st ids :
  history st ids -> uuid4_hex h = true ->
  path_exists (commit_path h) st = false ->
  history (final (commit h st)) (h :: ids).
Proof.
  intros [Hh [[tc Htc] [Hu Hl]]] Hid Hfresh.
  unfold path_exists in Hfresh.
  destruct (lookup (commit_path h) st) eqn:Hf; [discriminate|].
  destruct (commit_final h st _ tc Hh Htc Hf)
    as [_ [_ [_ [_ [_ [F1 [F2 [_ F4]]]]]]]].
  pose proof (history_head st ids (conj Hh (conj (ex_intro _ tc Htc) (conj Hu Hl))))
    as Hlast.
  apply lastCommitHash_inv in Hlast as [_ [d [Hd Hlast]]].
  rewrite Hh in Hd. inversion Hd; subst d. rewrite <- Hlast in F2.
  split; [exact F1 | split; [now exists tc | split; [|split; [exact F2|]]]].
  - cbn [forallb]. now rewrite Hid, Hu.
  - apply (linked_keeps st); [|exact Hl]. intros id d Hin Hp.
    apply (keeps_commit (prev_path id) h); try discriminate; try exact Hp.
    + intros E. inversion E; subst.
      exact (linked_exists st ids h Hl Hin Hf).
    + intros h'. apply not_below_prev.
Qed.

Lemma commit_refused h st :
  path_exists (commit_path h) st = true -> final (commit h st) = st.
Proof. intros H. rewrite commit_split, H. reflexivity. Qed.

Lemma edit_history st st' ids :
  same_repository st st' -> history st ids -> history st' ids.
Proof.
  intros S [Hh [[tc Htc] [Hu Hl]]].
  split; [|split; [exists tc|split; [exact Hu|]]].
  - unfold head_path. now rewrite (same_repository_content st st' _ S).
  - unfold to_commit_path. now rewrite (same_repository_content st st' _ S).
  - apply (linked_keeps st); [|exact Hl]. intros id d _ Hp.
    unfold prev_path. now rewrite (same_repository_content st st' _ S).
Qed.

Lemma reachable_history st n :
  reachable st n -> exists ids, length ids = n /\ history st ids.
Proof.
  induction 1 as [work st Hi | st n files _ [ids [Hn Hh]]
                 | st n h _ [ids [Hn Hh]] Hid Hfresh _
                 | st n h _ [ids [Hn Hh]] Hid Hold
                 | st st' n _ [ids [Hn Hh]] S].
  - exists []. split; [reflexivity | exact (init_history work st Hi)].
  - exists ids. split; [exact Hn | exact (add_history files st ids Hh)].
  - exists (h :: ids). split; [simpl; now rewrite Hn|].
    exact (commit_history h st ids Hh Hid Hfresh).
  - exists ids. split; [exact Hn|]. now rewrite (commit_refused h st Hold).
  - exists ids. split; [exact Hn | exact (edit_history st st' ids S Hh)].
Qed.

End Chain.

(** Chain integrity while the staged lines name paths of the tree.  In
    every tree reached from [init] by calls of [add] on paths below
    [repoPath], calls of [commit] run when every staged line names a path of
    the tree, and changes of the working tree, following the [PREV_COMMIT]
    links from the value of [HEAD] meets the record of a commit at each step
    and comes to the empty predecessor after exactly as many steps as commits
    were created. *)
Theorem chain_integrity (st : node) (n : nat) :
  reachable st n ->
  exists id,
    lastCommitHash st = Done id st /\
    chain st id n /\
    (forall m, chain st id m -> m = n).
Proof.
  intros H. destruct (reachable_history st n H) as [ids [Hn Hh]].
  exists (hd EmptyString ids).
  assert (C : chain st (hd EmptyString ids) n).
  { rewrite <- Hn. destruct Hh as [_ [_ [Hu Hl]]].
    exact (linked_chain st ids Hu Hl). }
  split; [exact (history_head st ids Hh) | split; [exact C|]].
  exact (chain_unique st _ n C).
Qed.

Lemma chain_integrity_witness :
  reachable Example2.second 2 /\
  follow 2 Example2.second Example.id2 = Some 2 /\
  exists id,
    lastCommitHash Example2.second = Done id Example2.second /\
    chain Example2.second id 2 /\
    (forall m, chain Example2.second id m -> m = 2).
Proof.
  assert (R : reachable Example2.second 2).
  { apply (@reach_commit Example.c_added 1 Example.id2);
      [|reflexivity|reflexivity|].
    2:{ intros tc line Htc Hl. vm_compute in Htc. inversion Htc; subst tc.
        vm_compute in Hl. destruct Hl as [<-|[<-|[]]]; eexists; reflexivity. }
    apply (@reach_add Example.b_committed 1 [["c.txt"]]).
    apply (@reach_commit Example.b_added 0 Example.id1);
      [|reflexivity|reflexivity|].
    2:{ intros tc line Htc Hl. vm_compute in Htc. inversion Htc; subst tc.
        vm_compute in Hl. destruct Hl as [<-|[]]; eexists; reflexivity. }
    apply (@reach_add Example.initialised 0 [["b.txt"]]).
    apply (@reach_init Example.work). reflexivity. }
  split; [exact R | split; [reflexivity|]].
  exact (chain_integrity Example2.second 2 R).
Defined.

(** A commit whose snapshot step raises is a commit of the chain: after
    [b.txt] was staged and then deleted, [commit] raises, [HEAD] names the new
    commit and the walk from [HEAD] has one step. *)
Lemma failed_commit_is_linked :
  reachable Example2.b_lost 0 /\
  commit Example.id1 Example2.b_lost
  = Raise OSError (final (commit Example.id1 Example2.b_lost)) /\
  reachable (final (commit Example.id1 Example2.b_lost)) 1 /\
  lastCommitHash (final (commit Example.id1 Example2.b_lost))
  = Done Example.id1 (final (commit Example.id1 Example2.b_lost)) /\
  follow 1 (final (commit Example.id1 Example2.b_lost)) Example.id1 = Some 1.
Proof.
  assert (R : reachable Example2.b_lost 0).
  { apply (@reach_edit Example.b_added Example2.b_lost 0).
    - apply (@reach_add Example.initialised 0 [["b.txt"]]).
      apply (@reach_init Example.work). reflexivity.
    - intros q. reflexivity. }
  split; [exact R | split; [vm_compute; reflexivity | split]].
  - apply (@reach_commit Example2.b_lost 0 Example.id1 R);
      [reflexivity | reflexivity|].
    intros tc line Htc Hl. vm_compute in Htc. inversion Htc; subst tc.
    vm_compute in Hl. destruct Hl as [<-|[]]. eexists; reflexivity.
  - split; vm_compute; reflexivity.
Qed.

(** [init] in a directory without marker directory returns and makes the
    marker directory with an empty [HEAD] and an empty staging list; the
    working tree is left as it is.  Where the marker directory exists, [init]
    ends the program and changes nothing. *)
Theorem init_makes_empty_repository (work : node) :
  (forall st, init work = Done tt st ->
     path_exists [REPO_DIR] work = false /\
     content head_path st = Some EmptyString /\
     content to_commit_path st = Some EmptyString /\
     lastCommitHash st = Done EmptyString st /\
     toCommitList st = Done [] st /\
     (forall q, comparable [REPO_DIR] q = false ->
                lookup q st = lookup q work)) /\
  (path_exists [REPO_DIR] work = true -> init work = Raise SystemExit work) /\
  (path_exists [REPO_DIR] work = false -> isdir [] work = true ->
   exists st, init work = Done tt st).
Proof.
  split; [|split].
  - intros st H.
    destruct (init_history work st H) as [Hh [_ _]].
    revert H. unfold init.
    destruct (path_exists [REPO_DIR] work) eqn:E; [discriminate|].
    unfold bind.
    destruct (mkdir [REPO_DIR] work) as [[] s1|] eqn:R1; [|discriminate].
    destruct (mknod head_path s1) as [[] s2|] eqn:R2; [|discriminate].
    intros R3. apply mkdir_inv in R1 as [_ P1].
    apply mknod_inv in R2 as [_ P2]. apply mknod_inv in R3 as [_ P3].
    assert (H3 : content to_commit_path st = Some EmptyString).
    { apply content_lookup. exact (lookup_put_here _ _ _ _ P3). }
    split; [reflexivity | split; [exact Hh | split; [exact H3|]]].
    split; [exact (lastCommitHash_content st EmptyString Hh)|].
    split; [exact (toCommitList_content st EmptyString H3)|].
    intros q Hq.
    assert (Out : forall p, comparable (REPO_DIR :: p) q = false).
    { intros p. destruct q as [|b q]; [discriminate|]. cbn [comparable] in *.
      destruct (String.eqb REPO_DIR b); [discriminate | reflexivity]. }
    rewrite (lookup_put_frame _ _ _ _ q P3 (Out _)).
    rewrite (lookup_put_frame _ _ _ _ q P2 (Out _)).
    exact (lookup_put_frame _ _ _ _ q P1 (Out _)).
  - intros E. unfold init. now rewrite E.
  - intros E Hroot. unfold init. rewrite E. unfold bind.
    unfold path_exists in E.
    destruct (lookup [REPO_DIR] work) eqn:L; [discriminate|].
    destruct (mkdir_run [REPO_DIR] work L) as [s1 [R1 P1]];
      [discriminate | exact Hroot |].
    rewrite R1.
    destruct (mknod_run head_path s1) as [s2 [R2 P2]].
    { change head_path with ([REPO_DIR] ++ [HEAD]).
      now rewrite (lookup_put_under _ _ _ _ _ P1). }
    { discriminate. }
    { unfold isdir. change (dirname head_path) with [REPO_DIR].
      now rewrite (lookup_put_here _ _ _ _ P1). }
    rewrite R2.
    destruct (mknod_run to_commit_path s2) as [s3 [R3 P3]].
    { rewrite (lookup_put_frame _ _ _ _ _ P2) by reflexivity.
      change to_commit_path with ([REPO_DIR] ++ [TO_COMMIT]).
      now rewrite (lookup_put_under _ _ _ _ _ P1). }
    { discriminate. }
    { exact (isdir_put_above [REPO_DIR] HEAD [] _ _ _ P2). }
    exists s3. exact R3.
Qed.

(** The staging file only grows: a call of [add], whatever its arguments and
    its outcome, leaves the text the file held and may write more after
    it. *)
Theorem staging_list_is_append_only (files : list path) (st : node)
    (tc : string) :
  content to_commit_path st = Some tc ->
  exists more,
    content to_commit_path (final (add files st)) = Some (tc ++ more)%string.
Proof.
  intros H. unfold add.
  destruct (add_fuel (S (height st)) files st) as [o|] eqn:R.
  - exact (add_fuel_file (S (height st)) files st o tc R H).
  - exists EmptyString. simpl. now rewrite sapp_nil_r.
Qed.

Lemma staging_list_is_append_only_witness :
  content to_commit_path Example.b_committed = Some (unlines ["b.txt"]) /\
  exists more,
    content to_commit_path (final (add [["c.txt"]] Example.b_committed))
    = Some (unlines ["b.txt"] ++ more)%string.
Proof.
  split; [reflexivity|].
  apply (staging_list_is_append_only [["c.txt"]] Example.b_committed).
  reflexivity.
Defined.

(** * The path functions: [changePathsRef], [nearestRepo], and the text of
    paths *)

Section PathText.

Lemma valid_name_parts s :
  valid_name s = true ->
  String.eqb s "" = false /\ String.eqb s "." = false /\
  String.eqb s ".." = false /\ slashless s = true.
Proof.
  unfold valid_name. intros H.
  apply andb_true_iff in H as [H H4]. apply andb_true_iff in H as [H H3].
  apply andb_true_iff in H as [H1 H2].
  apply negb_true_iff in H2. apply negb_true_iff in H3.
  repeat split; try assumption. destruct s; [discriminate | reflexivity].
Qed.

Lemma split_slash_name n : slashless n = true -> split_slash n = [n].
Proof.
  unfold slashless. induction n as [|c n IH]; simpl; intros H; [reflexivity|].
  apply andb_true_iff in H as [Hc Hn]. apply negb_true_iff in Hc.
  now rewrite Hc, (IH Hn).
Qed.

Lemma split_slash_app n s :
  slashless n = true ->
  split_slash (n ++ String "/" s) = n :: split_slash s.
Proof.
  unfold slashless. induction n as [|c n IH]; simpl; intros H; [reflexivity|].
  apply andb_true_iff in H as [Hc Hn]. apply negb_true_iff in Hc.
  now rewrite Hc, (IH Hn).
Qed.

Lemma split_slash_concat p :
  p <> [] -> forallb slashless p = true ->
  split_slash (String.concat "/" p) = p.
Proof.
  induction p as [|c p IH]; intros Hp H; [congruence|].
  cbn [forallb] in H. apply andb_true_iff in H as [Hc Hrest].
  destruct p as [|c' p].
  - simpl. exact (split_slash_name c Hc).
  - change (String.concat "/" (c :: c' :: p))
      with (c ++ String "/" (String.concat "/" (c' :: p)))%string.
    rewrite (split_slash_app c _ Hc). f_equal.
    apply IH; [discriminate | exact Hrest].
Qed.

Lemma valid_names_slashless p :
  forallb valid_name p = true -> forallb slashless p = true.
Proof.
  intros H. apply forallb_forall. intros x Hx.
  rewrite forallb_forall in H.
  exact (proj2 (proj2 (proj2 (valid_name_parts x (H x Hx))))).
Qed.

Lemma normalize_valid p : forall acc,
  forallb valid_name p = true -> normalize acc p = Some (rev acc ++ p).
Proof.
  induction p as [|c p IH]; intros acc H.
  - simpl. now rewrite app_nil_r.
  - cbn [forallb] in H. apply andb_true_iff in H as [Hc Hp].
    destruct (valid_name_parts c Hc) as [E1 [E2 [E3 _]]].
    cbn [normalize]. rewrite E1, E2, E3. simpl.
    rewrite (IH (c :: acc) Hp). simpl. now rewrite <- app_assoc.
Qed.

Lemma normalize_root_valid p : forall acc,
  forallb valid_name p = true -> normalize_root acc p = rev acc ++ p.
Proof.
  induction p as [|c p IH]; intros acc H.
  - simpl. now rewrite app_nil_r.
  - cbn [forallb] in H. apply andb_true_iff in H as [Hc Hp].
    destruct (valid_name_parts c Hc) as [E1 [E2 [E3 _]]].
    cbn [normalize_root]. rewrite E1, E2, E3. simpl.
    rewrite (IH (c :: acc) Hp). simpl. now rewrite <- app_assoc.
Qed.

Lemma render_not_absolute p :
  forallb valid_name p = true -> is_absolute (render p) = false.
Proof.
  destruct p as [|c p]; [reflexivity|]. cbn [forallb]. intros H.
  apply andb_true_iff in H as [Hc _].
  destruct (valid_name_parts c Hc) as [E1 [_ [_ E4]]].
  destruct c as [|x c]; [discriminate|].
  unfold slashless in E4. simpl in E4.
  apply andb_true_iff in E4 as [Hx _]. apply negb_true_iff in Hx.
  unfold render. destruct p; simpl; exact Hx.
Qed.


Lemma resolve_of_render (base p : path) :
  forallb valid_name p = true ->
  resolve base (render p) = Some (base ++ p).
Proof.
  intros H. unfold resolve. rewrite (render_not_absolute p H).
  destruct p as [|c p].
  - simpl. now rewrite rev_involutive, app_nil_r.
  - change (render (c :: p)) with (String.concat "/" (c :: p)).
    rewrite (split_slash_concat (c :: p));
      [|discriminate | exact (valid_names_slashless _ H)].
    rewrite (normalize_valid (c :: p) (rev base) H).
    now rewrite rev_involutive.
Qed.

End PathText.

(** The text [add] writes for a path is read back by [generateDirTree] as
    that path: for a path of valid names, [normpath(join(base, text))] is the
    path below [base], so the source of a copy is the file that was staged
    and its destination is the same relative path below the snapshot
    directory. *)
Theorem resolve_render (base p : path) :
  forallb valid_name p = true ->
  resolve base (render p) = Some (base ++ p).
Proof.
  intros H. unfold resolve. rewrite (render_not_absolute p H).
  destruct p as [|c p].
  - simpl. now rewrite rev_involutive, app_nil_r.
  - change (render (c :: p)) with (String.concat "/" (c :: p)).
    rewrite (split_slash_concat (c :: p));
      [|discriminate | exact (valid_names_slashless _ H)].
    rewrite (normalize_valid (c :: p) (rev base) H).
    now rewrite rev_involutive.
Qed.

Lemma resolve_render_witness :
  resolve (commit_dir_path Example.id1) (render ["sub"; "a.txt"])
  = Some (commit_dir_path Example.id1 ++ ["sub"; "a.txt"]).
Proof.
  apply (resolve_render (commit_dir_path Example.id1) ["sub"; "a.txt"]).
  reflexivity.
Defined.

Section RelativePaths.

Lemma slashless_split s : forallb slashless (split_slash s) = true.
Proof.
  induction s as [|c s IH]; [reflexivity|]. cbn [split_slash].
  destruct (is_slash c) eqn:E.
  - cbn [forallb]. now rewrite IH.
  - destruct (split_slash s) as [|l ls]; cbn [forallb] in *.
    + unfold slashless. simpl. now rewrite E.
    + apply andb_true_iff in IH as [Hl Hls]. rewrite Hls.
      unfold slashless in *. simpl. now rewrite E, Hl.
Qed.

(** [normpath] leaves names an entry can bear. *)
Lemma normalize_root_names comps : forall acc,
  forallb slashless comps = true ->
  forallb valid_name acc = true ->
  forallb valid_name (normalize_root acc comps) = true.
Proof.
  induction comps as [|c cs IH]; intros acc Hc Hacc.
  - simpl. rewrite forallb_forall in *. intros x Hx.
    apply Hacc. now apply in_rev.
  - cbn [forallb] in Hc. apply andb_true_iff in Hc as [Hc Hcs].
    cbn [normalize_root].
    destruct (String.eqb c "" || String.eqb c ".") eqn:E1; [now apply IH|].
    apply orb_false_iff in E1 as [E0 E1].
    destruct (String.eqb c "..") eqn:E2.
    + apply IH; [exact Hcs|]. destruct acc as [|a acc]; [reflexivity|].
      cbn [forallb] in Hacc. now apply andb_true_iff in Hacc as [_ Hacc].
    + apply IH; [exact Hcs|]. cbn [forallb]. rewrite Hacc, andb_true_r.
      unfold valid_name. rewrite E1, E2. fold (slashless c). rewrite Hc.
      destruct c; [discriminate | reflexivity].
Qed.

Lemma abs_join_names base f :
  forallb valid_name base = true ->
  forallb valid_name (abs_join base f) = true.
Proof.
  intros H. unfold abs_join. destruct (is_absolute f).
  - apply normalize_root_names; [apply slashless_split | reflexivity].
  - apply normalize_root_names; [apply slashless_split|].
    rewrite forallb_forall in *. intros x Hx. apply H. now apply in_rev.
Qed.

Lemma normalize_root_up s : forall acc rest,
  normalize_root (rev s ++ acc) (repeat ".." (length s) ++ rest)
  = normalize_root acc rest.
Proof.
  induction s as [|b s IH] using rev_ind; intros acc rest; [reflexivity|].
  rewrite rev_app_distr, length_app, Nat.add_comm. simpl. apply IH.
Qed.

(** Joining a relative path computed by [relpath] to its start gives the
    path back; [pre] is the common prefix already walked. *)
Lemma relpath_back start : forall p pre,
  forallb valid_name p = true ->
  normalize_root (rev (pre ++ start)) (relpath p start) = pre ++ p.
Proof.
  induction start as [|b start IH]; intros p pre Hp.
  - rewrite app_nil_r.
    assert (E : relpath p [] = p) by (destruct p; reflexivity).
    rewrite E, (normalize_root_valid p (rev pre) Hp). now rewrite rev_involutive.
  - assert (Up : forall rest,
               forallb valid_name rest = true ->
               normalize_root (rev (pre ++ b :: start))
                 (repeat ".." (length (b :: start)) ++ rest) = pre ++ rest).
    { intros rest Hr. rewrite rev_app_distr, normalize_root_up.
      rewrite (normalize_root_valid rest (rev pre) Hr).
      now rewrite rev_involutive. }
    destruct p as [|a p]; [exact (Up [] eq_refl)|].
    cbn [relpath]. destruct (String.eqb a b) eqn:E; [|exact (Up (a :: p) Hp)].
    apply String.eqb_eq in E. subst b.
    cbn [forallb] in Hp. apply andb_true_iff in Hp as [_ Hp].
    replace (pre ++ a :: start) with ((pre ++ [a]) ++ start)
      by (now rewrite <- app_assoc).
    rewrite (IH p (pre ++ [a]) Hp). now rewrite <- app_assoc.
Qed.

Lemma relpath_slashless start : forall p,
  forallb valid_name p = true ->
  forallb slashless (relpath p start) = true.
Proof.
  assert (Up : forall n rest,
             forallb valid_name rest = true ->
             forallb slashless (repeat ".." n ++ rest) = true).
  { intros n rest Hr. rewrite forallb_app, (valid_names_slashless rest Hr).
    rewrite andb_true_r. induction n as [|n IHn]; [reflexivity | exact IHn]. }
  induction start as [|b start IH]; intros p Hp.
  - destruct p; exact (Up 0 _ Hp).
  - destruct p as [|a p]; [exact (Up _ [] eq_refl)|].
    cbn [relpath]. destruct (String.eqb a b); [|exact (Up _ _ Hp)].
    cbn [forallb] in Hp. apply andb_true_iff in Hp as [_ Hp]. now apply IH.
Qed.

Lemma relpath_relative start : forall p,
  forallb valid_name p = true ->
  is_absolute (render (relpath p start)) = false.
Proof.
  assert (Up : forall n rest,
             forallb valid_name rest = true ->
             is_absolute (render (repeat ".." n ++ rest)) = false).
  { intros n rest Hr. destruct n as [|n]; [exact (render_not_absolute rest Hr)|].
    simpl. destruct (repeat ".." n ++ rest); reflexivity. }
  induction start as [|b start IH]; intros p Hp.
  - destruct p; exact (Up 0 _ Hp).
  - destruct p as [|a p]; [exact (Up _ [] eq_refl)|].
    cbn [relpath]. destruct (String.eqb a b); [|exact (Up _ _ Hp)].
    cbn [forallb] in Hp. apply andb_true_iff in Hp as [_ Hp]. now apply IH.
Qed.

Lemma relpath_inside repo : forall q, relpath (repo ++ q) repo = q.
Proof.
  induction repo as [|a repo IH]; intros q; [destruct q; reflexivity|].
  simpl. now rewrite String.eqb_refl.
Qed.

Lemma abs_join_render_abs p :
  forallb valid_name p = true -> abs_join [] (render_abs p) = p.
Proof.
  intros H. unfold abs_join, render_abs. simpl.
  destruct p as [|c p]; [reflexivity|].
  rewrite (split_slash_concat (c :: p));
    [|discriminate | exact (valid_names_slashless _ H)].
  exact (normalize_root_valid (c :: p) [] H).
Qed.

End RelativePaths.

(** [changePathsRef] keeps the file a path names: for a working directory
    [cwd] and any text [f] the user gives, the path that [changePathsRef(cwd,
    repo, [f])] returns, joined to [repo] the way [add] joins it, is the file
    that [f] names from [cwd]. *)
Theorem changePathsRef_names_the_same_file (cwd repo : path) (f : string) :
  forallb valid_name cwd = true ->
  map (abs_join repo) (changePathsRef_abs cwd repo [f]) = [abs_join cwd f].
Proof.
  intros H. cbn [changePathsRef_abs map]. f_equal.
  pose proof (abs_join_names cwd f H) as Hp.
  set (p := abs_join cwd f) in *.
  unfold abs_join at 1. rewrite (relpath_relative repo p Hp).
  pose proof (relpath_back repo p [] Hp) as B. simpl in B.
  destruct (relpath p repo) as [|c r] eqn:E.
  - simpl. exact B.
  - change (render (c :: r)) with (String.concat "/" (c :: r)).
    rewrite (split_slash_concat (c :: r)); [exact B | discriminate|].
    rewrite <- E. exact (relpath_slashless repo p Hp).
Qed.

Lemma changePathsRef_names_the_same_file_witness :
  changePathsRef_abs ["home"; "u"; "proj"; "src"] ["home"; "u"; "proj"]
    ["../doc/./a.txt"] = ["doc/a.txt"] /\
  map (abs_join ["home"; "u"; "proj"])
    (changePathsRef_abs ["home"; "u"; "proj"; "src"] ["home"; "u"; "proj"]
       ["../doc/./a.txt"])
  = [abs_join ["home"; "u"; "proj"; "src"] "../doc/./a.txt"].
Proof.
  split; [reflexivity|].
  apply (changePathsRef_names_the_same_file
           ["home"; "u"; "proj"; "src"] ["home"; "u"; "proj"] "../doc/./a.txt").
  reflexivity.
Defined.

(** The call of [changePathsRef] in [status]: for the absolute paths of files
    below [repoPath], [changePathsRef('/', repoPath, files)] is the text of
    each path relative to [repoPath]. *)
Theorem changePathsRef_of_repository_files (repo : path) (files : list path) :
  forallb valid_name repo = true ->
  forallb (forallb valid_name) files = true ->
  changePathsRef_abs [] repo (map (fun q => render_abs (repo ++ q)) files)
  = changePathsRef files.
Proof.
  intros Hr Hf. unfold changePathsRef_abs, changePathsRef.
  rewrite !map_map. apply map_ext_in. intros q Hq.
  rewrite forallb_forall in Hf. specialize (Hf q Hq).
  rewrite abs_join_render_abs; [now rewrite relpath_inside|].
  now rewrite forallb_app, Hr, Hf.
Qed.

Lemma changePathsRef_of_repository_files_witness :
  changePathsRef_abs [] ["home"; "u"; "proj"]
    ["/home/u/proj/b.txt"; "/home/u/proj/sub/a.txt"]
  = ["b.txt"; "sub/a.txt"].
Proof.
  apply (changePathsRef_of_repository_files ["home"; "u"; "proj"]
           [["b.txt"]; ["sub"; "a.txt"]]); reflexivity.
Defined.

(** * [nearestRepo] and [allFiles] *)

Section NearestRepo.

Lemma prefix_of_refl (p : path) : prefix_of p p.
Proof. exists []. now rewrite app_nil_r. Qed.

Lemma prefix_of_snoc (r l : path) (a : string) :
  prefix_of r (l ++ [a]) -> r = l ++ [a] \/ prefix_of r l.
Proof.
  intros [rest E]. destruct rest as [|x rest] using rev_ind.
  - left. now rewrite app_nil_r in E.
  - right. rewrite app_assoc in E. apply app_inj_tail in E as [E _].
    now exists rest.
Qed.

Lemma nearest_up_spec (fs : node) (up : list string) :
  match nearest_up up fs with
  | Some r =>
      prefix_of r (rev up) /\ isdir (r ++ [REPO_DIR]) fs = true /\
      forall r', prefix_of r' (rev up) -> isdir (r' ++ [REPO_DIR]) fs = true ->
                 prefix_of r' r
  | None =>
      forall r', prefix_of r' (rev up) -> isdir (r' ++ [REPO_DIR]) fs = false
  end.
Proof.
  induction up as [|a up IH]; cbn [nearest_up].
  - destruct (isdir (rev [] ++ [REPO_DIR]) fs) eqn:E.
    + split; [apply prefix_of_refl | split; [exact E|]]. now intros r' H _.
    + intros r' [rest H]. simpl in H. symmetry in H.
      apply app_eq_nil in H as [-> _]. exact E.
  - destruct (isdir (rev (a :: up) ++ [REPO_DIR]) fs) eqn:E.
    + split; [apply prefix_of_refl | split; [exact E|]]. now intros r' H _.
    + destruct (nearest_up up fs) as [r|].
      * destruct IH as [[rest Er] [Hd Hmax]]. split; [|split; [exact Hd|]].
        -- exists (rest ++ [a]). simpl. rewrite Er. now rewrite app_assoc.
        -- intros r' Hr' Hd'. simpl in Hr'.
           apply prefix_of_snoc in Hr' as [->|Hr'].
           ++ simpl in E. congruence.
           ++ now apply Hmax.
      * intros r' Hr'. simpl in Hr'.
        apply prefix_of_snoc in Hr' as [->|Hr']; [exact E | now apply IH].
Qed.

End NearestRepo.

(** [nearestRepo] finds the nearest enclosing repository: the directory it
    returns lies on the way from the root to the given path and holds a
    marker directory, and every other such directory lies above it; it
    returns [None] exactly when no directory on the way holds one. *)
Theorem nearestRepo_nearest (absolutePath : path) (fs : node) :
  match nearestRepo absolutePath fs with
  | Some r =>
      prefix_of r absolutePath /\ isdir (r ++ [REPO_DIR]) fs = true /\
      forall r', prefix_of r' absolutePath ->
                 isdir (r' ++ [REPO_DIR]) fs = true -> prefix_of r' r
  | None =>
      forall r', prefix_of r' absolutePath ->
                 isdir (r' ++ [REPO_DIR]) fs = false
  end.
Proof.
  unfold nearestRepo.
  pose proof (nearest_up_spec fs (rev absolutePath)) as H.
  now rewrite rev_involutive in H.
Qed.

Section Walk.

Lemma unique_names_Dir (ents : entries) :
  unique_names (Dir ents) <->
  NoDup (map fst ents) /\ Forall (fun e => unique_names (snd e)) ents.
Proof.
  cbn [unique_names].
  assert (E : forall l : entries,
             (fix all (l : entries) : Prop :=
                match l with
                | [] => True
                | e :: l' => unique_names (snd e) /\ all l'
                end) l
             <-> Forall (fun e => unique_names (snd e)) l).
  { induction l as [|e l IH]; [split; [constructor | trivial]|].
    split.
    - intros [H1 H2]. constructor; [exact H1 | now apply IH].
    - intros H. inversion H; subst. split; [assumption | now apply IH]. }
  now rewrite E.
Qed.

Lemma assoc_unique (ents : entries) k v :
  NoDup (map fst ents) -> In (k, v) ents -> assoc k ents = Some v.
Proof.
  induction ents as [|[k' w] ents IH]; intros N H; [contradiction|].
  simpl in N. inversion N as [|? ? Hn N']; subst.
  cbn [assoc]. destruct H as [H|H].
  - inversion H; subst. now rewrite String.eqb_refl.
  - destruct (String.eqb_spec k' k) as [->|_]; [|now apply IH].
    exfalso. apply Hn. exact (in_map fst _ _ H).
Qed.

(** Every path met by the walk leads to a regular file through visible
    names. *)
Lemma walk_sound (n : node) : forall root x,
  unique_names n -> In x (walk root n) ->
  exists p, x = root ++ p /\ p <> [] /\ isfile p n = true /\ visible p = true.
Proof.
  induction n as [data|ents IH] using node_ind; intros root x U H;
    [contradiction|].
  apply unique_names_Dir in U as [N U].
  cbn [walk] in H. apply in_app_or in H as [H|H];
    apply in_flat_map in H as [[k m] [He H]]; cbn [fst snd] in H.
  - destruct m as [d|sub]; [|contradiction].
    destruct (hidden k) eqn:Hk; [contradiction|].
    destruct H as [<-|[]]. exists [k].
    split; [reflexivity | split; [discriminate|]].
    unfold isfile. cbn [lookup]. rewrite (assoc_unique ents k (File d) N He).
    split; [reflexivity|]. cbn. now rewrite Hk.
  - destruct m as [d|sub]; [contradiction|].
    destruct (hidden k) eqn:Hk; [contradiction|].
    rewrite Forall_forall in IH, U.
    destruct (IH (k, Dir sub) He (root ++ [k]) x (U (k, Dir sub) He) H)
      as [p [-> [Hp [Hf Hv]]]].
    exists (k :: p). split; [now rewrite <- app_assoc|].
    split; [discriminate|].
    unfold isfile in *. cbn [lookup].
    rewrite (assoc_unique ents k (Dir sub) N He).
    split; [exact Hf|]. cbn [visible forallb]. now rewrite Hk.
Qed.

Lemma NoDup_tagged (T : string * node -> list path) (root : path)
    (ents : entries) :
  NoDup (map fst ents) ->
  (forall e, In e ents -> NoDup (T e)) ->
  (forall e x, In e ents -> In x (T e) -> exists r, x = root ++ fst e :: r) ->
  NoDup (flat_map T ents).
Proof.
  induction ents as [|e ents IH]; intros N Hn Ht; [constructor|].
  simpl in N. inversion N as [|? ? Hfresh N']; subst.
  cbn [flat_map]. apply NoDup_app.
  - apply Hn. now left.
  - apply IH; [exact N' | |].
    + intros e' He'. apply Hn. now right.
    + intros e' x He'. apply Ht. now right.
  - intros x Hx Hx'. apply in_flat_map in Hx' as [e' [He' Hx']].
    destruct (Ht e x (or_introl eq_refl) Hx) as [r E].
    destruct (Ht e' x (or_intror He') Hx') as [r' E'].
    rewrite E in E'. apply app_inv_head in E'.
    assert (Ek : fst e = fst e') by congruence.
    apply Hfresh. rewrite Ek. now apply in_map.
Qed.

Lemma walk_below (n : node) : forall root x,
  In x (walk root n) -> exists c r, x = root ++ c :: r.
Proof.
  induction n as [data|ents IH] using node_ind; intros root x H;
    [contradiction|].
  cbn [walk] in H. apply in_app_or in H as [H|H];
    apply in_flat_map in H as [[k m] [He H]]; cbn [fst snd] in H.
  - destruct m; [|contradiction]. destruct (hidden k); [contradiction|].
    destruct H as [<-|[]]. now exists k, [].
  - destruct m as [d|sub]; [contradiction|].
    destruct (hidden k); [contradiction|].
    rewrite Forall_forall in IH.
    destruct (IH (k, Dir sub) He (root ++ [k]) x H) as [c [r ->]].
    exists k, (c :: r). now rewrite <- app_assoc.
Qed.

Lemma walk_NoDup (n : node) : forall root,
  unique_names n -> NoDup (walk root n).
Proof.
  induction n as [data|ents IH] using node_ind; intros root U; [constructor|].
  apply unique_names_Dir in U as [N U]. rewrite Forall_forall in IH, U.
  cbn [walk]. apply NoDup_app.
  - apply (NoDup_tagged _ root ents N).
    + intros [k m] _. cbn [fst snd]. destruct m; [|constructor].
      destruct (hidden k); [constructor|].
      constructor; [intros [] | constructor].
    + intros [k m] x _ H. cbn [fst snd] in *. destruct m; [|contradiction].
      destruct (hidden k); [contradiction|]. destruct H as [<-|[]].
      now exists [].
  - apply (NoDup_tagged _ root ents N).
    + intros [k m] He. cbn [fst snd]. destruct m as [d|sub]; [constructor|].
      destruct (hidden k); [constructor|].
      exact (IH (k, Dir sub) He (root ++ [k]) (U (k, Dir sub) He)).
    + intros [k m] x _ H. cbn [fst snd] in *.
      destruct m as [d|sub]; [contradiction|].
      destruct (hidden k); [contradiction|].
      destruct (walk_below (Dir sub) (root ++ [k]) x H) as [c [r ->]].
      exists (c :: r). now rewrite <- app_assoc.
  - intros x Hx Hx'.
    apply in_flat_map in Hx as [[k m] [_ Hx]]. cbn [fst snd] in Hx.
    destruct m; [|contradiction]. destruct (hidden k); [contradiction|].
    destruct Hx as [<-|[]].
    apply in_flat_map in Hx' as [[k' m'] [_ Hx']]. cbn [fst snd] in Hx'.
    destruct m' as [d'|sub]; [contradiction|].
    destruct (hidden k'); [contradiction|].
    destruct (walk_below (Dir sub) (root ++ [k']) _ Hx') as [c [r E]].
    rewrite <- app_assoc in E. apply app_inv_head in E. discriminate.
Qed.

End Walk.

(** [allFiles] lists the visible regular files and nothing else, each of
    them once: a path is listed exactly when it leads to a regular file and
    no name on it begins with a dot.  So [status] never reports a file of
    the marker directory, a hidden file or a file of a hidden directory. *)
Theorem allFiles_lists_visible_files_once (st : node) :
  unique_names st ->
  NoDup (allFiles [] st) /\
  forall p, In p (allFiles [] st) <->
            p <> [] /\ isfile p st = true /\ visible p = true.
Proof.
  intros U. unfold allFiles. cbn [lookup]. split.
  - exact (walk_NoDup st [] U).
  - intros p. split.
    + intros H. destruct (walk_sound st [] p U H) as [p' [E H']].
      simpl in E. now subst.
    + intros [Hp [Hf Hv]]. exact (walk_complete p [] st Hp Hf Hv).
Qed.

Lemma allFiles_lists_visible_files_once_witness :
  allFiles [] Example.b_committed = [["b.txt"]; ["c.txt"]; ["sub"; "a.txt"]] /\
  NoDup (allFiles [] Example.b_committed) /\
  forall p, In p (allFiles [] Example.b_committed) <->
            p <> [] /\ isfile p Example.b_committed = true /\
            visible p = true.
Proof.
  split; [reflexivity|].
  apply (allFiles_lists_visible_files_once Example.b_committed).
  vm_compute.
  repeat match goal with
         | |- _ /\ _ => split
         | |- True => exact I
         | |- NoDup [] => constructor
         | |- NoDup (_ :: _) => constructor
         | |- ~ _ => simpl; intuition discriminate
         end.
Defined.

Section ReadOnly.

Lemma final_bind {A B} (m : M A) (k : A -> M B) :
  (forall st, final (m st) = st) ->
  (forall a st, final (k a st) = st) ->
  forall st, final (bind m k st) = st.
Proof.
  intros Hm Hk st. unfold bind. specialize (Hm st).
  destruct (m st) as [a s|e s]; simpl in Hm; subst s; [apply Hk | reflexivity].
Qed.

Lemma final_read_text p st : final (read_text p st) = st.
Proof. unfold read_text. now destruct (lookup p st) as [[d|ents]|]. Qed.

Lemma final_lastCommitHash st : final (lastCommitHash st) = st.
Proof.
  unfold lastCommitHash. apply final_bind; [apply final_read_text|].
  reflexivity.
Qed.

Lemma final_wasCommited f st : final (wasCommited f st) = st.
Proof.
  unfold wasCommited. apply final_bind; [apply final_lastCommitHash|].
  intros comm s. destruct (negb (nonempty comm)); [reflexivity|].
  apply final_bind; [apply final_read_text | reflexivity].
Qed.

Lemma final_wasAdded f st : final (wasAdded f st) = st.
Proof.
  unfold wasAdded. apply final_bind; [apply final_read_text | reflexivity].
Qed.

Lemma final_classify f st : final (classify f st) = st.
Proof.
  unfold classify. apply final_bind; [apply final_wasCommited|].
  intros c s. destruct (negb c); [|reflexivity].
  apply final_bind; [apply final_wasAdded|].
  intros a s'. now destruct (negb a).
Qed.

Lemma final_status_loop files : forall st, final (status_loop files st) = st.
Proof.
  induction files as [|f files IH]; [reflexivity|]. cbn [status_loop].
  apply final_bind; [apply final_classify|]. intros t.
  apply final_bind; [exact IH | reflexivity].
Qed.

End ReadOnly.

(** [status], [wasCommited] and [wasAdded] only read: whether they return or
    raise, the working tree and the marker directory are as they were. *)
Theorem status_changes_nothing (st : node) (f : string) :
  final (status st) = st /\
  final (wasCommited f st) = st /\
  final (wasAdded f st) = st.
Proof.
  split; [|split].
  - unfold status. apply final_status_loop.
  - apply final_wasCommited.
  - apply final_wasAdded.
Qed.

(** * The places [add] and [commit] write to *)

Section Confined.

Lemma comparable_sym p : forall q, comparable p q = comparable q p.
Proof.
  induction p as [|a p IH]; intros [|b q]; try reflexivity.
  simpl. now rewrite IH, String.eqb_sym.
Qed.

Lemma comparable_prefixes a : forall b x y,
  a ++ x = b ++ y -> comparable a b = true.
Proof.
  induction a as [|c a IH]; intros [|d b] x y E; try reflexivity.
  simpl in E. inversion E; subst. simpl. rewrite String.eqb_refl.
  exact (IH b x y H1).
Qed.

Lemma comparable_below r s : comparable r (r ++ s) = true.
Proof. apply (comparable_prefixes r (r ++ s) s []). now rewrite app_nil_r. Qed.

Lemma outside_In roots q R :
  outside roots q = true -> In R roots -> comparable R q = false.
Proof.
  unfold outside. rewrite forallb_forall. intros H HR.
  apply negb_true_iff. exact (H R HR).
Qed.

(** Seen from a path outside the roots, a place near a root is either not
    comparable with the path or strictly above it. *)
Lemma outside_cases roots q p :
  outside roots q = true -> near roots p ->
  comparable p q = false \/ exists c r, q = p ++ c :: r.
Proof.
  intros Ho [R [HR C]]. pose proof (outside_In roots q R Ho HR) as Hq.
  destruct (comparable p q) eqn:Cpq; [right | now left].
  destruct (comparable_true p q Cpq) as [[r ->]|[r ->]].
  - destruct r as [|c r]; [|now exists c, r].
    rewrite app_nil_r in Hq. congruence.
  - exfalso. destruct (comparable_true R (q ++ r) C) as [[s E]|[s E]].
    + rewrite (comparable_sym R q) in Hq.
      rewrite (comparable_prefixes q R r s E) in Hq. discriminate.
    + rewrite E, <- app_assoc in Hq. rewrite comparable_sym in Hq.
      rewrite comparable_below in Hq. discriminate.
Qed.

Lemma near_below roots R s : In R roots -> near roots (R ++ s).
Proof. intros H. exists R. split; [exact H | apply comparable_below]. Qed.

Lemma near_prefix roots R pre x y :
  In R roots -> pre ++ x = R ++ y -> near roots pre.
Proof.
  intros H E. exists R. split; [exact H|].
  symmetry in E. exact (comparable_prefixes R pre y x E).
Qed.

(** A write of a file or of an empty directory at a place where no
    directory stood. *)
Lemma put_leaf_frame p v st st' q :
  put p v st = Some st' -> isdir p st = false ->
  (forall c r, lookup (c :: r) v = None) ->
  comparable p q = false \/ (exists c r, q = p ++ c :: r) ->
  lookup q st' = lookup q st.
Proof.
  intros P Hd Hv [C|[c [r ->]]].
  - exact (lookup_put_frame p v st st' q P C).
  - rewrite (lookup_put_under p v st st' (c :: r) P), Hv.
    rewrite lookup_app. unfold isdir in Hd.
    destruct (lookup p st) as [[d|ents]|]; try reflexivity. discriminate.
Qed.

Lemma confined_ret {A} roots (a : A) : confined roots (ret a).
Proof. intros st q _. reflexivity. Qed.

Lemma confined_raise {A} roots e : confined roots (@raise A e).
Proof. intros st q _. reflexivity. Qed.

Lemma confined_bind {A B} roots (m : M A) (k : A -> M B) :
  confined roots m -> (forall a, confined roots (k a)) ->
  confined roots (bind m k).
Proof.
  intros Hm Hk st q Hq. unfold bind. specialize (Hm st q Hq).
  destruct (m st) as [a s|e s]; simpl in *.
  - now rewrite (Hk a s q Hq).
  - exact Hm.
Qed.

Lemma confined_if {A} roots (b : node -> bool) (m1 m2 : M A) :
  confined roots m1 -> confined roots m2 ->
  confined roots (fun st => if b st then m1 st else m2 st).
Proof.
  intros H1 H2 st q Hq.
  destruct (b st); [exact (H1 st q Hq) | exact (H2 st q Hq)].
Qed.

Lemma confined_put roots p v st q :
  near roots p -> isdir p st = false ->
  (forall c r, lookup (c :: r) v = None) ->
  outside roots q = true ->
  lookup q (final (change (put p v) st)) = lookup q st.
Proof.
  intros Hp Hd Hv Hq. unfold change.
  destruct (put p v st) as [st'|] eqn:P; [|reflexivity].
  exact (put_leaf_frame p v st st' q P Hd Hv (outside_cases roots q p Hq Hp)).
Qed.

Lemma not_exists_not_dir p st : path_exists p st = false -> isdir p st = false.
Proof.
  unfold path_exists, isdir. now destruct (lookup p st) as [[d|ents]|].
Qed.

Lemma confined_mkdir roots p : near roots p -> confined roots (mkdir p).
Proof.
  intros Hp st q Hq. unfold mkdir.
  destruct (path_exists p st) eqn:E; [reflexivity|].
  apply (confined_put roots p); try assumption.
  - now apply not_exists_not_dir.
  - intros c r. reflexivity.
Qed.

Lemma confined_mknod roots p : near roots p -> confined roots (mknod p).
Proof.
  intros Hp st q Hq. unfold mknod.
  destruct (path_exists p st) eqn:E; [reflexivity|].
  apply (confined_put roots p); try assumption.
  - now apply not_exists_not_dir.
  - intros c r. reflexivity.
Qed.

Lemma confined_write_file roots p data :
  near roots p -> confined roots (write_file p data).
Proof.
  intros Hp st q Hq. unfold write_file.
  destruct (isdir p st) eqn:E; [reflexivity|].
  apply (confined_put roots p); try assumption. intros c r. reflexivity.
Qed.

Lemma confined_append_file roots p data :
  near roots p -> confined roots (append_file p data).
Proof.
  intros Hp st q Hq. unfold append_file.
  destruct (lookup p st) as [[old|ents]|] eqn:L; [|reflexivity|].
  - apply (confined_put roots p); try assumption.
    + unfold isdir. now rewrite L.
    + intros c r. reflexivity.
  - apply (confined_put roots p); try assumption.
    + unfold isdir. now rewrite L.
    + intros c r. reflexivity.
Qed.

Lemma confined_read_text roots p : confined roots (read_text p).
Proof. intros st q _. now rewrite final_read_text. Qed.

Lemma confined_read_bytes roots p : confined roots (read_bytes p).
Proof.
  intros st q _. unfold read_bytes. now destruct (lookup p st) as [[d|ents]|].
Qed.

Lemma confined_lastCommitHash roots : confined roots lastCommitHash.
Proof. intros st q _. now rewrite final_lastCommitHash. Qed.

Lemma confined_toCommitList roots : confined roots toCommitList.
Proof.
  unfold toCommitList. apply confined_bind; [apply confined_read_text|].
  intros text. apply confined_ret.
Qed.

Lemma confined_makedirs_from roots rest : forall above,
  (forall pre x, pre <> [] -> pre ++ x = rest -> near roots (above ++ pre)) ->
  confined roots (makedirs_from above rest).
Proof.
  induction rest as [|c rest IH]; intros above H; [apply confined_raise|].
  cbn [makedirs_from].
  assert (Hc : near roots (above ++ [c])).
  { apply (H [c] rest); [discriminate | reflexivity]. }
  assert (Hrec : confined roots (makedirs_from (above ++ [c]) rest)).
  { apply IH. intros pre x Hpre E. rewrite <- app_assoc.
    apply (H (c :: pre) x); [discriminate | simpl; now rewrite E]. }
  destruct rest as [|c' rest]; [now apply confined_mkdir|].
  apply (confined_if roots (path_exists (above ++ [c]))); [exact Hrec|].
  apply confined_bind; [now apply confined_mkdir | intros _; exact Hrec].
Qed.

Lemma confined_copy2 roots src dst :
  (forall x, near roots (dst ++ x)) -> confined roots (copy2 src dst).
Proof.
  intros Hd st q Hq. unfold copy2. destruct src as [s|]; [|reflexivity].
  cbv zeta.
  match goal with
  | |- context [list_eq_dec string_dec s ?d] =>
      assert (N : near roots d);
      [ destruct (isdir dst st);
        [apply Hd | rewrite <- (app_nil_r dst); apply Hd]
      | revert N; generalize d; intros dst' N ]
  end.
  destruct (list_eq_dec string_dec s dst'); [reflexivity|].
  exact (confined_bind roots (read_bytes s) (fun data => write_file dst' data)
           (confined_read_bytes roots s)
           (fun data => confined_write_file roots dst' data N) st q Hq).
Qed.

(** The loop of [generateDirTree] writes below the snapshot directory when
    every line names a path of the tree. *)
Lemma confined_new_dirs roots R x :
  In R roots ->
  confined roots
    (fun st => if negb (isdir (dirname (R ++ x)) st)
               then makedirs (R ++ x) st else Done tt st).
Proof.
  intros HR.
  apply (confined_if roots (fun st => negb (isdir (dirname (R ++ x)) st))
           (makedirs (R ++ x)) (ret tt)); [|apply confined_ret].
  apply confined_makedirs_from. intros pre y _ E. simpl.
  exact (near_prefix roots R pre y _ HR E).
Qed.

Lemma confined_copy_files roots R d files :
  In R roots ->
  (forall f, In f files -> exists s, resolve [] f = Some s) ->
  confined roots (copy_files (R ++ d) files).
Proof.
  intros HR. induction files as [|f files IH]; intros Hf;
    [apply confined_ret|].
  cbn [copy_files].
  destruct (Hf f (or_introl eq_refl)) as [s Hs].
  rewrite (resolve_extend (R ++ d) f s Hs).
  apply confined_bind; [|intros _; apply confined_bind].
  - rewrite <- app_assoc. now apply confined_new_dirs.
  - apply confined_copy2. intros x. rewrite <- !app_assoc.
    now apply near_below.
  - intros _. apply IH. intros f' Hf'. apply Hf. now right.
Qed.

Lemma confined_commit_record h :
  confined [head_path; commit_path h] (commit_record h).
Proof.
  set (roots := [head_path; commit_path h]).
  assert (Hh : near roots head_path).
  { exists head_path. split; [now left | apply (comparable_below head_path [])]. }
  assert (Hc : forall x, near roots (commit_path h ++ x)).
  { intros x. apply near_below. right. now left. }
  unfold commit_record.
  apply confined_bind; [exact (confined_mkdir roots _ (Hc []))|]. intros _.
  apply confined_bind; [exact (confined_mkdir roots _ (Hc [COMMIT_DIR]))|].
  intros _.
  apply confined_bind; [exact (confined_mknod roots _ (Hc [TRACKED_LIST]))|].
  intros _.
  apply confined_bind; [exact (confined_mknod roots _ (Hc [PREV_COMMIT]))|].
  intros _.
  apply confined_bind; [apply confined_lastCommitHash|]. intros last.
  apply confined_bind.
  { destruct (nonempty last); [|apply confined_ret].
    exact (confined_write_file roots _ _ (Hc [PREV_COMMIT])). }
  intros _.
  apply confined_bind; [exact (confined_write_file roots _ _ Hh)|]. intros _.
  apply confined_bind; [apply confined_read_text|]. intros text.
  exact (confined_write_file roots _ _ (Hc [TRACKED_LIST])).
Qed.

(** A record step that returns leaves the new identifier in [HEAD]. *)
Lemma commit_record_done h st st1 :
  commit_record h st = Done tt st1 -> content head_path st1 = Some h.
Proof.
  unfold commit_record, bind.
  destruct (mkdir (commit_path h) st) as [[] s1|]; [|discriminate].
  destruct (mkdir (commit_dir_path h) s1) as [[] s2|]; [|discriminate].
  destruct (mknod (tracked_path h) s2) as [[] s3|]; [|discriminate].
  destruct (mknod (prev_path h) s3) as [[] s4|]; [|discriminate].
  destruct (lastCommitHash s4) as [last s5|]; [|discriminate].
  destruct ((if nonempty last then write_file (prev_path h) last else ret tt) s5)
    as [[] s6|]; [|discriminate].
  destruct (write_file head_path h s6) as [[] s7|] eqn:W; [|discriminate].
  destruct (read_text to_commit_path s7) as [text s8|] eqn:Rd; [|discriminate].
  intros W2.
  assert (s8 = s7) as ->.
  { pose proof (final_read_text to_commit_path s7) as F.
    now rewrite Rd in F. }
  apply write_file_inv in W. apply lookup_put_here in W.
  assert (H7 : content head_path s7 = Some h) by (now apply content_lookup).
  assert (K : keeps head_path (write_file (tracked_path h) text))
    by (apply keeps_write_file; discriminate).
  specialize (K s7 h H7). now rewrite W2 in K.
Qed.

(** [commit], once the record is written: the loop of [generateDirTree] on
    the lines of the staging file, below the snapshot directory of the new
    commit. *)
Lemma commit_run h st tc st1 :
  uuid4_hex h = true ->
  content to_commit_path st = Some tc ->
  path_exists (commit_path h) st = false ->
  commit_record h st = Done tt st1 ->
  commit h st
  = copy_files (commit_dir_path h) (splitlines (universal_newlines tc)) st1.
Proof.
  intros Hu Htc Hfresh R.
  rewrite commit_split, Hfresh. unfold bind at 1. rewrite R.
  pose proof (keeps_commit_record to_commit_path h) as K.
  specialize (K ltac:(discriminate) ltac:(discriminate) ltac:(discriminate)
                st tc Htc).
  rewrite R in K. simpl in K.
  pose proof (commit_record_done h st st1 R) as Hhead.
  destruct (uuid4_hex_token h Hu) as [Hread Hne].
  unfold commit_snapshot, bind.
  rewrite (toCommitList_content st1 tc K).
  unfold generateDirTree, bind.
  rewrite (lastCommitHash_content st1 h Hhead), Hread, Hne. cbn [negb].
  unfold bind.
  now rewrite (lastCommitHash_content st1 h Hhead), Hread.
Qed.

(** The recursion of [add] writes to the staging file only. *)
Lemma confined_add_subdirs rec :
  (forall files st o, rec files st = Some o ->
     forall q, outside [to_commit_path] q = true ->
               lookup q (final o) = lookup q st) ->
  forall dirs st o, add_subdirs rec dirs st = Some o ->
    forall q, outside [to_commit_path] q = true ->
              lookup q (final o) = lookup q st.
Proof.
  intros Hrec. induction dirs as [|dir dirs IH]; intros st o H q Hq.
  - simpl in H. inversion H; subst. reflexivity.
  - cbn [add_subdirs] in H. unfold listdir in H.
    destruct (lookup dir st) as [[d|ents]|];
      try (inversion H; subst; reflexivity).
    destruct (rec (map (fun f => dir ++ [f]) (map fst ents)) st)
      as [[[] s|e s]|] eqn:R; [| |discriminate].
    + rewrite (IH s o H q Hq). exact (Hrec _ _ _ R q Hq).
    + inversion H; subst. exact (Hrec _ _ _ R q Hq).
Qed.

Lemma confined_add_fuel n : forall files st o,
  add_fuel n files st = Some o ->
  forall q, outside [to_commit_path] q = true ->
            lookup q (final o) = lookup q st.
Proof.
  induction n as [|n IH]; intros files st o H q Hq; [discriminate|].
  cbn [add_fuel] in H.
  pose proof (confined_toCommitList [to_commit_path] st q Hq) as F0.
  destruct (toCommitList st) as [ls s0|e s0];
    [|inversion H; subst; exact F0].
  simpl in F0.
  destruct (add_scan s0 files ls [] "") as [[ls' dirs] written].
  assert (N : near [to_commit_path] to_commit_path).
  { exists to_commit_path. split; [now left|].
    apply (comparable_below to_commit_path []). }
  pose proof (confined_append_file [to_commit_path] to_commit_path written N
                s0 q Hq) as F1.
  destruct (append_file to_commit_path written s0) as [[] s1|e s1];
    [|inversion H; subst; simpl in *; congruence].
  simpl in F1.
  rewrite (confined_add_subdirs (add_fuel n) (IH) dirs s1 o H q Hq).
  congruence.
Qed.

End Confined.

(** [add] changes the staging file and nothing else: whatever the paths
    given and whether the call returns or raises, every other file and
    directory of the working tree and of the marker directory is as it was
    (the commit records and snapshots, [HEAD], and the files staged). *)
Theorem add_changes_only_the_staging_file (files : list path) (st : node)
    (q : path) :
  comparable to_commit_path q = false ->
  lookup q (final (add files st)) = lookup q st.
Proof.
  intros Hq. unfold add.
  destruct (add_fuel (S (height st)) files st) as [o|] eqn:R; [|reflexivity].
  apply (confined_add_fuel (S (height st)) files st o R).
  unfold outside. cbn [forallb]. now rewrite Hq.
Qed.

Lemma add_changes_only_the_staging_file_witness :
  lookup ["sub"] (final (add [["sub"]; ["c.txt"]] Example.b_committed))
  = lookup ["sub"] Example.b_committed /\
  lookup head_path (final (add [["sub"]; ["c.txt"]] Example.b_committed))
  = lookup head_path Example.b_committed.
Proof.
  split;
    apply (add_changes_only_the_staging_file [["sub"]; ["c.txt"]]
             Example.b_committed); reflexivity.
Defined.

(** [commit] writes to [HEAD] and below the directory of the new commit,
    nowhere else.  When the staging list names paths of the tree, every
    file and directory of the working tree, the staging file, and the record
    and snapshot of every earlier commit are as they were, whether the call
    returns or raises. *)
Theorem commit_changes_only_its_record (h : string) (st : node) (tc : string)
    (q : path) :
  uuid4_hex h = true ->
  content to_commit_path st = Some tc ->
  (forall line, In line (splitlines (universal_newlines tc)) ->
                exists s, resolve [] line = Some s) ->
  comparable head_path q = false ->
  comparable (commit_path h) q = false ->
  lookup q (final (commit h st)) = lookup q st.
Proof.
  intros Hu Htc Hlines Hq1 Hq2.
  set (roots := [head_path; commit_path h]).
  assert (Hq : outside roots q = true).
  { unfold outside, roots. cbn [forallb]. now rewrite Hq1, Hq2. }
  destruct (path_exists (commit_path h) st) eqn:Hfresh.
  { rewrite commit_split, Hfresh. reflexivity. }
  pose proof (confined_commit_record h st q Hq) as F1.
  destruct (commit_record h st) as [[] st1|e st1] eqn:R.
  2:{ rewrite commit_split, Hfresh. unfold bind. now rewrite R. }
  simpl in F1. rewrite <- F1.
  rewrite (commit_run h st tc st1 Hu Htc Hfresh R).
  change (commit_dir_path h) with (commit_path h ++ [COMMIT_DIR]).
  apply (confined_copy_files roots (commit_path h) [COMMIT_DIR]);
    [right; now left | exact Hlines | exact Hq].
Qed.

Lemma commit_changes_only_its_record_witness :
  lookup (commit_path Example.id1)
    (final (commit Example.id2 Example.c_added))
  = lookup (commit_path Example.id1) Example.c_added /\
  lookup [] (final (commit Example.id2 Example.c_added)) <>
  lookup [] Example.c_added.
Proof.
  split; [|vm_compute; discriminate].
  apply (commit_changes_only_its_record Example.id2 Example.c_added
           (unlines ["b.txt"; "c.txt"])).
  - reflexivity.
  - reflexivity.
  - intros line H. vm_compute in H.
    destruct H as [<-|[<-|[]]]; eexists; reflexivity.
  - reflexivity.
  - reflexivity.
Defined.

(** * What [commit] needs, and what [status] tells after [init] and
    [commit] *)

Section Sources.

(** [copy2] returns only when its source is a regular file, and the tree of
    the repository is not one. *)
Lemma copy2_source src dst st st' :
  copy2 src dst st = Done tt st' -> dst <> [] ->
  exists s, src = Some s /\ s <> [] /\ isfile s st = true.
Proof.
  unfold copy2. destruct src as [s|]; [|discriminate]. cbv zeta.
  intros H Hd. exists s. split; [reflexivity|].
  match type of H with
  | context [list_eq_dec string_dec s ?d] =>
      assert (Hd' : d <> []);
      [ destruct (isdir dst st); [now destruct dst | exact Hd]
      | revert H Hd'; generalize d; intros dst' H Hd' ]
  end.
  destruct (list_eq_dec string_dec s dst'); [discriminate|].
  unfold bind, read_bytes in H. unfold isfile.
  destruct (lookup s st) as [[data|ents]|] eqn:L; try discriminate.
  split; [|reflexivity]. intros ->. simpl in L. inversion L; subst st.
  destruct dst' as [|c r]; [congruence|].
  unfold write_file, change in H. simpl in H. discriminate.
Qed.

Lemma outside_marker s :
  s <> [] -> (forall r, s <> REPO_DIR :: r) ->
  outside [[REPO_DIR]] s = true.
Proof.
  intros Hs Hr. destruct s as [|c s]; [congruence|].
  unfold outside. cbn [forallb comparable].
  destruct (String.eqb_spec REPO_DIR c) as [<-|_]; [|reflexivity].
  now destruct (Hr s).
Qed.

(** The loop of [generateDirTree] returns only when every line names a
    path of the tree that is a regular file. *)
Lemma copy_files_sources d files : forall s0 s',
  copy_files ([REPO_DIR] ++ d) files s0 = Done tt s' ->
  forall f, In f files ->
    exists s, resolve [] f = Some s /\ s <> [] /\
              ((forall r, s <> REPO_DIR :: r) -> isfile s s0 = true).
Proof.
  induction files as [|f0 files IH]; intros s0 s' H f Hin; [contradiction|].
  cbn [copy_files] in H.
  destruct (resolve ([REPO_DIR] ++ d) f0) as [np|] eqn:RD; [|discriminate].
  unfold bind in H.
  destruct (if negb (isdir (dirname np) s0) then makedirs np s0 else Done tt s0)
    as [[] s1|] eqn:M; [|discriminate].
  destruct (copy2 (resolve [] f0) np s1) as [[] s2|] eqn:C; [|discriminate].
  assert (Hnp : np <> []).
  { intros ->. destruct (resolve [] f0) as [s|] eqn:R0.
    - rewrite (resolve_extend ([REPO_DIR] ++ d) f0 s R0) in RD. discriminate.
    - unfold copy2 in C. discriminate. }
  destruct (copy2_source _ _ _ _ C Hnp) as [s [Rs [Hs Hfile]]].
  assert (Enp : np = [REPO_DIR] ++ (d ++ s)).
  { rewrite (resolve_extend ([REPO_DIR] ++ d) f0 s Rs) in RD.
    rewrite app_assoc. congruence. }
  subst np. clear RD.
  assert (F1 : forall q, outside [[REPO_DIR]] q = true ->
                         lookup q s1 = lookup q s0).
  { intros q Hq.
    pose proof (confined_new_dirs [[REPO_DIR]] [REPO_DIR] (d ++ s)
                  (or_introl eq_refl) s0 q Hq) as F.
    cbv beta in F. rewrite M in F. exact F. }
  assert (F2 : forall q, outside [[REPO_DIR]] q = true ->
                         lookup q s2 = lookup q s1).
  { intros q Hq.
    pose proof (confined_copy2 [[REPO_DIR]] (resolve [] f0)
                  ([REPO_DIR] ++ (d ++ s))) as F.
    specialize (F ltac:(intros x; rewrite <- !app_assoc;
                        apply near_below; now left) s1 q Hq).
    rewrite C in F. exact F. }
  destruct Hin as [<-|Hin].
  - exists s. split; [exact Rs | split; [exact Hs|]]. intros Hr.
    unfold isfile in *. now rewrite <- (F1 s (outside_marker s Hs Hr)).
  - destruct (IH s2 s' H f Hin) as [s'' [R'' [Hs'' Hf'']]].
    exists s''. split; [exact R'' | split; [exact Hs''|]]. intros Hr.
    specialize (Hf'' Hr). unfold isfile in *.
    pose proof (outside_marker s'' Hs'' Hr) as Ho.
    now rewrite <- (F1 _ Ho), <- (F2 _ Ho).
Qed.

Lemma outside_record h s :
  outside [[REPO_DIR]] s = true ->
  outside [head_path; commit_path h] s = true.
Proof.
  unfold outside. cbn [forallb]. destruct s as [|c s]; [discriminate|].
  cbn [comparable head_path commit_path].
  destruct (String.eqb REPO_DIR c); [discriminate | reflexivity].
Qed.

(** The loop of [generateDirTree] on lines that name regular files at the
    top of the working tree returns. *)
Lemma copy_files_top_runs h files : forall s,
  isdir (commit_dir_path h) s = true ->
  (forall name, isdir (commit_dir_path h ++ [name]) s = false) ->
  (forall f, In f files ->
     exists name, resolve [] f = Some [name] /\ isfile [name] s = true) ->
  exists s', copy_files (commit_dir_path h) files s = Done tt s'.
Proof.
  set (D := commit_dir_path h).
  induction files as [|f rest IH]; intros s HD Hnd Hflat.
  - exists s. reflexivity.
  - destruct (Hflat f (or_introl eq_refl)) as [name [Rf Hfile]].
    cbn [copy_files]. rewrite (resolve_extend D f [name] Rf).
    unfold bind at 1.
    unfold dirname. rewrite removelast_last, HD. simpl negb. cbv iota.
    unfold bind at 1. unfold copy2. rewrite Rf, (Hnd name).
    destruct (list_eq_dec string_dec [name] (D ++ [name])) as [E|_];
      [discriminate E|].
    unfold bind at 1. unfold read_bytes. unfold isfile in Hfile.
    destruct (lookup [name] s) as [[data|ents]|] eqn:L; try discriminate.
    destruct (put_succeeds (D ++ [name]) (File data) s) as [s1 P].
    { discriminate. }
    { unfold dirname. now rewrite removelast_last. }
    assert (W : write_file (D ++ [name]) data s = Done tt s1).
    { unfold write_file, change. now rewrite (Hnd name), P. }
    rewrite W.
    apply IH.
    + exact (isdir_put_above D name [] _ _ _ P).
    + intros n. unfold isdir.
      destruct (String.eqb_spec name n) as [<-|Hne].
      * now rewrite (lookup_put_here _ _ _ _ P).
      * rewrite (lookup_put_frame _ _ _ _ (D ++ [n]) P).
        -- exact (Hnd n).
        -- rewrite comparable_app_same. cbn [comparable].
           destruct (String.eqb_spec name n); [contradiction | reflexivity].
    + intros g Hg. destruct (Hflat g (or_intror Hg)) as [gname [Rg Hgfile]].
      exists gname. split; [exact Rg|]. unfold isfile in *.
      destruct (lookup [gname] s) as [[x|ents]|] eqn:Lg; try discriminate.
      assert (K : content [gname] s1 = Some x).
      { apply (put_keeps (D ++ [name]) _ s s1 [gname] x P (Hnd name)).
        - now apply content_lookup.
        - discriminate. }
      apply content_lookup in K. now rewrite K.
Qed.

End Sources.

Lemma commit_done_sources (h : string) (st st' : node) (tc line : string) :
  uuid4_hex h = true ->
  content to_commit_path st = Some tc ->
  commit h st = Done tt st' ->
  In line (splitlines (universal_newlines tc)) ->
  exists s, resolve [] line = Some s /\ s <> [] /\
            ((forall r, s <> REPO_DIR :: r) -> isfile s st = true).
Proof.
  intros Hu Htc H Hin.
  destruct (path_exists (commit_path h) st) eqn:Hfresh.
  { rewrite commit_split, Hfresh in H. discriminate. }
  destruct (commit_record h st) as [[] st1|e st1] eqn:R.
  2:{ rewrite commit_split, Hfresh in H. unfold bind in H.
      rewrite R in H. discriminate. }
  rewrite (commit_run h st tc st1 Hu Htc Hfresh R) in H.
  destruct (copy_files_sources [h; COMMIT_DIR] _ st1 st' H line Hin)
    as [s [Rs [Hs Hf]]].
  exists s. split; [exact Rs | split; [exact Hs|]]. intros Hr.
  specialize (Hf Hr). unfold isfile in *.
  pose proof (confined_commit_record h st s
                (outside_record h s (outside_marker s Hs Hr))) as F.
  rewrite R in F. simpl in F. now rewrite <- F.
Qed.

(** [commit] returns for a flat repository: in an initialised repository,
    with a new identifier, when every line of the staging list names a
    regular file at the top of the working tree, the call returns. *)
Theorem commit_returns_for_top_level_files (h : string) (st : node)
    (hd tc : string) :
  uuid4_hex h = true ->
  content head_path st = Some hd ->
  content to_commit_path st = Some tc ->
  lookup (commit_path h) st = None ->
  (forall line, In line (splitlines (universal_newlines tc)) ->
     exists name, resolve [] line = Some [name] /\ isfile [name] st = true) ->
  exists st', commit h st = Done tt st'.
Proof.
  intros Hu Hhd Htc Hfresh Hflat.
  destruct (commit_record_run h st hd tc Hhd Htc Hfresh)
    as [st1 [R [_ [_ [_ [_ [HD Out]]]]]]].
  assert (Hex : path_exists (commit_path h) st = false)
    by (unfold path_exists; now rewrite Hfresh).
  rewrite (commit_run h st tc st1 Hu Htc Hex R).
  apply copy_files_top_runs.
  - unfold isdir. now rewrite HD.
  - intros name. unfold isdir.
    change (commit_dir_path h ++ [name]) with (commit_dir_path h ++ [name]).
    rewrite lookup_app, HD. reflexivity.
  - intros f Hf. destruct (Hflat f Hf) as [name [Rf Hfile]].
    exists name. split; [exact Rf|].
    unfold isfile in *. rewrite (Out [name]); [exact Hfile|].
    cbn [comparable].
    destruct (String.eqb_spec REPO_DIR name) as [<-|_]; [|reflexivity].
    apply content_lookup in Hhd.
    pose proof (lookup_parent_dir [REPO_DIR] HEAD [] st _ Hhd) as Dd.
    unfold isdir in Dd.
    destruct (lookup [REPO_DIR] st) as [[x|ents]|]; discriminate.
Qed.

Lemma commit_returns_for_top_level_files_witness :
  exists st', commit Example.id2 Example.c_added = Done tt st'.
Proof.
  apply (commit_returns_for_top_level_files Example.id2 Example.c_added
           Example.id1 (unlines ["b.txt"; "c.txt"])).
  - reflexivity.
  - reflexivity.
  - reflexivity.
  - reflexivity.
  - intros line H. vm_compute in H.
    destruct H as [<-|[<-|[]]]; eexists; split; reflexivity.
Defined.

Section Fresh.

Lemma flat_map_set_entry (T : string * node -> list path) k x ents :
  (forall v, T (k, v) = []) ->
  flat_map T (set_entry k x ents) = flat_map T ents.
Proof.
  intros Hk. induction ents as [|[k' w] ents IH]; simpl.
  - now rewrite Hk.
  - destruct (String.eqb_spec k' k) as [->|_]; simpl.
    + now rewrite !Hk.
    + now rewrite IH.
Qed.

(** [allFiles] does not see what is written below a hidden name of the top
    directory. *)
Lemma walk_put_hidden k p v n n' :
  hidden k = true -> put (k :: p) v n = Some n' -> walk [] n' = walk [] n.
Proof.
  intros Hk P. destruct n as [|ents]; [discriminate|].
  assert (E : exists x, n' = Dir (set_entry k x ents)).
  { rewrite put_cons in P. destruct p.
    - inversion P. eauto.
    - destruct (assoc k ents); [|discriminate].
      destruct (put _ _ _); [|discriminate]. inversion P. eauto. }
  destruct E as [x ->]. cbn [walk]. f_equal.
  - apply flat_map_set_entry. intros w. cbn [fst snd]. rewrite Hk.
    now destruct w.
  - apply flat_map_set_entry. intros w. cbn [fst snd]. rewrite Hk.
    now destruct w.
Qed.

End Fresh.

(** [status] in a repository just made by [init]: every visible file of the
    directory is reported as a new file, in the order of the walk, and
    nothing else is printed. *)
Theorem status_of_fresh_repository (work st : node) :
  init work = Done tt st ->
  status st
  = Done (map (fun p => (render p ++ " (new file)")%string)
            (allFiles [] work)) st.
Proof.
  intros H. destruct (init_history work st H) as [Hh [[tc Htc] _]].
  simpl in Hh.
  revert H. unfold init.
  destruct (path_exists [REPO_DIR] work); [discriminate|]. unfold bind.
  destruct (mkdir [REPO_DIR] work) as [[] s1|] eqn:R1; [|discriminate].
  destruct (mknod head_path s1) as [[] s2|] eqn:R2; [|discriminate].
  intros R3. apply mkdir_inv in R1 as [_ P1].
  apply mknod_inv in R2 as [_ P2]. apply mknod_inv in R3 as [_ P3].
  assert (Htc' : content to_commit_path st = Some EmptyString).
  { apply content_lookup. exact (lookup_put_here _ _ _ _ P3). }
  assert (W : allFiles [] st = allFiles [] work).
  { unfold allFiles. cbn [lookup].
    rewrite (walk_put_hidden REPO_DIR [TO_COMMIT] _ _ _ eq_refl P3).
    rewrite (walk_put_hidden REPO_DIR [HEAD] _ _ _ eq_refl P2).
    exact (walk_put_hidden REPO_DIR [] _ _ _ eq_refl P1). }
  unfold status.
  rewrite (status_loop_spec st EmptyString [] [] _
             (lastCommitHash_content st _ Hh)
             (fun E => False_ind _ (Bool.diff_false_true E))
             (toCommitList_content st _ Htc')).
  f_equal. rewrite W. unfold changePathsRef. clear.
  induction (allFiles [] work) as [|p ps IH]; [reflexivity|].
  cbn [map flat_map]. rewrite IH. reflexivity.
Qed.

Lemma status_of_fresh_repository_witness :
  init Example.work = Done tt Example.initialised /\
  status Example.initialised
  = Done ["b.txt (new file)"; "c.txt (new file)"; "sub/a.txt (new file)"]
      Example.initialised.
Proof.
  assert (H : init Example.work = Done tt Example.initialised)
    by reflexivity.
  split; [exact H|].
  exact (status_of_fresh_repository Example.work Example.initialised H).
Defined.

Lemma status_after_commit_run (h : string) (st st' : node) (tc : string) :
  uuid4_hex h = true ->
  content to_commit_path st = Some tc ->
  commit h st = Done tt st' ->
  status st'
  = Done (flat_map
            (fun f => if mem f (splitlines (universal_newlines tc)) then []
                      else [(f ++ " (new file)")%string])
            (changePathsRef (allFiles [] st'))) st'.
Proof.
  intros Hu Htc H.
  destruct (commit_done_initialised h st st' H) as [[[hd Hhd] _] Hfresh].
  destruct (commit_final h st hd tc Hhd Htc Hfresh)
    as [st1 [_ [_ [_ [_ [F1 [_ [F3 F4]]]]]]]].
  rewrite H in F1, F3, F4. simpl in F1, F3, F4.
  destruct (uuid4_hex_token h Hu) as [Hread Hne].
  pose proof (lastCommitHash_content st' h F1) as L. rewrite Hread in L.
  assert (T : trackedList h st'
              = Done (splitlines (universal_newlines tc)) st').
  { unfold trackedList, bind, ret.
    rewrite (read_text_content _ _ _ F3).
    now rewrite universal_newlines_twice. }
  unfold status.
  rewrite (status_loop_spec st' h _ _ _ L (fun _ => T)
             (toCommitList_content st' tc F4)).
  f_equal. apply flat_map_ext. intros f. unfold class_of. rewrite Hne.
  now destruct (mem f (splitlines (universal_newlines tc))).
Qed.

Section Missing.

Lemma add_scan_existing st files : forall ls dirs written,
  add_scan st (filter (fun f => path_exists f st) files) ls dirs written
  = add_scan st files ls dirs written.
Proof.
  induction files as [|f files IH]; intros ls dirs written; [reflexivity|].
  cbn [filter add_scan]. unfold path_exists at 1.
  destruct (lookup f st) as [[d|ents]|] eqn:L.
  - cbn [add_scan]. rewrite L.
    destruct (mem (render f) ls); apply IH.
  - cbn [add_scan]. rewrite L. apply IH.
  - apply IH.
Qed.

End Missing.

(** [add] goes past a path that does not exist (line 108 of the source
    prints a message and continues): the call does to the tree what it does
    without the missing paths, so the files named beside them are staged. *)
Theorem add_skips_missing_paths (files : list path) (st : node) :
  add files st = add (filter (fun f => path_exists f st) files) st.
Proof.
  unfold add. cbn [add_fuel].
  destruct (toCommitList st) as [ls s0|e s0] eqn:T; [|reflexivity].
  apply toCommitList_inv in T as [-> _].
  now rewrite add_scan_existing.
Qed.

(** * The snapshot of a file in a sub-directory *)

Section Nested.

Lemma comparable_app_false p : forall q x,
  comparable p q = false -> comparable (p ++ x) q = false.
Proof.
  induction p as [|a p IH]; intros [|b q] x H; try discriminate.
  simpl in *. destruct (String.eqb a b); [now apply IH | reflexivity].
Qed.

(** [os.makedirs] goes past the directories that exist. *)
Lemma makedirs_from_existing pre : forall above rest s,
  rest <> [] -> isdir (above ++ pre) s = true ->
  makedirs_from above (pre ++ rest) s = makedirs_from (above ++ pre) rest s.
Proof.
  induction pre as [|c pre IH]; intros above rest s Hr Hd.
  - now rewrite app_nil_r.
  - change ((c :: pre) ++ rest) with (c :: (pre ++ rest)).
    cbn [makedirs_from].
    replace (above ++ c :: pre) with ((above ++ [c]) ++ pre) in *
      by (now rewrite <- app_assoc).
    assert (E : path_exists (above ++ [c]) s = true).
    { unfold isdir in Hd. rewrite lookup_app in Hd. unfold path_exists.
      destruct (lookup (above ++ [c]) s); [reflexivity | discriminate]. }
    destruct (pre ++ rest) eqn:El.
    { apply app_eq_nil in El as [_ ->]. congruence. }
    rewrite E, <- El. now apply IH.
Qed.

(** [os.makedirs] below a directory where the first name is new: every
    directory of the path is made, the last one included. *)
Lemma makedirs_from_new rest : forall above c s,
  isdir above s = true -> lookup (above ++ [c]) s = None ->
  exists s',
    makedirs_from above (c :: rest) s = Done tt s' /\
    lookup (above ++ c :: rest) s' = Some (Dir []) /\
    (forall q, comparable (above ++ [c]) q = false ->
               lookup q s' = lookup q s).
Proof.
  induction rest as [|c' rest IH]; intros above c s Hd Hn.
  - cbn [makedirs_from].
    destruct (mkdir_run (above ++ [c]) s Hn) as [s' [R P]].
    { now destruct above. }
    { unfold dirname. now rewrite removelast_last. }
    exists s'. split; [exact R | split].
    + exact (lookup_put_here _ _ _ _ P).
    + intros q Hq. exact (lookup_put_frame _ _ _ _ q P Hq).
  - cbn [makedirs_from].
    assert (E : path_exists (above ++ [c]) s = false)
      by (unfold path_exists; now rewrite Hn).
    rewrite E. unfold bind.
    destruct (mkdir_run (above ++ [c]) s Hn) as [s1 [R P]].
    { now destruct above. }
    { unfold dirname. now rewrite removelast_last. }
    rewrite R.
    destruct (IH (above ++ [c]) c' s1) as [s' [R' [L' F']]].
    { unfold isdir. now rewrite (lookup_put_here _ _ _ _ P). }
    { now rewrite (lookup_put_under _ _ _ _ [c'] P). }
    exists s'. split; [exact R' | split].
    + now rewrite <- app_assoc in L'.
    + intros q Hq. rewrite (F' q (comparable_app_false _ q [c'] Hq)).
      exact (lookup_put_frame _ _ _ _ q P Hq).
Qed.

(** A new entry in the directory at [q]. *)
Lemma lookup_put_entry q : forall c v s s' ents,
  put (q ++ [c]) v s = Some s' -> lookup q s = Some (Dir ents) ->
  lookup q s' = Some (Dir (set_entry c v ents)).
Proof.
  induction q as [|d q IH]; intros c v s s' ents P L.
  - simpl in L. inversion L; subst s. simpl in P. now inversion P.
  - destruct s as [|es]; [discriminate|].
    change ((d :: q) ++ [c]) with (d :: (q ++ [c])) in P.
    rewrite put_cons in P.
    destruct (q ++ [c]) eqn:El; [now destruct q|]. rewrite <- El in P.
    cbn [lookup] in L.
    destruct (assoc d es) as [m|]; [|discriminate].
    destruct (put (q ++ [c]) v m) as [m'|] eqn:Pm; [|discriminate].
    inversion P; subst s'. cbn [lookup]. rewrite assoc_set_eq.
    exact (IH c v m m' ents Pm L).
Qed.

Lemma last_snoc (l : list string) (x d : string) : last (l ++ [x]) d = x.
Proof.
  induction l as [|a l IH]; [reflexivity|].
  simpl. destruct (l ++ [x]) eqn:E; [now destruct l | exact IH].
Qed.

(** The loop of [generateDirTree] on one line that names a file in a
    sub-directory the snapshot does not have. *)
Lemma copy_nested D d1 dir name data s f :
  D <> [] ->
  lookup D s = Some (Dir []) ->
  resolve [] f = Some (d1 :: dir ++ [name]) ->
  comparable D (d1 :: dir ++ [name]) = false ->
  content (d1 :: dir ++ [name]) s = Some data ->
  exists s',
    copy_files D [f] s = Done tt s' /\
    lookup (D ++ d1 :: dir ++ [name]) s' = Some (Dir [(name, File data)]) /\
    content (d1 :: dir ++ [name]) s' = Some data.
Proof.
  intros HD LD Rf Hc Hsrc. set (p := d1 :: dir ++ [name]) in *.
  cbn [copy_files]. rewrite (resolve_extend D f p Rf).
  assert (Edir : dirname (D ++ p) = D ++ d1 :: dir).
  { unfold dirname, p. change (d1 :: dir ++ [name]) with ((d1 :: dir) ++ [name]).
    now rewrite app_assoc, removelast_last. }
  assert (Hnd : isdir (dirname (D ++ p)) s = false).
  { rewrite Edir. unfold isdir. rewrite lookup_app, LD. reflexivity. }
  unfold bind at 1. rewrite Hnd. cbn [negb].
  unfold makedirs.
  rewrite (makedirs_from_existing D [] p s); [|discriminate|].
  2:{ unfold isdir. simpl. now rewrite LD. }
  destruct (makedirs_from_new (dir ++ [name]) D d1 s) as [s1 [R1 [L1 F1]]].
  { unfold isdir. now rewrite LD. }
  { rewrite lookup_app, LD. reflexivity. }
  simpl app at 1. fold p in R1, L1. rewrite R1.
  assert (Hsrc1 : lookup p s1 = Some (File data)).
  { rewrite (F1 p); [now apply content_lookup|].
    apply comparable_app_false. exact Hc. }
  unfold bind at 1. unfold copy2. rewrite Rf.
  assert (Hd1 : isdir (D ++ p) s1 = true) by (unfold isdir; now rewrite L1).
  rewrite Hd1.
  assert (Eb : basename p = name).
  { unfold basename, p. change (d1 :: dir ++ [name]) with ((d1 :: dir) ++ [name]).
    apply last_snoc. }
  rewrite Eb.
  destruct (list_eq_dec string_dec p ((D ++ p) ++ [name])) as [E|_].
  { exfalso. apply (f_equal (@length string)) in E.
    rewrite !length_app in E. simpl in E. lia. }
  unfold bind at 1. unfold read_bytes. rewrite Hsrc1.
  assert (Hn : lookup ((D ++ p) ++ [name]) s1 = None)
    by (now rewrite lookup_app, L1).
  destruct (put_succeeds ((D ++ p) ++ [name]) (File data) s1) as [s2 P].
  { now destruct (D ++ p). }
  { unfold dirname. now rewrite removelast_last. }
  assert (W : write_file ((D ++ p) ++ [name]) data s1 = Done tt s2).
  { unfold write_file, change, isdir. now rewrite Hn, P. }
  rewrite W. exists s2. split; [reflexivity | split].
  - exact (lookup_put_entry (D ++ p) name _ s1 s2 [] P L1).
  - apply (put_keeps ((D ++ p) ++ [name]) _ s1 s2 p data P).
    + unfold isdir. now rewrite Hn.
    + now apply content_lookup.
    + intros E. apply (f_equal (@length string)) in E.
      rewrite !length_app in E. simpl in E. lia.
Qed.

End Nested.

(** The snapshot of a file in a sub-directory.  When the staging list holds
    one line and it names a regular file in a sub-directory of the working
    tree, [commit] returns, and the snapshot holds a directory at the path of
    the file, with the copy inside it under the name of the file: the bytes
    of [dir/name] are found at [dir/name/name], and no regular file stands at
    [dir/name]. *)
Theorem snapshot_of_nested_file (h : string) (st : node) (hd : string)
    (d1 : string) (dir : path) (name data : string) :
  uuid4_hex h = true ->
  content head_path st = Some hd ->
  content to_commit_path st = Some (unlines [render (d1 :: dir ++ [name])]) ->
  lookup (commit_path h) st = None ->
  forallb valid_name (d1 :: dir ++ [name]) = true ->
  clean (render (d1 :: dir ++ [name])) = true ->
  String.eqb REPO_DIR d1 = false ->
  content (d1 :: dir ++ [name]) st = Some data ->
  exists st',
    commit h st = Done tt st' /\
    lookup (commit_dir_path h ++ d1 :: dir ++ [name]) st'
    = Some (Dir [(name, File data)]) /\
    content (commit_dir_path h ++ d1 :: dir ++ [name]) st' = None /\
    content (commit_dir_path h ++ d1 :: dir ++ [name] ++ [name]) st'
    = Some data /\
    content (d1 :: dir ++ [name]) st' = Some data.
Proof.
  intros Hu Hhd Htc Hfresh Hv Hcl Hd1 Hsrc.
  set (p := d1 :: dir ++ [name]) in *.
  destruct (commit_record_run h st hd _ Hhd Htc Hfresh)
    as [st1 [R [_ [_ [_ [_ [HD Out]]]]]]].
  assert (Hex : path_exists (commit_path h) st = false)
    by (unfold path_exists; now rewrite Hfresh).
  rewrite (commit_run h st _ st1 Hu Htc Hex R).
  assert (Hls : forallb clean [render p] = true)
    by (cbn [forallb]; now rewrite Hcl).
  rewrite (universal_newlines_unlines _ Hls), (splitlines_unlines _ Hls).
  assert (Hc : comparable [REPO_DIR] p = false).
  { unfold p. cbn [comparable]. now rewrite Hd1. }
  destruct (copy_nested (commit_dir_path h) d1 dir name data st1 (render p))
    as [st' [C [L K]]].
  - discriminate.
  - exact HD.
  - exact (resolve_of_render [] p Hv).
  - change (commit_dir_path h) with ([REPO_DIR] ++ [h; COMMIT_DIR]).
    now apply comparable_app_false.
  - change (content p st1 = Some data). unfold content in *.
    now rewrite (Out p Hc).
  - fold p in L, K.
    exists st'. split; [exact C | split; [exact L | split; [|split]]].
    + unfold content. now rewrite L.
    + unfold content.
      replace (commit_dir_path h ++ d1 :: dir ++ [name] ++ [name])
        with ((commit_dir_path h ++ p) ++ [name]).
      * rewrite lookup_app, L. simpl. now rewrite String.eqb_refl.
      * unfold p. rewrite <- app_assoc. simpl. now rewrite <- app_assoc.
    + exact K.
Qed.

Lemma snapshot_of_nested_file_witness :
  exists st',
    commit Example.id1 (final (add [["sub"; "a.txt"]] Example.initialised))
    = Done tt st' /\
    lookup (commit_dir_path Example.id1 ++ ["sub"; "a.txt"]) st'
    = Some (Dir [("a.txt", File "x")]) /\
    content (commit_dir_path Example.id1 ++ ["sub"; "a.txt"]) st' = None /\
    content (commit_dir_path Example.id1 ++ ["sub"; "a.txt"; "a.txt"]) st'
    = Some "x" /\
    content ["sub"; "a.txt"] st' = Some "x".
Proof.
  apply (snapshot_of_nested_file Example.id1
           (final (add [["sub"; "a.txt"]] Example.initialised))
           "" "sub" [] "a.txt" "x"); reflexivity.
Defined.

(** * The working tree under [add] and [commit], and the cycle [init],
    [add], [commit], [status] *)

Section MarkerOnly.

Lemma set_entry_twice k x y ents :
  set_entry k y (set_entry k x ents) = set_entry k y ents.
Proof.
  induction ents as [|[k' w] ents IH]; simpl.
  - now rewrite String.eqb_refl.
  - destruct (String.eqb k' k) eqn:E; simpl; rewrite E; [reflexivity|].
    now rewrite IH.
Qed.

Lemma marker_step_refl n : marker_step n n.
Proof. now left. Qed.

Lemma marker_step_trans a b c :
  marker_step a b -> marker_step b c -> marker_step a c.
Proof.
  intros [->|[ents [x [-> ->]]]] H; [exact H|].
  destruct H as [->|[ents' [y [E ->]]]].
  - right. now exists ents, x.
  - inversion E; subst ents'. right. exists ents, y.
    split; [reflexivity | now rewrite set_entry_twice].
Qed.

Lemma marker_step_put p v n n' :
  put (REPO_DIR :: p) v n = Some n' -> marker_step n n'.
Proof.
  intros P. destruct n as [|ents]; [discriminate|]. right.
  rewrite put_cons in P. destruct p.
  - inversion P. now exists ents, v.
  - destruct (assoc REPO_DIR ents); [|discriminate].
    destruct (put _ _ _) as [m'|]; [|discriminate].
    inversion P. now exists ents, m'.
Qed.

Lemma marker_step_walk n n' : marker_step n n' -> walk [] n' = walk [] n.
Proof.
  intros [->|[ents [x [-> ->]]]]; [reflexivity|].
  cbn [walk]. f_equal; apply flat_map_set_entry; intros w; cbn [fst snd];
    now destruct w.
Qed.

Lemma marker_only_ret {A} (a : A) : marker_only (ret a).
Proof. intros st. apply marker_step_refl. Qed.

Lemma marker_only_raise {A} e : marker_only (@raise A e).
Proof. intros st. apply marker_step_refl. Qed.

Lemma marker_only_bind {A B} (m : M A) (k : A -> M B) :
  marker_only m -> (forall a, marker_only (k a)) -> marker_only (bind m k).
Proof.
  intros Hm Hk st. unfold bind. specialize (Hm st).
  destruct (m st) as [a s|e s]; simpl in *; [|exact Hm].
  exact (marker_step_trans _ _ _ Hm (Hk a s)).
Qed.

Lemma marker_only_if {A} (b : node -> bool) (m1 m2 : M A) :
  marker_only m1 -> marker_only m2 ->
  marker_only (fun st => if b st then m1 st else m2 st).
Proof. intros H1 H2 st. destruct (b st); [apply H1 | apply H2]. Qed.

Lemma marker_only_change p v : marker_only (change (put (REPO_DIR :: p) v)).
Proof.
  intros st. unfold change.
  destruct (put (REPO_DIR :: p) v st) as [st'|] eqn:P;
    [exact (marker_step_put p v st st' P) | apply marker_step_refl].
Qed.

Lemma marker_only_mkdir p : marker_only (mkdir (REPO_DIR :: p)).
Proof.
  intros st. unfold mkdir. destruct (path_exists _ st);
    [apply marker_step_refl | apply marker_only_change].
Qed.

Lemma marker_only_mknod p : marker_only (mknod (REPO_DIR :: p)).
Proof.
  intros st. unfold mknod. destruct (path_exists _ st);
    [apply marker_step_refl | apply marker_only_change].
Qed.

Lemma marker_only_write_file p data :
  marker_only (write_file (REPO_DIR :: p) data).
Proof.
  intros st. unfold write_file. destruct (isdir _ st);
    [apply marker_step_refl | apply marker_only_change].
Qed.

Lemma marker_only_append_file p data :
  marker_only (append_file (REPO_DIR :: p) data).
Proof.
  intros st. unfold append_file.
  destruct (lookup _ st) as [[old|ents]|];
    [apply marker_only_change | apply marker_step_refl
     | apply marker_only_change].
Qed.

Lemma marker_only_read_text p : marker_only (read_text p).
Proof. intros st. rewrite final_read_text. apply marker_step_refl. Qed.

Lemma marker_only_lastCommitHash : marker_only lastCommitHash.
Proof. intros st. rewrite final_lastCommitHash. apply marker_step_refl. Qed.

Lemma marker_only_toCommitList : marker_only toCommitList.
Proof.
  unfold toCommitList. apply marker_only_bind; [apply marker_only_read_text|].
  intros text. apply marker_only_ret.
Qed.

Lemma marker_only_makedirs_from rest : forall above c r,
  above ++ [c] = REPO_DIR :: r ->
  marker_only (makedirs_from above (c :: rest)).
Proof.
  induction rest as [|c' rest IH]; intros above c r E; cbn [makedirs_from].
  - rewrite E. apply marker_only_mkdir.
  - assert (Hrec : marker_only (makedirs_from (above ++ [c]) (c' :: rest))).
    { apply (IH (above ++ [c]) c' (r ++ [c'])). now rewrite E. }
    apply (marker_only_if (path_exists (above ++ [c]))); [exact Hrec|].
    apply marker_only_bind; [|intros _; exact Hrec].
    rewrite E. apply marker_only_mkdir.
Qed.

Lemma marker_only_copy2 src d : marker_only (copy2 src (REPO_DIR :: d)).
Proof.
  intros st. unfold copy2. destruct src as [s|]; [|apply marker_step_refl].
  cbv zeta.
  match goal with
  | |- context [list_eq_dec string_dec s ?x] =>
      assert (N : exists r, x = REPO_DIR :: r);
      [ destruct (isdir (REPO_DIR :: d) st);
        [exists (d ++ [basename s]) | exists d]; reflexivity
      | revert N; generalize x; intros dst' [r ->] ]
  end.
  destruct (list_eq_dec string_dec s (REPO_DIR :: r));
    [apply marker_step_refl|].
  unfold bind, read_bytes.
  destruct (lookup s st) as [[data|ents]|]; try apply marker_step_refl.
  apply marker_only_write_file.
Qed.

Lemma marker_only_copy_files d files :
  (forall f, In f files -> exists s, resolve [] f = Some s) ->
  marker_only (copy_files (REPO_DIR :: d) files).
Proof.
  induction files as [|f files IH]; intros Hf; [apply marker_only_ret|].
  cbn [copy_files].
  destruct (Hf f (or_introl eq_refl)) as [s Hs].
  rewrite (resolve_extend (REPO_DIR :: d) f s Hs).
  apply marker_only_bind; [|intros _; apply marker_only_bind].
  - apply (marker_only_if
             (fun st => negb (isdir (dirname ((REPO_DIR :: d) ++ s)) st))
             (makedirs ((REPO_DIR :: d) ++ s)) (ret tt));
      [|apply marker_only_ret].
    unfold makedirs. simpl app.
    apply (marker_only_makedirs_from (d ++ s) [] REPO_DIR []). reflexivity.
  - apply marker_only_copy2.
  - intros _. apply IH. intros f' Hf'. apply Hf. now right.
Qed.

Lemma marker_only_generateDirTree files :
  (forall f, In f files -> exists s, resolve [] f = Some s) ->
  marker_only (generateDirTree files).
Proof.
  intros Hf. unfold generateDirTree.
  apply marker_only_bind; [apply marker_only_lastCommitHash|]. intros h.
  destruct (negb (nonempty h)); [apply marker_only_raise|].
  apply marker_only_bind; [apply marker_only_lastCommitHash|]. intros h'.
  now apply marker_only_copy_files.
Qed.

Lemma marker_only_commit_record h : marker_only (commit_record h).
Proof.
  unfold commit_record.
  apply marker_only_bind; [apply marker_only_mkdir|]. intros _.
  apply marker_only_bind; [apply marker_only_mkdir|]. intros _.
  apply marker_only_bind; [apply marker_only_mknod|]. intros _.
  apply marker_only_bind; [apply marker_only_mknod|]. intros _.
  apply marker_only_bind; [apply marker_only_lastCommitHash|]. intros last.
  apply marker_only_bind.
  { destruct (nonempty last);
      [apply marker_only_write_file | apply marker_only_ret]. }
  intros _.
  apply marker_only_bind; [apply marker_only_write_file|]. intros _.
  apply marker_only_bind; [apply marker_only_read_text|]. intros text.
  apply marker_only_write_file.
Qed.

Lemma marker_step_commit h st tc :
  content to_commit_path st = Some tc ->
  (forall line, In line (splitlines (universal_newlines tc)) ->
                exists s, resolve [] line = Some s) ->
  marker_step st (final (commit h st)).
Proof.
  intros Htc Hlines. rewrite commit_split.
  destruct (path_exists (commit_path h) st); [apply marker_step_refl|].
  unfold bind.
  pose proof (marker_only_commit_record h st) as S1.
  pose proof (keeps_commit_record to_commit_path h) as K.
  specialize (K ltac:(discriminate) ltac:(discriminate) ltac:(discriminate)
                st tc Htc).
  destruct (commit_record h st) as [[] st1|e st1]; [|exact S1].
  simpl in S1, K. apply (marker_step_trans _ _ _ S1).
  unfold commit_snapshot, bind. rewrite (toCommitList_content st1 tc K).
  now apply marker_only_generateDirTree.
Qed.

Lemma marker_step_add_subdirs rec :
  (forall files st o, rec files st = Some o -> marker_step st (final o)) ->
  forall dirs st o, add_subdirs rec dirs st = Some o ->
                    marker_step st (final o).
Proof.
  intros Hrec. induction dirs as [|dir dirs IH]; intros st o H.
  - simpl in H. inversion H; subst. apply marker_step_refl.
  - cbn [add_subdirs] in H. unfold listdir in H.
    destruct (lookup dir st) as [[d|ents]|];
      try (inversion H; subst; apply marker_step_refl).
    destruct (rec (map (fun f => dir ++ [f]) (map fst ents)) st)
      as [[[] s|e s]|] eqn:R; [| |discriminate].
    + exact (marker_step_trans _ _ _ (Hrec _ _ _ R) (IH s o H)).
    + inversion H; subst. exact (Hrec _ _ _ R).
Qed.

Lemma marker_step_add_fuel n : forall files st o,
  add_fuel n files st = Some o -> marker_step st (final o).
Proof.
  induction n as [|n IH]; intros files st o H; [discriminate|].
  cbn [add_fuel] in H.
  pose proof (marker_only_toCommitList st) as S0.
  destruct (toCommitList st) as [ls s0|e s0];
    [|inversion H; subst; exact S0].
  simpl in S0.
  destruct (add_scan s0 files ls [] "") as [[ls' dirs] written].
  pose proof (marker_only_append_file [TO_COMMIT] written s0) as S1.
  fold to_commit_path in S1.
  destruct (append_file to_commit_path written s0) as [[] s1|e s1];
    [|inversion H; subst; exact (marker_step_trans _ _ _ S0 S1)].
  simpl in S1.
  apply (marker_step_trans _ _ _ S0), (marker_step_trans _ _ _ S1).
  exact (marker_step_add_subdirs (add_fuel n) IH dirs s1 o H).
Qed.

Lemma marker_step_add files st : marker_step st (final (add files st)).
Proof.
  unfold add.
  destruct (add_fuel (S (height st)) files st) as [o|] eqn:R;
    [exact (marker_step_add_fuel _ _ _ _ R) | apply marker_step_refl].
Qed.

End MarkerOnly.

(** [add] and [commit] leave the working tree in place: after either call,
    returned or raised, the top directory has the entries it had, in the
    same order, but for the marker directory; so [status] walks the same
    files.  For [commit] the lines of the staging list are taken to name
    paths of the tree. *)
Theorem add_and_commit_leave_the_working_tree (h : string) (st : node)
    (tc : string) (files : list path) :
  content to_commit_path st = Some tc ->
  (forall line, In line (splitlines (universal_newlines tc)) ->
                exists s, resolve [] line = Some s) ->
  (marker_step st (final (add files st)) /\
   allFiles [] (final (add files st)) = allFiles [] st) /\
  (marker_step st (final (commit h st)) /\
   allFiles [] (final (commit h st)) = allFiles [] st).
Proof.
  intros Htc Hlines. unfold allFiles. cbn [lookup].
  pose proof (marker_step_add files st) as A.
  pose proof (marker_step_commit h st tc Htc Hlines) as C.
  split; (split; [assumption | now apply marker_step_walk]).
Qed.

Lemma add_and_commit_leave_the_working_tree_witness :
  (marker_step Example.c_added (final (add [["sub"]] Example.c_added)) /\
   allFiles [] (final (add [["sub"]] Example.c_added))
   = allFiles [] Example.c_added) /\
  (marker_step Example.c_added (final (commit Example.id2 Example.c_added)) /\
   allFiles [] (final (commit Example.id2 Example.c_added))
   = allFiles [] Example.c_added).
Proof.
  apply (add_and_commit_leave_the_working_tree Example.id2 Example.c_added
           (unlines ["b.txt"; "c.txt"]) [["sub"]]).
  - reflexivity.
  - intros line H. vm_compute in H.
    destruct H as [<-|[<-|[]]]; eexists; reflexivity.
Defined.

Section Cycle.

Lemma marker_step_lookup n n' q :
  marker_step n n' -> comparable [REPO_DIR] q = false ->
  lookup q n' = lookup q n.
Proof.
  intros [->|[ents [x [-> ->]]]] Hq; [reflexivity|].
  destruct q as [|c q]; [discriminate|]. cbn [comparable] in Hq.
  cbn [lookup]. rewrite assoc_set_ne; [reflexivity|].
  destruct (String.eqb REPO_DIR c); [discriminate | reflexivity].
Qed.

Lemma uuid4_hex_not_reserved h :
  uuid4_hex h = true ->
  String.eqb h HEAD = false /\ String.eqb h TO_COMMIT = false.
Proof.
  intros Hu. split.
  - destruct (String.eqb_spec h HEAD) as [->|_]; [discriminate Hu | reflexivity].
  - destruct (String.eqb_spec h TO_COMMIT) as [->|_];
      [discriminate Hu | reflexivity].
Qed.

(** [init] in a directory without marker directory. *)
Lemma init_run work :
  isdir [] work = true -> path_exists [REPO_DIR] work = false ->
  exists st,
    init work = Done tt st /\
    content head_path st = Some EmptyString /\
    content to_commit_path st = Some EmptyString /\
    marker_step work st /\
    (forall c, String.eqb c HEAD = false -> String.eqb c TO_COMMIT = false ->
               lookup [REPO_DIR; c] st = None).
Proof.
  intros Hroot E. unfold init. rewrite E. unfold bind.
  unfold path_exists in E.
  destruct (lookup [REPO_DIR] work) eqn:L; [discriminate|].
  destruct (mkdir_run [REPO_DIR] work L) as [s1 [R1 P1]];
    [discriminate | exact Hroot |].
  rewrite R1.
  destruct (mknod_run head_path s1) as [s2 [R2 P2]].
  { change head_path with ([REPO_DIR] ++ [HEAD]).
    now rewrite (lookup_put_under _ _ _ _ _ P1). }
  { discriminate. }
  { unfold isdir. change (dirname head_path) with [REPO_DIR].
    now rewrite (lookup_put_here _ _ _ _ P1). }
  rewrite R2.
  destruct (mknod_run to_commit_path s2) as [s3 [R3 P3]].
  { rewrite (lookup_put_frame _ _ _ _ _ P2) by reflexivity.
    change to_commit_path with ([REPO_DIR] ++ [TO_COMMIT]).
    now rewrite (lookup_put_under _ _ _ _ _ P1). }
  { discriminate. }
  { exact (isdir_put_above [REPO_DIR] HEAD [] _ _ _ P2). }
  exists s3. split; [exact R3 | split; [|split; [|split]]].
  - apply content_lookup.
    rewrite (lookup_put_frame _ _ _ _ head_path P3) by reflexivity.
    exact (lookup_put_here _ _ _ _ P2).
  - apply content_lookup. exact (lookup_put_here _ _ _ _ P3).
  - apply (marker_step_trans _ s1); [exact (marker_step_put _ _ _ _ P1)|].
    apply (marker_step_trans _ s2); [exact (marker_step_put _ _ _ _ P2)|].
    exact (marker_step_put _ _ _ _ P3).
  - intros c H1 H2.
    rewrite (lookup_put_frame _ _ _ _ [REPO_DIR; c] P3).
    2:{ unfold to_commit_path. cbn [comparable].
        now rewrite String.eqb_refl, (String.eqb_sym TO_COMMIT c), H2. }
    rewrite (lookup_put_frame _ _ _ _ [REPO_DIR; c] P2).
    2:{ unfold head_path. cbn [comparable].
        now rewrite String.eqb_refl, (String.eqb_sym HEAD c), H1. }
    change [REPO_DIR; c] with ([REPO_DIR] ++ [c]).
    now rewrite (lookup_put_under _ _ _ _ _ P1).
Qed.

End Cycle.

(** A [commit] that returns found every staged file.  When the staged
    lines name paths of the tree, each of these paths that is not in the
    marker directory was a regular file of the working tree when the commit
    began, and is there unchanged when it ends.  So a commit after a staged
    file was deleted, or replaced by a directory, raises. *)
Theorem commit_needs_every_staged_file (h : string) (st st' : node)
    (tc line : string) (s : path) :
  uuid4_hex h = true ->
  content to_commit_path st = Some tc ->
  staged_in_tree st ->
  commit h st = Done tt st' ->
  In line (splitlines (universal_newlines tc)) ->
  resolve [] line = Some s ->
  s <> [] /\
  ((forall r, s <> REPO_DIR :: r) ->
   isfile s st = true /\ lookup s st' = lookup s st).
Proof.
  intros Hu Htc Hin H Hl Rs.
  destruct (commit_done_sources h st st' tc line Hu Htc H Hl)
    as [s' [Rs' [Hs Hf]]].
  assert (s' = s) as -> by congruence.
  split; [exact Hs|]. intros Hr.
  split; [exact (Hf Hr)|].
  assert (S : marker_step st st').
  { pose proof (marker_step_commit h st tc Htc
                  (fun l Hl0 => Hin tc l Htc Hl0)) as S.
    now rewrite H in S. }
  apply (marker_step_lookup st st' s S).
  pose proof (outside_marker s Hs Hr) as Ho.
  unfold outside in Ho. cbn [forallb] in Ho.
  rewrite andb_true_r in Ho. now apply negb_true_iff in Ho.
Qed.

Lemma commit_needs_every_staged_file_witness :
  commit Example.id2 Example.c_added = Done tt Example2.second /\
  ["c.txt"] <> [] /\
  ((forall r, ["c.txt"] <> REPO_DIR :: r) ->
   isfile ["c.txt"] Example.c_added = true /\
   lookup ["c.txt"] Example2.second = lookup ["c.txt"] Example.c_added).
Proof.
  assert (H : commit Example.id2 Example.c_added = Done tt Example2.second)
    by (vm_compute; reflexivity).
  split; [exact H|].
  apply (commit_needs_every_staged_file Example.id2 Example.c_added
           Example2.second (unlines ["b.txt"; "c.txt"]) "c.txt" ["c.txt"]).
  - reflexivity.
  - reflexivity.
  - intros tc line Htc Hl. vm_compute in Htc. inversion Htc; subst tc.
    vm_compute in Hl. destruct Hl as [<-|[<-|[]]]; eexists; reflexivity.
  - exact H.
  - vm_compute. right. now left.
  - reflexivity.
Defined.

(** [status] after a [commit] that returned, when the staged lines name
    paths of the tree: the files walked are the visible files the working
    tree had when the commit began; a file whose path is a line of the
    staging list is committed and nothing is printed for it; every other file
    is reported as a new file.  No file is reported as waiting to be
    committed. *)
Theorem status_after_commit (h : string) (st st' : node) (tc : string) :
  uuid4_hex h = true ->
  content to_commit_path st = Some tc ->
  staged_in_tree st ->
  commit h st = Done tt st' ->
  allFiles [] st' = allFiles [] st /\
  status st'
  = Done (flat_map
            (fun f => if mem f (splitlines (universal_newlines tc)) then []
                      else [(f ++ " (new file)")%string])
            (changePathsRef (allFiles [] st))) st'.
Proof.
  intros Hu Htc Hin H.
  assert (W : allFiles [] st' = allFiles [] st).
  { unfold allFiles. cbn [lookup]. apply marker_step_walk.
    pose proof (marker_step_commit h st tc Htc
                  (fun l Hl0 => Hin tc l Htc Hl0)) as S.
    now rewrite H in S. }
  split; [exact W|]. rewrite <- W.
  exact (status_after_commit_run h st st' tc Hu Htc H).
Qed.

Lemma status_after_commit_witness :
  commit Example.id1 Example.b_added = Done tt Example.b_committed /\
  allFiles [] Example.b_committed = allFiles [] Example.b_added /\
  status Example.b_committed
  = Done ["c.txt (new file)"; "sub/a.txt (new file)"] Example.b_committed.
Proof.
  assert (H : commit Example.id1 Example.b_added
              = Done tt Example.b_committed) by (vm_compute; reflexivity).
  split; [exact H|].
  apply (status_after_commit Example.id1 Example.b_added Example.b_committed
           (unlines ["b.txt"]) eq_refl eq_refl); [|exact H].
  intros tc line Htc Hl. vm_compute in Htc. inversion Htc; subst tc.
  vm_compute in Hl. destruct Hl as [<-|[]]. eexists; reflexivity.
Defined.

(** The first cycle of work on a file at the top of a directory.  In a
    directory without repository, [init], then [add] of the file, then
    [commit] all return; the snapshot of the commit holds the file under its
    name with the bytes of the working file, the working tree is as it was,
    and [status] then reports every other visible file as new and prints
    nothing for the file committed. *)
Theorem first_commit_cycle (work : node) (name data h : string) :
  isdir [] work = true ->
  path_exists [REPO_DIR] work = false ->
  content [name] work = Some data ->
  valid_name name = true ->
  clean name = true ->
  uuid4_hex h = true ->
  exists st0 st1 st2,
    init work = Done tt st0 /\
    add [[name]] st0 = Done tt st1 /\
    commit h st1 = Done tt st2 /\
    content (commit_dir_path h ++ [name]) st2 = Some data /\
    content head_path st2 = Some h /\
    trackedList h st2 = Done [name] st2 /\
    (forall q, comparable [REPO_DIR] q = false ->
               lookup q st2 = lookup q work) /\
    status st2
    = Done (flat_map
              (fun p => if String.eqb (render p) name then []
                        else [(render p ++ " (new file)")%string])
              (allFiles [] work)) st2.
Proof.
  intros Hroot Hnew Hsrc Hv Hcl Hu.
  destruct (uuid4_hex_not_reserved h Hu) as [Hh1 Hh2].
  destruct (uuid4_hex_token h Hu) as [Hread Hne].
  (* init *)
  destruct (init_run work Hroot Hnew) as [st0 [I [Hhd0 [Htc0 [S0 Hfresh0]]]]].
  assert (Hname : comparable [REPO_DIR] [name] = false).
  { cbn [comparable]. destruct (String.eqb_spec REPO_DIR name) as [<-|_];
      [|reflexivity].
    apply content_lookup in Hsrc. unfold path_exists in Hnew.
    now rewrite Hsrc in Hnew. }
  assert (L0 : lookup [name] st0 = Some (File data)).
  { rewrite (marker_step_lookup work st0 [name] S0 Hname).
    now apply content_lookup. }
  (* add *)
  destruct (append_file_run to_commit_path EmptyString
              (name ++ String LF "") st0 Htc0) as [st1 [A [P1 C1]]].
  assert (Ad : add [[name]] st0 = Done tt st1).
  { apply (add_flat [[name]] st0 [] [name] (name ++ String LF "")%string st1).
    - exact (toCommitList_content st0 EmptyString Htc0).
    - cbn [add_scan]. rewrite L0. reflexivity.
    - exact A. }
  assert (S1 : marker_step st0 st1) by exact (marker_step_put _ _ _ _ P1).
  assert (Hhd1 : content head_path st1 = Some EmptyString).
  { unfold content.
    rewrite (lookup_put_frame _ _ _ _ head_path P1) by reflexivity.
    exact Hhd0. }
  assert (Hfresh1 : lookup (commit_path h) st1 = None).
  { unfold commit_path.
    rewrite (lookup_put_frame _ _ _ _ [REPO_DIR; h] P1).
    - exact (Hfresh0 h Hh1 Hh2).
    - unfold to_commit_path. cbn [comparable].
      now rewrite String.eqb_refl, (String.eqb_sym TO_COMMIT h), Hh2. }
  assert (Htc1 : content to_commit_path st1 = Some (unlines [name]))
    by exact C1.
  assert (Hls : forallb clean [name] = true)
    by (cbn [forallb]; now rewrite Hcl).
  assert (Elines : splitlines (universal_newlines (unlines [name])) = [name]).
  { now rewrite (universal_newlines_unlines _ Hls), (splitlines_unlines _ Hls). }
  assert (Rname : resolve [] name = Some [name]).
  { apply (resolve_of_render [] [name]). cbn [forallb]. now rewrite Hv. }
  (* commit *)
  destruct (commit_record_run h st1 EmptyString _ Hhd1 Htc1 Hfresh1)
    as [st1' [R [_ [_ [_ [_ [HD Out]]]]]]].
  assert (Hex : path_exists (commit_path h) st1 = false)
    by (unfold path_exists; now rewrite Hfresh1).
  pose proof (commit_run h st1 _ st1' Hu Htc1 Hex R) as Ec.
  rewrite Elines in Ec.
  assert (L1' : lookup [name] st1' = Some (File data)).
  { rewrite (Out [name] Hname).
    now rewrite (marker_step_lookup st0 st1 [name] S1 Hname). }
  assert (HDd : isdir (commit_dir_path h) st1' = true)
    by (unfold isdir; now rewrite HD).
  assert (HDn : forall n, isdir (commit_dir_path h ++ [n]) st1' = false).
  { intros n. unfold isdir. rewrite lookup_app, HD. reflexivity. }
  assert (Hflat : forall f, In f [name] ->
            exists n, resolve [] f = Some [n] /\ isfile [n] st1' = true).
  { intros f [<-|[]]. exists name. split; [exact Rname|].
    unfold isfile. now rewrite L1'. }
  destruct (copy_files_top_runs h [name] st1' HDd HDn Hflat) as [st2 Cp].
  assert (Cm : commit h st1 = Done tt st2) by (now rewrite Ec).
  destruct (copy_files_top h [name] st1' st2 HDd HDn) as [_ [_ I3]].
  { intros f Hf. destruct (Hflat f Hf) as [n [Hn _]]. now exists n. }
  { exact Cp. }
  destruct (I3 name name (or_introl eq_refl) Rname) as [d [Hd1 Hd2]].
  assert (d = data) as ->.
  { apply content_lookup in Hd1. congruence. }
  destruct (commit_final h st1 EmptyString _ Hhd1 Htc1 Hfresh1)
    as [_ [_ [_ [_ [_ [F1 [_ [F3 _]]]]]]]].
  rewrite Cm in F1, F3. cbn [final] in F1, F3.
  assert (S2 : marker_step st1 st2).
  { pose proof (marker_step_commit h st1 _ Htc1) as S. rewrite Cm in S.
    apply S. rewrite Elines. intros line [<-|[]]. now exists [name]. }
  assert (S : marker_step work st2).
  { exact (marker_step_trans _ _ _ S0 (marker_step_trans _ _ _ S1 S2)). }
  exists st0, st1, st2.
  split; [exact I | split; [exact Ad | split; [exact Cm|]]].
  split; [exact Hd2 | split; [exact F1 | split; [|split]]].
  - unfold trackedList, bind, ret. rewrite (read_text_content _ _ _ F3).
    now rewrite universal_newlines_twice, Elines.
  - intros q Hq. exact (marker_step_lookup work st2 q S Hq).
  - rewrite (status_after_commit_run h st1 st2 _ Hu Htc1 Cm), Elines.
    f_equal. unfold allFiles. cbn [lookup].
    rewrite (marker_step_walk work st2 S). unfold changePathsRef.
    induction (walk [] work) as [|p ps IH]; [reflexivity|].
    cbn [map flat_map]. rewrite IH. f_equal.
    unfold mem. cbn [existsb]. now rewrite orb_false_r.
Qed.

Lemma first_commit_cycle_witness :
  exists st0 st1 st2,
    init Example.work = Done tt st0 /\
    add [["b.txt"]] st0 = Done tt st1 /\
    commit Example.id1 st1 = Done tt st2 /\
    content (commit_dir_path Example.id1 ++ ["b.txt"]) st2 = Some "y" /\
    content head_path st2 = Some Example.id1 /\
    trackedList Example.id1 st2 = Done ["b.txt"] st2 /\
    (forall q, comparable [REPO_DIR] q = false ->
               lookup q st2 = lookup q Example.work) /\
    status st2
    = Done (flat_map
              (fun p => if String.eqb (render p) "b.txt" then []
                        else [(render p ++ " (new file)")%string])
              (allFiles [] Example.work)) st2.
Proof.
  apply (first_commit_cycle Example.work "b.txt" "y" Example.id1);
    reflexivity.
Defined.

(** * Staged lines that lead outside the repository

    [simplegit add ../PREV_COMMIT], run in the repository [/home/u/proj]
    beside a file [/home/u/PREV_COMMIT], stages the line [../PREV_COMMIT]:
    [changePathsRef] returns that text and [add] finds the file.
    [generateDirTree] then joins the line to the snapshot directory as it
    joins it to [repoPath], and the copy lands outside the snapshot
    directory, on a file of the commit record or of the marker directory. *)

(** C3 fails on the code.  With [../PREV_COMMIT] and [../../HEAD] staged,
    [commit] returns; [HEAD] then holds the text of the file [/home/HEAD]
    and not the new identifier, and the [PREV_COMMIT] of the new commit holds
    the text of [/home/u/PREV_COMMIT] and not the empty value [HEAD] had
    before the run. *)
Theorem commit_overwrites_head_and_prev_commit :
  changePathsRef_abs Whole.proj Whole.proj ["../PREV_COMMIT"; "../../HEAD"]
  = ["../PREV_COMMIT"; "../../HEAD"] /\
  exists fs1 fs2 fs3,
    Whole.init Whole.proj Whole.disk = Done tt fs1 /\
    Whole.add Whole.proj ["../PREV_COMMIT"; "../../HEAD"] fs1
    = Some (Done tt fs2) /\
    Whole.lastCommitHash Whole.proj fs2 = Done EmptyString fs2 /\
    Whole.commit Whole.proj Example.id1 fs2 = Done tt fs3 /\
    content (Whole.marker Whole.proj ++ [HEAD]) fs3 = Some "stale" /\
    content (Whole.marker Whole.proj ++ [Example.id1; PREV_COMMIT]) fs3
    = Some "0000" /\
    lookup (Whole.marker Whole.proj ++ [Example.id1; COMMIT_DIR]) fs3
    = Some (Dir []).
Proof.
  split; [reflexivity|].
  eexists. eexists. eexists.
  split; [vm_compute; reflexivity|].
  split; [vm_compute; reflexivity|].
  split; [vm_compute; reflexivity|].
  split; [vm_compute; reflexivity|].
  split; [reflexivity | split; reflexivity].
Qed.

(** C8 fails on the code.  With [../../TO_COMMIT] staged, [commit] returns
    and the staging file holds the text of the file [/home/TO_COMMIT]: the
    line staged is gone and the next commit tracks another list. *)
Theorem commit_overwrites_the_staging_file :
  changePathsRef_abs Whole.proj Whole.proj ["../../TO_COMMIT"]
  = ["../../TO_COMMIT"] /\
  exists fs1 fs2 fs3,
    Whole.init Whole.proj Whole.disk = Done tt fs1 /\
    Whole.add Whole.proj ["../../TO_COMMIT"] fs1 = Some (Done tt fs2) /\
    Whole.toCommitList Whole.proj fs2 = Done ["../../TO_COMMIT"] fs2 /\
    Whole.commit Whole.proj Example.id1 fs2 = Done tt fs3 /\
    content (Whole.marker Whole.proj ++ [Example.id1; TRACKED_LIST]) fs3
    = Some (unlines ["../../TO_COMMIT"]) /\
    Whole.toCommitList Whole.proj fs3 = Done ["x"] fs3.
Proof.
  split; [reflexivity|].
  eexists. eexists. eexists.
  split; [vm_compute; reflexivity|].
  split; [vm_compute; reflexivity|].
  split; [vm_compute; reflexivity|].
  split; [vm_compute; reflexivity|].
  split; [reflexivity | vm_compute; reflexivity].
Qed.

(** C4 fails on the code.  After [init], [add ../PREV_COMMIT] and one
    [commit], [HEAD] names the commit created, but its [PREV_COMMIT] holds
    [0000], the text of the file outside, and the marker directory has no
    record of that name: the walk from [HEAD] does not come to the empty
    predecessor after one step, it meets a dangling reference. *)
Theorem chain_broken_by_a_staged_line :
  exists fs1 fs2 fs3,
    Whole.init Whole.proj Whole.disk = Done tt fs1 /\
    Whole.add Whole.proj ["../PREV_COMMIT"] fs1 = Some (Done tt fs2) /\
    Whole.commit Whole.proj Example.id1 fs2 = Done tt fs3 /\
    Whole.lastCommitHash Whole.proj fs3 = Done Example.id1 fs3 /\
    content (Whole.marker Whole.proj ++ [Example.id1; PREV_COMMIT]) fs3
    = Some "0000" /\
    lookup (Whole.marker Whole.proj ++ ["0000"]) fs3 = None.
Proof.
  eexists. eexists. eexists.
  split; [vm_compute; reflexivity|].
  split; [vm_compute; reflexivity|].
  split; [vm_compute; reflexivity|].
  split; [vm_compute; reflexivity|].
  split; reflexivity.
Qed.

(** * [commit] on the tree of the repository and on the whole file system *)

Section Refinement.

Variable repo : path.

Lemma put_at (r : path) : forall v fs st,
  lookup r fs = Some st ->
  exists fs', put r v fs = Some fs' /\ lookup r fs' = Some v.
Proof.
  induction r as [|c r IH]; intros v fs st L.
  - exists v. now split.
  - destruct fs as [|ents]; [discriminate|]. cbn [lookup] in L.
    destruct (assoc c ents) as [m|] eqn:A; [|discriminate].
    rewrite put_cons. destruct r as [|c' r].
    + eexists. split; [reflexivity|]. cbn [lookup]. now rewrite assoc_set_eq.
    + rewrite A. destruct (IH v m st L) as [m' [P L']]. rewrite P.
      eexists. split; [reflexivity|]. cbn [lookup].
      rewrite assoc_set_eq. exact L'.
Qed.

Lemma put_put (r : path) : forall v1 v2 fs fs1,
  put r v1 fs = Some fs1 -> put r v2 fs1 = put r v2 fs.
Proof.
  induction r as [|c r IH]; intros v1 v2 fs fs1 P; [reflexivity|].
  destruct fs as [|ents]; [discriminate|]. rewrite put_cons in P.
  destruct r as [|c' r].
  - inversion P; subst fs1. rewrite !put_cons. now rewrite set_entry_twice.
  - destruct (assoc c ents) as [m|] eqn:A; [|discriminate].
    destruct (put (c' :: r) v1 m) as [m1|] eqn:Pm; [|discriminate].
    inversion P; subst fs1. rewrite !put_cons, assoc_set_eq, A.
    rewrite (IH v1 v2 m m1 Pm).
    destruct (put (c' :: r) v2 m); [|reflexivity].
    now rewrite set_entry_twice.
Qed.

(** A write below the directory at [r] is a write in the tree found there,
    put back at [r]. *)
Lemma put_below (r : path) : forall p v fs st,
  lookup r fs = Some st ->
  put (r ++ p) v fs =
  match put p v st with
  | Some st' => put r st' fs
  | None => None
  end.
Proof.
  induction r as [|c r IH]; intros p v fs st L.
  - simpl in L. inversion L; subst st. simpl.
    now destruct (put p v fs).
  - destruct fs as [|ents]; [discriminate|]. cbn [lookup] in L.
    destruct (assoc c ents) as [m|] eqn:A; [|discriminate].
    change ((c :: r) ++ p) with (c :: (r ++ p)).
    destruct p as [|d p].
    + rewrite app_nil_r. cbn [put]. reflexivity.
    + rewrite put_cons.
      destruct (r ++ d :: p) eqn:E; [now destruct r|]. rewrite <- E.
      rewrite A, (IH (d :: p) v m st L).
      destruct (put (d :: p) v st) as [st'|]; [|reflexivity].
      rewrite put_cons. destruct r as [|c' r].
      * simpl in L. inversion L; subst m. reflexivity.
      * now rewrite A.
Qed.

Lemma graft_same fs st :
  lookup repo fs = Some st -> Whole.graft repo st fs = fs.
Proof. intros L. unfold Whole.graft. now rewrite (put_same repo st fs L). Qed.

Lemma lookup_graft fs st st' :
  lookup repo fs = Some st -> lookup repo (Whole.graft repo st' fs) = Some st'.
Proof.
  intros L. unfold Whole.graft.
  destruct (put_at repo st' fs st L) as [fs' [P L']]. now rewrite P.
Qed.

Lemma graft_graft fs st st1 st2 :
  lookup repo fs = Some st ->
  Whole.graft repo st2 (Whole.graft repo st1 fs) = Whole.graft repo st2 fs.
Proof.
  intros L. unfold Whole.graft.
  destruct (put_at repo st1 fs st L) as [fs1 [P1 _]]. rewrite P1.
  rewrite (put_put repo st1 st2 fs fs1 P1).
  destruct (put_at repo st2 fs st L) as [fs2 [P2 _]]. now rewrite P2.
Qed.

Lemma lookup_below fs st p :
  lookup repo fs = Some st -> lookup (repo ++ p) fs = lookup p st.
Proof. intros L. now rewrite lookup_app, L. Qed.

Lemma refines_ret {A} (a : A) : Whole.refines repo (ret a) (ret a).
Proof. intros fs st L. simpl. now rewrite (graft_same fs st L). Qed.

Lemma refines_raise {A} e : Whole.refines repo (@raise A e) (@raise A e).
Proof. intros fs st L. simpl. unfold raise. now rewrite (graft_same fs st L). Qed.

Lemma refines_bind {A B} (m m' : M A) (k k' : A -> M B) :
  Whole.refines repo m m' ->
  (forall a, Whole.refines repo (k a) (k' a)) ->
  Whole.refines repo (bind m k) (bind m' k').
Proof.
  intros Hm Hk fs st L. unfold bind. rewrite (Hm fs st L).
  destruct (m' st) as [a st1|e st1]; simpl; [|reflexivity].
  rewrite (Hk a _ st1 (lookup_graft fs st st1 L)).
  destruct (k' a st1) as [b st2|e st2]; simpl;
    now rewrite (graft_graft fs st st1 st2 L).
Qed.

Lemma refines_if {A} (b b' : node -> bool) (m1 m2 m1' m2' : M A) :
  (forall fs st, lookup repo fs = Some st -> b fs = b' st) ->
  Whole.refines repo m1 m1' -> Whole.refines repo m2 m2' ->
  Whole.refines repo (fun fs => if b fs then m1 fs else m2 fs)
    (fun st => if b' st then m1' st else m2' st).
Proof.
  intros Hb H1 H2 fs st L. rewrite (Hb fs st L).
  destruct (b' st); [exact (H1 fs st L) | exact (H2 fs st L)].
Qed.

Lemma refines_change p v :
  Whole.refines repo (change (put (repo ++ p) v)) (change (put p v)).
Proof.
  intros fs st L. unfold change. rewrite (put_below repo p v fs st L).
  destruct (put p v st) as [st'|]; simpl.
  - unfold Whole.graft. destruct (put_at repo st' fs st L) as [fs' [P _]].
    now rewrite P.
  - now rewrite (graft_same fs st L).
Qed.

Lemma exists_below fs st p :
  lookup repo fs = Some st -> path_exists (repo ++ p) fs = path_exists p st.
Proof. intros L. unfold path_exists. now rewrite (lookup_below fs st p L). Qed.

Lemma isdir_below fs st p :
  lookup repo fs = Some st -> isdir (repo ++ p) fs = isdir p st.
Proof. intros L. unfold isdir. now rewrite (lookup_below fs st p L). Qed.

Lemma refines_mkdir p : Whole.refines repo (mkdir (repo ++ p)) (mkdir p).
Proof.
  apply (refines_if (path_exists (repo ++ p)) (path_exists p)
           (raise OSError) (change (put (repo ++ p) (Dir [])))
           (raise OSError) (change (put p (Dir [])))).
  - intros fs st L. now apply exists_below.
  - apply refines_raise.
  - apply refines_change.
Qed.

Lemma refines_mknod p : Whole.refines repo (mknod (repo ++ p)) (mknod p).
Proof.
  apply (refines_if (path_exists (repo ++ p)) (path_exists p)
           (raise OSError) (change (put (repo ++ p) (File EmptyString)))
           (raise OSError) (change (put p (File EmptyString)))).
  - intros fs st L. now apply exists_below.
  - apply refines_raise.
  - apply refines_change.
Qed.

Lemma refines_write_file p data :
  Whole.refines repo (write_file (repo ++ p) data) (write_file p data).
Proof.
  apply (refines_if (isdir (repo ++ p)) (isdir p)
           (raise OSError) (change (put (repo ++ p) (File data)))
           (raise OSError) (change (put p (File data)))).
  - intros fs st L. now apply isdir_below.
  - apply refines_raise.
  - apply refines_change.
Qed.

Lemma refines_read_text p :
  Whole.refines repo (read_text (repo ++ p)) (read_text p).
Proof.
  intros fs st L. unfold read_text. rewrite (lookup_below fs st p L).
  destruct (lookup p st) as [[d|ents]|]; simpl;
    now rewrite (graft_same fs st L).
Qed.

Lemma refines_read_bytes p :
  Whole.refines repo (read_bytes (repo ++ p)) (read_bytes p).
Proof.
  intros fs st L. unfold read_bytes. rewrite (lookup_below fs st p L).
  destruct (lookup p st) as [[d|ents]|]; simpl;
    now rewrite (graft_same fs st L).
Qed.

Lemma lift_graft {A} fs st st1 (o : outcome A) :
  lookup repo fs = Some st ->
  Whole.lift repo (Whole.graft repo st1 fs) o = Whole.lift repo fs o.
Proof.
  intros L. destruct o as [a s|e s]; simpl;
    now rewrite (graft_graft fs st st1 s L).
Qed.

(** Sequencing at one state: the continuation is compared where the first
    call returns. *)
Lemma bind_at {A B} (m m' : M A) (k k' : A -> M B) fs st :
  m fs = Whole.lift repo fs (m' st) ->
  (forall a st1, m' st = Done a st1 ->
     k a (Whole.graft repo st1 fs) = Whole.lift repo fs (k' a st1)) ->
  bind m k fs = Whole.lift repo fs (bind m' k' st).
Proof.
  intros Hm Hk. unfold bind. rewrite Hm.
  destruct (m' st) as [a st1|e st1]; simpl; [now apply Hk | reflexivity].
Qed.

Lemma refines_lastCommitHash :
  Whole.refines repo (Whole.lastCommitHash repo) lastCommitHash.
Proof.
  unfold Whole.lastCommitHash, lastCommitHash, Whole.marker, head_path.
  rewrite <- app_assoc. cbn [app].
  apply refines_bind; [apply refines_read_text|].
  intros text. apply refines_ret.
Qed.

Lemma refines_toCommitList :
  Whole.refines repo (Whole.toCommitList repo) toCommitList.
Proof.
  unfold Whole.toCommitList, toCommitList, Whole.marker, to_commit_path.
  rewrite <- app_assoc. cbn [app].
  apply refines_bind; [apply refines_read_text|].
  intros text. apply refines_ret.
Qed.

Lemma refines_commit_record h :
  Whole.refines repo (Whole.commit_record repo h) (commit_record h).
Proof.
  unfold Whole.commit_record, commit_record, Whole.marker.
  unfold commit_path, commit_dir_path, tracked_path, prev_path, head_path,
    to_commit_path.
  rewrite <- !app_assoc. cbn [app].
  apply refines_bind; [apply refines_mkdir|]. intros _.
  apply refines_bind; [apply refines_mkdir|]. intros _.
  apply refines_bind; [apply refines_mknod|]. intros _.
  apply refines_bind; [apply refines_mknod|]. intros _.
  apply refines_bind.
  { pose proof refines_lastCommitHash as R.
    unfold Whole.marker in R. exact R. }
  intros last.
  apply refines_bind.
  { destruct (nonempty last); [apply refines_write_file | apply refines_ret]. }
  intros _.
  apply refines_bind; [apply refines_write_file|]. intros _.
  apply refines_bind; [apply refines_read_text|]. intros text.
  apply refines_write_file.
Qed.

(** [os.makedirs] walks through the directories that exist. *)
Lemma makedirs_skip r : forall pre p fs st,
  lookup (pre ++ r) fs = Some st ->
  makedirs_from pre (r ++ p) fs = makedirs_from (pre ++ r) p fs.
Proof.
  induction r as [|c r IH]; intros pre p fs st L.
  - simpl. now rewrite app_nil_r.
  - assert (E : pre ++ c :: r = (pre ++ [c]) ++ r)
      by (now rewrite <- app_assoc).
    assert (X : path_exists (pre ++ [c]) fs = true).
    { unfold path_exists. rewrite E, lookup_app in L.
      destruct (lookup (pre ++ [c]) fs); [reflexivity | discriminate]. }
    change ((c :: r) ++ p) with (c :: (r ++ p)). cbn [makedirs_from].
    destruct (r ++ p) as [|x xs] eqn:Erp.
    + apply app_eq_nil in Erp as [-> ->].
      unfold mkdir. rewrite X. reflexivity.
    + rewrite X, <- Erp, E. apply (IH (pre ++ [c]) p fs st).
      now rewrite <- E.
Qed.

Lemma refines_makedirs_from rest : forall above,
  Whole.refines repo (makedirs_from (repo ++ above) rest)
    (makedirs_from above rest).
Proof.
  induction rest as [|c rest IH]; intros above; [apply refines_raise|].
  cbn [makedirs_from]. rewrite <- app_assoc.
  destruct rest as [|c' rest]; [apply refines_mkdir|].
  apply (refines_if (path_exists (repo ++ above ++ [c]))
           (path_exists (above ++ [c]))
           (makedirs_from (repo ++ above ++ [c]) (c' :: rest))
           (mkdir (repo ++ above ++ [c]) ;;;
            makedirs_from (repo ++ above ++ [c]) (c' :: rest))
           (makedirs_from (above ++ [c]) (c' :: rest))
           (mkdir (above ++ [c]) ;;;
            makedirs_from (above ++ [c]) (c' :: rest))).
  - intros fs st L. now apply exists_below.
  - apply IH.
  - apply refines_bind; [apply refines_mkdir|]. intros _. apply IH.
Qed.

Lemma refines_makedirs p :
  Whole.refines repo (makedirs (repo ++ p)) (makedirs p).
Proof.
  intros fs st L. unfold makedirs.
  rewrite (makedirs_skip repo [] p fs st L). cbn [app].
  pose proof (refines_makedirs_from p []) as R.
  rewrite app_nil_r in R. exact (R fs st L).
Qed.

Lemma last_below (l : path) : forall l' d,
  l' <> [] -> last (l ++ l') d = last l' d.
Proof.
  induction l as [|a l IH]; intros l' d H; [reflexivity|].
  simpl. destruct (l ++ l') eqn:E.
  - apply app_eq_nil in E as [_ ->]. congruence.
  - rewrite <- E. now apply IH.
Qed.

(** The copy itself, once the destination is known. *)
Lemma copy_below s d fs st :
  lookup repo fs = Some st ->
  (if list_eq_dec string_dec (repo ++ s) (repo ++ d) then Raise OSError fs
   else (data <- read_bytes (repo ++ s) ;; write_file (repo ++ d) data) fs)
  = Whole.lift repo fs
      (if list_eq_dec string_dec s d then Raise OSError st
       else (data <- read_bytes s ;; write_file d data) st).
Proof.
  intros L.
  destruct (list_eq_dec string_dec s d) as [E|N];
    destruct (list_eq_dec string_dec (repo ++ s) (repo ++ d)) as [E'|N'].
  - simpl. now rewrite (graft_same fs st L).
  - subst d. congruence.
  - apply app_inv_head in E'. congruence.
  - apply (refines_bind (read_bytes (repo ++ s)) (read_bytes s)
             (fun data => write_file (repo ++ d) data)
             (fun data => write_file d data));
      [apply refines_read_bytes | | exact L].
    intros data. apply refines_write_file.
Qed.

Lemma refines_copy2 s d :
  Whole.refines repo (copy2 (Some (repo ++ s)) (repo ++ d))
    (copy2 (Some s) d).
Proof.
  intros fs st L. unfold copy2. cbv zeta.
  rewrite (isdir_below fs st d L).
  destruct (isdir d st) eqn:D.
  - destruct s as [|c s].
    + (* the source is the directory of the repository itself *)
      assert (Hst : exists ents, st = Dir ents).
      { unfold isdir in D. destruct st as [x|ents]; [|eauto].
        destruct d; discriminate. }
      destruct Hst as [ents ->].
      rewrite app_nil_r.
      repeat match goal with
             | |- context [list_eq_dec string_dec ?a ?b] =>
                 destruct (list_eq_dec string_dec a b)
             end.
      all: try match goal with
               | E : repo = _ |- _ =>
                   exfalso; apply (f_equal (@length string)) in E;
                   rewrite !length_app in E; simpl in E; lia
               end.
      all: try match goal with
               | E : [] = _ |- _ => exfalso; destruct d; discriminate E
               end.
      unfold bind, read_bytes. rewrite L. simpl.
      now rewrite (graft_same fs _ L).
    + unfold basename.
      rewrite (last_below repo (c :: s) EmptyString ltac:(discriminate)).
      rewrite <- app_assoc.
      exact (copy_below (c :: s) (d ++ [last (c :: s) EmptyString]) fs st L).
  - exact (copy_below s d fs st L).
Qed.

(** A line that names a path of the tree names that path on the disk. *)
Lemma normalize_root_in_tree comps : forall acc s,
  normalize acc comps = Some s ->
  normalize_root (acc ++ rev repo) comps = repo ++ s.
Proof.
  induction comps as [|c cs IH]; intros acc s H; simpl in *.
  - inversion H; subst. now rewrite rev_app_distr, rev_involutive.
  - destruct (String.eqb c "" || String.eqb c "."); [now apply IH|].
    destruct (String.eqb c "..").
    + destruct acc as [|a acc]; [discriminate|]. simpl. now apply IH.
    + exact (IH (c :: acc) s H).
Qed.

Lemma abs_join_in_tree base f s :
  resolve base f = Some s -> abs_join (repo ++ base) f = repo ++ s.
Proof.
  unfold resolve, abs_join. destruct (is_absolute f); [discriminate|].
  intros H. rewrite rev_app_distr.
  exact (normalize_root_in_tree (split_slash f) (rev base) s H).
Qed.

Lemma refines_copy_files dst files :
  dst <> [] ->
  Forall in_tree files ->
  Whole.refines repo (Whole.copy_files repo (repo ++ dst) files)
    (copy_files dst files).
Proof.
  intros Hd H. induction H as [|f files [s R] _ IH]; [apply refines_ret|].
  cbn [Whole.copy_files copy_files]. cbv zeta.
  rewrite (resolve_extend dst f s R), R.
  rewrite (abs_join_in_tree dst f (dst ++ s) (resolve_extend dst f s R)).
  pose proof (abs_join_in_tree [] f s R) as J. rewrite app_nil_r in J.
  rewrite J.
  assert (Hne : dst ++ s <> []) by (destruct dst; [congruence | discriminate]).
  apply refines_bind.
  - apply (refines_if
             (fun fs => negb (isdir (dirname (repo ++ dst ++ s)) fs))
             (fun st => negb (isdir (dirname (dst ++ s)) st))
             (makedirs (repo ++ dst ++ s)) (ret tt)
             (makedirs (dst ++ s)) (ret tt)).
    + intros fs st L. unfold dirname.
      rewrite (removelast_app repo Hne). now rewrite (isdir_below fs st _ L).
    + apply refines_makedirs.
    + apply refines_ret.
  - intros _. apply refines_bind; [apply refines_copy2|].
    intros _. exact IH.
Qed.

Lemma whole_commit_split h fs :
  Whole.commit repo h fs =
  if path_exists (Whole.marker repo ++ [h]) fs then Raise AssertionError fs
  else (Whole.commit_record repo h ;;; Whole.commit_snapshot repo) fs.
Proof.
  unfold Whole.commit. cbv zeta.
  destruct (path_exists (Whole.marker repo ++ [h]) fs); [reflexivity|].
  unfold Whole.commit_record, Whole.commit_snapshot, bind.
  repeat match goal with
         | |- context [match ?m ?s with Done _ _ => _ | Raise _ _ => _ end] =>
             destruct (m s)
         end; reflexivity.
Qed.

End Refinement.

Section Identifier.

Lemma hex_not_slash c : is_hex c = true -> negb (is_slash c) = true.
Proof.
  intros H. unfold is_slash. destruct (Ascii.eqb_spec c "/"%char) as [->|_];
    [discriminate H | reflexivity].
Qed.

Lemma uuid4_hex_valid h : uuid4_hex h = true -> valid_name h = true.
Proof.
  intros Hu. unfold valid_name.
  destruct (uuid4_hex_token h Hu) as [_ Hne]. rewrite Hne.
  destruct (String.eqb_spec h ".") as [->|_]; [discriminate Hu|].
  destruct (String.eqb_spec h "..") as [->|_]; [discriminate Hu|].
  cbn [negb andb].
  unfold uuid4_hex in Hu. apply andb_true_iff in Hu as [_ Hx].
  clear Hne. induction h as [|c h IH]; [reflexivity|].
  simpl in Hx |- *. apply andb_true_iff in Hx as [Hc Hh].
  rewrite (hex_not_slash c Hc). exact (IH Hh).
Qed.

Lemma abs_join_name base n :
  valid_name n = true -> abs_join base n = base ++ [n].
Proof.
  intros H. unfold abs_join.
  assert (V : forallb valid_name [n] = true) by (simpl; now rewrite H).
  pose proof (render_not_absolute [n] V) as A.
  change (render [n]) with (String.concat "/" [n]) in A. simpl in A.
  rewrite A.
  destruct (valid_name_parts n H) as [_ [_ [_ S]]].
  rewrite (split_slash_name n S).
  rewrite (normalize_root_valid [n] (rev base) V).
  now rewrite rev_involutive.
Qed.

(** A record step that returns found the staging file. *)
Lemma commit_record_staged h st st1 :
  commit_record h st = Done tt st1 ->
  exists tc, content to_commit_path st = Some tc.
Proof.
  unfold commit_record, bind.
  destruct (mkdir (commit_path h) st) as [[] s1|] eqn:R1; [|discriminate].
  destruct (mkdir (commit_dir_path h) s1) as [[] s2|] eqn:R2; [|discriminate].
  destruct (mknod (tracked_path h) s2) as [[] s3|] eqn:R3; [|discriminate].
  destruct (mknod (prev_path h) s3) as [[] s4|] eqn:R4; [|discriminate].
  destruct (lastCommitHash s4) as [last s4'|] eqn:R5; [|discriminate].
  apply lastCommitHash_inv in R5 as [-> [hd [Hhd _]]].
  destruct ((if nonempty last then write_file (prev_path h) last else ret tt) s4)
    as [[] s5|] eqn:R6; [|discriminate].
  destruct (write_file head_path h s5) as [[] s6|] eqn:R7; [|discriminate].
  destruct (read_text to_commit_path s6) as [text s6'|] eqn:R8; [|discriminate].
  apply read_text_inv in R8 as [-> [tc [Htc _]]].
  intros _. exists tc.
  apply (mkdir_before _ _ _ _ _ R1), (mkdir_before _ _ _ _ _ R2).
  apply mknod_inv in R3 as [_ P3]. apply mknod_inv in R4 as [_ P4].
  apply (put_file_before _ _ _ _ _ _ P3); [discriminate|].
  apply (put_file_before _ _ _ _ _ _ P4); [discriminate|].
  assert (H5 : content to_commit_path s5 = Some tc).
  { apply write_file_inv in R7.
    apply (put_file_before _ _ _ _ _ _ R7); [discriminate|].
    now apply content_lookup. }
  destruct (nonempty last).
  - apply write_file_inv in R6.
    apply (put_file_before _ _ _ _ _ _ R6); [discriminate|]. exact H5.
  - inversion R6; subst. exact H5.
Qed.

End Identifier.

(** [commit] on the file system and on the tree of the repository: when the
    directory at [repoPath] holds the tree [st] and every line of the
    staging file names a path of that tree, [commit(repoPath)] on the file
    system does what [commit] does on [st], whether it returns or raises:
    the same outcome, the same tree below [repoPath], and the rest of the
    file system as it was. *)
Theorem commit_on_the_file_system (repoPath : path) (h : string)
    (fs st : node) :
  lookup repoPath fs = Some st ->
  uuid4_hex h = true ->
  staged_in_tree st ->
  Whole.commit repoPath h fs = Whole.lift repoPath fs (commit h st).
Proof.
  intros L Hu Hst.
  rewrite whole_commit_split, commit_split.
  assert (X : path_exists (Whole.marker repoPath ++ [h]) fs
              = path_exists (commit_path h) st).
  { unfold Whole.marker, commit_path. rewrite <- app_assoc. cbn [app].
    exact (exists_below repoPath fs st [REPO_DIR; h] L). }
  rewrite X. destruct (path_exists (commit_path h) st).
  { simpl. now rewrite (graft_same repoPath fs st L). }
  apply bind_at; [exact (refines_commit_record repoPath h fs st L)|].
  intros [] st1 R.
  pose proof (lookup_graft repoPath fs st st1 L) as L1.
  rewrite <- (lift_graft repoPath fs st st1 _ L).
  set (fs1 := Whole.graft repoPath st1 fs) in *.
  destruct (commit_record_staged h st st1 R) as [tc Htc].
  pose proof (keeps_commit_record to_commit_path h) as K.
  specialize (K ltac:(discriminate) ltac:(discriminate) ltac:(discriminate)
                st tc Htc).
  rewrite R in K. simpl in K.
  pose proof (commit_record_done h st st1 R) as Hhead.
  destruct (uuid4_hex_token h Hu) as [Hread Hne].
  pose proof (toCommitList_content st1 tc K) as T.
  pose proof (lastCommitHash_content st1 h Hhead) as H1.
  rewrite Hread in H1.
  unfold Whole.commit_snapshot, commit_snapshot.
  apply bind_at; [exact (refines_toCommitList repoPath fs1 st1 L1)|].
  intros files s2 T'. rewrite T in T'. inversion T'; subst files s2.
  rewrite (graft_same repoPath fs1 st1 L1).
  unfold Whole.generateDirTree, generateDirTree.
  apply bind_at; [exact (refines_lastCommitHash repoPath fs1 st1 L1)|].
  intros h1 s2 H2. rewrite H1 in H2. inversion H2; subst h1 s2.
  rewrite (graft_same repoPath fs1 st1 L1), Hne. cbn [negb].
  apply bind_at; [exact (refines_lastCommitHash repoPath fs1 st1 L1)|].
  intros h1 s2 H3. rewrite H1 in H3. inversion H3; subst h1 s2.
  rewrite (graft_same repoPath fs1 st1 L1).
  rewrite (abs_join_name (Whole.marker repoPath) h (uuid4_hex_valid h Hu)).
  rewrite (abs_join_name _ COMMIT_DIR eq_refl).
  unfold Whole.marker. rewrite <- !app_assoc. cbn [app].
  apply (refines_copy_files repoPath (commit_dir_path h)); [discriminate | | exact L1].
  apply Forall_forall. intros line Hl. exact (Hst tc line Htc Hl).
Qed.

Lemma commit_on_the_file_system_witness :
  Whole.commit Whole.proj Example.id1 Whole.staged_disk
  = Whole.lift Whole.proj Whole.staged_disk
      (commit Example.id1 Example.b_added).
Proof.
  apply (commit_on_the_file_system Whole.proj Example.id1 Whole.staged_disk
           Example.b_added).
  - reflexivity.
  - reflexivity.
  - intros tc line Htc Hl. vm_compute in Htc. inversion Htc; subst tc.
    vm_compute in Hl. destruct Hl as [<-|[]]; eexists; reflexivity.
Defined.

(** * [add] on the tree of the repository and on the whole file system *)

Section ValidTree.

Lemma valid_tree_shape n : valid_tree (shape n) = valid_tree n.
Proof.
  induction n as [d|ents IH] using node_ind; [reflexivity|].
  rewrite shape_Dir. cbn [valid_tree].
  induction IH as [|e ents He _ IHents]; [reflexivity|].
  cbn [map forallb]. unfold shape_entry at 1 2. cbn [fst snd].
  now rewrite He, IHents.
Qed.

Lemma valid_tree_assoc c ents m :
  valid_tree (Dir ents) = true -> assoc c ents = Some m ->
  valid_name c = true /\ valid_tree m = true.
Proof.
  cbn [valid_tree]. intros H A. apply assoc_In in A.
  rewrite forallb_forall in H. specialize (H (c, m) A).
  now apply andb_true_iff in H.
Qed.

Lemma valid_tree_lookup p : forall n m,
  valid_tree n = true -> lookup p n = Some m ->
  forallb valid_name p = true /\ valid_tree m = true.
Proof.
  induction p as [|c p IH]; intros n m Hc H.
  - simpl in H. inversion H; subst. now split.
  - destruct n as [|ents]; [discriminate|]. cbn [lookup] in H.
    destruct (assoc c ents) as [x|] eqn:A; [|discriminate].
    destruct (valid_tree_assoc c ents x Hc A) as [H1 H2].
    destruct (IH x m H2 H) as [H3 H4]. cbn [forallb]. now rewrite H1, H3.
Qed.

Lemma valid_tree_names ents :
  valid_tree (Dir ents) = true -> forallb valid_name (map fst ents) = true.
Proof.
  cbn [valid_tree]. intros H. apply forallb_forall. intros x Hx.
  apply in_map_iff in Hx as [e [<- He]].
  rewrite forallb_forall in H. specialize (H e He).
  now apply andb_true_iff in H.
Qed.

Lemma same_shape_valid st st' :
  shape st' = shape st -> valid_tree st = true -> valid_tree st' = true.
Proof. intros E H. now rewrite <- valid_tree_shape, E, valid_tree_shape. Qed.

(** [add] changes the contents of files only. *)
Lemma append_file_shape p old data st :
  content p st = Some old ->
  shape (final (append_file p data st)) = shape st.
Proof.
  intros H. destruct (append_file_run p old data st H) as [st' [R [P _]]].
  rewrite R. simpl. apply content_lookup in H.
  exact (put_shape p (File (old ++ data)) (File old) st st' P H eq_refl).
Qed.

Lemma add_subdirs_shape rec :
  (forall files st o, rec files st = Some o -> shape (final o) = shape st) ->
  forall dirs st o, add_subdirs rec dirs st = Some o ->
    shape (final o) = shape st.
Proof.
  intros Hrec. induction dirs as [|dir rest IH]; intros st o H.
  - simpl in H. now inversion H.
  - cbn [add_subdirs] in H. unfold listdir in H.
    destruct (lookup dir st) as [[x|ents]|];
      try (inversion H; subst; reflexivity).
    destruct (rec (map (fun f => dir ++ [f]) (map fst ents)) st)
      as [[[] s|e s]|] eqn:R; [| |discriminate].
    + rewrite (IH s o H). exact (Hrec _ _ _ R).
    + inversion H; subst. exact (Hrec _ _ _ R).
Qed.

Lemma add_fuel_shape n : forall files st o,
  add_fuel n files st = Some o -> shape (final o) = shape st.
Proof.
  induction n as [|n IH]; intros files st o H; [discriminate|].
  cbn [add_fuel] in H.
  destruct (toCommitList st) as [ls s0|e s0] eqn:T.
  - apply toCommitList_inv in T as [-> [d [Hd _]]].
    destruct (add_scan st files ls [] "") as [[a dirs] written].
    pose proof (append_file_shape to_commit_path d written st Hd) as A.
    destruct (append_file to_commit_path written st) as [[] s1|e s1].
    + simpl in A. rewrite <- A.
      exact (add_subdirs_shape (add_fuel n) IH dirs s1 o H).
    + inversion H; subst. exact A.
  - inversion H; subst. simpl.
    unfold toCommitList, bind in T.
    pose proof (final_read_text to_commit_path st) as F.
    destruct (read_text to_commit_path st) as [t s|e' s]; simpl in F; subst s;
      [discriminate | now inversion T].
Qed.

(** More fuel gives the same result. *)
Lemma add_subdirs_mono (rec rec' : list path -> node -> option (outcome unit)) :
  (forall files st o, rec files st = Some o -> rec' files st = Some o) ->
  forall dirs st o, add_subdirs rec dirs st = Some o ->
    add_subdirs rec' dirs st = Some o.
Proof.
  intros Hrec. induction dirs as [|dir rest IH]; intros st o H; [exact H|].
  cbn [add_subdirs] in *.
  destruct (listdir dir st) as [names s|e s]; [|exact H].
  destruct (rec (map (fun f => dir ++ [f]) names) s) as [o1|] eqn:R;
    [|discriminate].
  rewrite (Hrec _ _ _ R). destruct o1 as [[] s1|e s1]; [|exact H].
  exact (IH s1 o H).
Qed.

Lemma add_fuel_mono n : forall m files st o,
  n <= m -> add_fuel n files st = Some o -> add_fuel m files st = Some o.
Proof.
  induction n as [|n IH]; intros m files st o Hle H; [discriminate|].
  destruct m as [|m]; [lia|]. cbn [add_fuel] in *.
  destruct (toCommitList st) as [ls s0|e s0]; [|exact H].
  destruct (add_scan s0 files ls [] "") as [[a dirs] written].
  destruct (append_file to_commit_path written s0) as [[] s1|e s1];
    [|exact H].
  apply (add_subdirs_mono (add_fuel n) (add_fuel m)); [|exact H].
  intros fs s o' Ho. apply (IH m fs s o'); [lia | exact Ho].
Qed.

End ValidTree.

Section TextOfPaths.

Lemma normalize_rel_valid p : forall acc,
  forallb valid_name p = true -> Whole.normalize_rel acc p = rev acc ++ p.
Proof.
  induction p as [|c p IH]; intros acc H.
  - simpl. now rewrite app_nil_r.
  - cbn [forallb] in H. apply andb_true_iff in H as [Hc Hp].
    destruct (valid_name_parts c Hc) as [E1 [E2 [E3 _]]].
    cbn [Whole.normalize_rel]. rewrite E1, E2, E3. simpl.
    rewrite (IH (c :: acc) Hp). simpl. now rewrite <- app_assoc.
Qed.

Lemma concat_snoc p f :
  p <> [] ->
  String.concat "/" (p ++ [f]) = (String.concat "/" p ++ "/" ++ f)%string.
Proof.
  induction p as [|c p IH]; intros Hp; [congruence|].
  destruct p as [|c' p]; [reflexivity|].
  change (String.concat "/" ((c :: c' :: p) ++ [f]))
    with (c ++ "/" ++ String.concat "/" ((c' :: p) ++ [f]))%string.
  rewrite IH by discriminate.
  change (String.concat "/" (c :: c' :: p))
    with (c ++ "/" ++ String.concat "/" (c' :: p))%string.
  now rewrite !sapp_assoc.
Qed.

Lemma ends_with_slash_app a b :
  nonempty b = true ->
  Whole.ends_with_slash (a ++ b) = Whole.ends_with_slash b.
Proof.
  intros Hb. induction a as [|c a IH]; [reflexivity|].
  simpl. destruct (a ++ b)%string eqn:E.
  - destruct a; [|discriminate]. simpl in E. subst b. discriminate.
  - exact IH.
Qed.

Lemma ends_with_slash_name c :
  slashless c = true -> Whole.ends_with_slash c = false.
Proof.
  unfold slashless. induction c as [|x c IH]; [reflexivity|].
  simpl. intros H. apply andb_true_iff in H as [Hx Hc].
  apply negb_true_iff in Hx. destruct c; [exact Hx | exact (IH Hc)].
Qed.

Lemma concat_nonempty p :
  p <> [] -> forallb valid_name p = true ->
  nonempty (String.concat "/" p) = true.
Proof.
  destruct p as [|c p]; [congruence|]. intros _ H.
  cbn [forallb] in H. apply andb_true_iff in H as [Hc _].
  destruct (valid_name_parts c Hc) as [E1 _].
  destruct c as [|x c]; [discriminate|]. now destruct p.
Qed.

Lemma ends_with_slash_concat p :
  p <> [] -> forallb valid_name p = true ->
  Whole.ends_with_slash (String.concat "/" p) = false.
Proof.
  induction p as [|c p IH]; intros Hp H; [congruence|].
  cbn [forallb] in H. apply andb_true_iff in H as [Hc Hrest].
  destruct (valid_name_parts c Hc) as [_ [_ [_ S]]].
  destruct p as [|c' p]; [exact (ends_with_slash_name c S)|].
  change (String.concat "/" (c :: c' :: p))
    with (c ++ String "/" (String.concat "/" (c' :: p)))%string.
  rewrite ends_with_slash_app by reflexivity.
  pose proof (concat_nonempty (c' :: p) ltac:(discriminate) Hrest) as N.
  pose proof (IH ltac:(discriminate) Hrest) as E.
  destruct (String.concat "/" (c' :: p)); [discriminate N | exact E].
Qed.

Lemma valid_snoc p f :
  forallb valid_name p = true -> valid_name f = true ->
  forallb valid_name (p ++ [f]) = true.
Proof. intros Hp Hf. rewrite forallb_app, Hp. simpl. now rewrite Hf. Qed.

(** The text the recursive call of [add] builds for an entry of a directory
    is the text of the path of that entry. *)
Lemma normpath_join dir f :
  forallb valid_name dir = true -> valid_name f = true ->
  Whole.normpath (Whole.join (render dir) f) = render (dir ++ [f]).
Proof.
  intros Hd Hf.
  assert (Hf1 : forallb valid_name [f] = true) by (simpl; now rewrite Hf).
  pose proof (render_not_absolute [f] Hf1) as Af.
  change (render [f]) with f in Af.
  destruct (valid_name_parts f Hf) as [_ [_ [_ Sf]]].
  unfold Whole.join. rewrite Af.
  destruct dir as [|c dir].
  - change (render []) with ".". cbn [nonempty negb orb Whole.ends_with_slash].
    unfold Whole.normpath. simpl. rewrite (split_slash_name f Sf).
    simpl. destruct (valid_name_parts f Hf) as [E1 [E2 [E3 _]]].
    now rewrite E1, E2, E3.
  - pose proof (valid_snoc (c :: dir) f Hd Hf) as V.
    change (render (c :: dir)) with (String.concat "/" (c :: dir)).
    rewrite (concat_nonempty (c :: dir) ltac:(discriminate) Hd).
    rewrite (ends_with_slash_concat (c :: dir) ltac:(discriminate) Hd).
    cbn [negb orb].
    rewrite <- (concat_snoc (c :: dir) f ltac:(discriminate)).
    unfold Whole.normpath.
    pose proof (render_not_absolute ((c :: dir) ++ [f]) V) as A.
    change (render ((c :: dir) ++ [f]))
      with (String.concat "/" ((c :: dir) ++ [f])) in A.
    rewrite A.
    rewrite (split_slash_concat ((c :: dir) ++ [f]));
      [|discriminate | exact (valid_names_slashless _ V)].
    now rewrite (normalize_rel_valid ((c :: dir) ++ [f]) [] V).
Qed.

Lemma abs_join_render base p :
  forallb valid_name p = true -> abs_join base (render p) = base ++ p.
Proof.
  intros H. unfold abs_join. rewrite (render_not_absolute p H).
  destruct p as [|c p].
  - simpl. now rewrite rev_involutive, app_nil_r.
  - change (render (c :: p)) with (String.concat "/" (c :: p)).
    rewrite (split_slash_concat (c :: p));
      [|discriminate | exact (valid_names_slashless _ H)].
    rewrite (normalize_root_valid (c :: p) (rev base) H).
    now rewrite rev_involutive.
Qed.

End TextOfPaths.

Section AddRefinement.

Variable repo : path.

Lemma refines_append_file p data :
  Whole.refines repo (append_file (repo ++ p) data) (append_file p data).
Proof.
  intros fs st L. unfold append_file. rewrite (lookup_below repo fs st p L).
  destruct (lookup p st) as [[old|ents]|].
  - exact (refines_change repo p (File (old ++ data)) fs st L).
  - simpl. now rewrite (graft_same repo fs st L).
  - exact (refines_change repo p (File data) fs st L).
Qed.

Lemma add_scan_on_disk fs st :
  lookup repo fs = Some st ->
  forall files acc dirs w,
    Forall (fun f => forallb valid_name f = true) files ->
    Whole.add_scan repo fs (map render files) acc (map render dirs) w
    = (let '(a, d, w') := add_scan st files acc dirs w in
       (a, map render d, w')).
Proof.
  intros L. induction files as [|file files IH]; intros acc dirs w H.
  - reflexivity.
  - inversion H as [|x xs Hfile Hrest]; subst.
    cbn [map Whole.add_scan add_scan]. cbv zeta.
    rewrite (abs_join_render repo file Hfile), (lookup_below repo fs st file L).
    destruct (lookup file st) as [[x|ents]|].
    + destruct (mem (render file) acc); apply IH; exact Hrest.
    + change (map render dirs ++ [render file])
        with (map render dirs ++ map render [file]).
      rewrite <- map_app. apply IH; exact Hrest.
    + apply IH; exact Hrest.
Qed.

Lemma add_scan_dirs st files : forall acc dirs w,
  Forall (fun f => forallb valid_name f = true) files ->
  Forall (fun f => forallb valid_name f = true) dirs ->
  forall a d w',
    add_scan st files acc dirs w = (a, d, w') ->
    Forall (fun f => forallb valid_name f = true) d.
Proof.
  induction files as [|file files IH]; intros acc dirs w H Hd a d w' E.
  - simpl in E. inversion E; subst. exact Hd.
  - inversion H as [|x xs Hfile Hrest]; subst. cbn [add_scan] in E.
    destruct (lookup file st) as [[x|ents]|].
    + destruct (mem (render file) acc);
        exact (IH _ _ _ Hrest Hd a d w' E).
    + refine (IH _ _ _ Hrest _ a d w' E). apply Forall_app.
      split; [exact Hd|]. constructor; [exact Hfile | constructor].
    + exact (IH _ _ _ Hrest Hd a d w' E).
Qed.

Lemma add_subdirs_on_disk
    (rec : list path -> node -> option (outcome unit))
    (rec' : list string -> node -> option (outcome unit)) :
  (forall files fs st,
     lookup repo fs = Some st -> valid_tree st = true ->
     Forall (fun f => forallb valid_name f = true) files ->
     rec' (map render files) fs
     = option_map (Whole.lift repo fs) (rec files st)) ->
  (forall files st o, rec files st = Some o -> shape (final o) = shape st) ->
  forall dirs fs st,
    lookup repo fs = Some st -> valid_tree st = true ->
    Forall (fun f => forallb valid_name f = true) dirs ->
    Whole.add_subdirs repo rec' (map render dirs) fs
    = option_map (Whole.lift repo fs) (add_subdirs rec dirs st).
Proof.
  intros Hrec Hshape.
  induction dirs as [|dir rest IH]; intros fs st L V H.
  - simpl. now rewrite (graft_same repo fs st L).
  - inversion H as [|x xs Hdir Hrest]; subst.
    cbn [map Whole.add_subdirs add_subdirs]. unfold listdir.
    rewrite (abs_join_render repo dir Hdir), (lookup_below repo fs st dir L).
    destruct (lookup dir st) as [[x|ents]|] eqn:Ld;
      try (simpl; now rewrite (graft_same repo fs st L)).
    destruct (valid_tree_lookup dir st (Dir ents) V Ld) as [_ Vd].
    pose proof (valid_tree_names ents Vd) as Vn.
    assert (E : map (fun f => Whole.normpath (Whole.join (render dir) f))
                  (map fst ents)
                = map render (map (fun f => dir ++ [f]) (map fst ents))).
    { etransitivity; [|symmetry; apply map_map].
      apply map_ext_in. intros f Hf.
      rewrite forallb_forall in Vn.
      exact (normpath_join dir f Hdir (Vn f Hf)). }
    rewrite E.
    assert (Vfiles : Forall (fun f => forallb valid_name f = true)
                       (map (fun f => dir ++ [f]) (map fst ents))).
    { apply Forall_forall. intros p Hp.
      apply in_map_iff in Hp as [f [<- Hf]].
      rewrite forallb_forall in Vn.
      exact (valid_snoc dir f Hdir (Vn f Hf)). }
    rewrite (Hrec _ fs st L V Vfiles).
    destruct (rec (map (fun f => dir ++ [f]) (map fst ents)) st)
      as [[[] s|e s]|] eqn:R; simpl; [| reflexivity | reflexivity].
    pose proof (Hshape _ _ _ R) as Hs. simpl in Hs.
    rewrite (IH (Whole.graft repo s fs) s
               (lookup_graft repo fs st s L)
               (same_shape_valid st s Hs V) Hrest).
    destruct (add_subdirs rec rest s) as [o|]; [|reflexivity].
    simpl. now rewrite (lift_graft repo fs st s o L).
Qed.

Lemma add_fuel_on_disk n : forall files fs st,
  lookup repo fs = Some st -> valid_tree st = true ->
  Forall (fun f => forallb valid_name f = true) files ->
  Whole.add_fuel n repo (map render files) fs
  = option_map (Whole.lift repo fs) (add_fuel n files st).
Proof.
  induction n as [|n IH]; intros files fs st L V H; [reflexivity|].
  cbn [Whole.add_fuel add_fuel].
  rewrite (refines_toCommitList repo fs st L).
  destruct (toCommitList st) as [ls s0|e s0] eqn:T; [|reflexivity].
  apply toCommitList_inv in T as [-> [d [Hd _]]].
  simpl. rewrite (graft_same repo fs st L).
  pose proof (add_scan_on_disk fs st L files ls [] "" H) as Sc.
  cbn [map] in Sc. rewrite Sc.
  destruct (add_scan st files ls [] "") as [[a dirs] written] eqn:Esc.
  pose proof (add_scan_dirs st files ls [] "" H (Forall_nil _)
                a dirs written Esc) as Vd.
  unfold Whole.marker. rewrite <- app_assoc. cbn [app].
  rewrite (refines_append_file [REPO_DIR; TO_COMMIT] written fs st L).
  fold to_commit_path.
  pose proof (append_file_shape to_commit_path d written st Hd) as Sh.
  destruct (append_file to_commit_path written st) as [[] s1|e s1];
    [|reflexivity].
  simpl in Sh |- *.
  rewrite (add_subdirs_on_disk (add_fuel n) (Whole.add_fuel n repo)
             IH (add_fuel_shape n) dirs (Whole.graft repo s1 fs) s1
             (lookup_graft repo fs st s1 L) (same_shape_valid st s1 Sh V) Vd).
  destruct (add_subdirs (add_fuel n) dirs s1) as [o|]; [|reflexivity].
  simpl. now rewrite (lift_graft repo fs st s1 o L).
Qed.

End AddRefinement.

(** [add] on the file system and on the tree of the repository: when the
    directory at [repoPath] holds the tree [st], whose entries bear valid
    names, and [files] are paths of valid names below [repoPath], then
    [add(repoPath, files)], called with the texts of these paths, returns
    or raises as [add] does on [st], leaves below [repoPath] the tree that
    [add] on [st] leaves, and leaves the rest of the file system as it
    was. *)
Theorem add_on_the_file_system (repoPath : path) (files : list path)
    (fs st : node) :
  lookup repoPath fs = Some st ->
  valid_tree st = true ->
  Forall (fun f => forallb valid_name f = true) files ->
  Whole.add repoPath (map render files) fs
  = Some (Whole.lift repoPath fs (add files st)).
Proof.
  intros L V H. unfold Whole.add.
  destruct (add_total files st) as [o [R [E _]]].
  rewrite E.
  assert (Hle : S (height st) <= S (height fs)).
  { pose proof (height_lookup repoPath fs st L). lia. }
  pose proof (add_fuel_mono (S (height st)) (S (height fs)) files st o Hle R)
    as R'.
  rewrite (add_fuel_on_disk repoPath (S (height fs)) files fs st L V H).
  now rewrite R'.
Qed.

Lemma add_on_the_file_system_witness :
  Whole.add Whole.proj (map render [["b.txt"]; ["sub"]]) Whole.nested_disk
  = Some (Whole.lift Whole.proj Whole.nested_disk
            (add [["b.txt"]; ["sub"]] Whole.nested)).
Proof.
  apply (add_on_the_file_system Whole.proj [["b.txt"]; ["sub"]]
           Whole.nested_disk Whole.nested).
  - reflexivity.
  - reflexivity.
  - repeat constructor.
Defined.
